(** * keunwoo/skiplist: a shallow embedding of [skiplist.go]

    The Go program keeps its nodes on the garbage-collected heap and links
    them with pointers; [Insert] even keeps pointers to individual slots of
    the [next] slices it walked over.  The embedding therefore models

    - the nodes owned by a list as an arena ([heap]), a pointer being the
      index of a node in it and allocation appending at the end;
    - a slice such as the local variable [nodes] as a reference to the
      slice it aliases ([SHead] for [s.head], [SNext p] for [p.next]);
    - a [**node] such as [updates[i]] as a slot: a slice reference and an
      index into it;
    - run-time panics, and loops that may not terminate, by the [Result]
      type: [Panic] for an abort of the process, [Timeout] when the fuel of
      a pointer-chasing loop is exhausted.  A loop that follows pointers
      takes one unit of fuel for each turn; the loops that count levels
      are structural;
    - an [interface{}] value as [option E], [None] being the nil
      interface, and the comparator as a function on these values that
      returns a Go [int];
    - Go's [int] as [Z]: the program adds 1 to a level, to [maxLevel] and
      to a count of nodes, and compares; [make] with a negative length
      panics;
    - [crypto/rand] as a stream of [Read] outcomes. *)

From stdpp Require Import base list strings pretty sorting gmap.
From Stdlib Require Import ZArith Lia Ascii Sorting.Sorted Sorting.Permutation.

Open Scope Z_scope.

(** ** Outcomes of a Go call *)

Inductive panic :=
  | InvalidCmp        (* panic("invalid result code from comparison") *)
  | IndexOutOfRange   (* slice index out of range *)
  | NilDeref          (* nil pointer dereference *)
  | RandFailure       (* panic("error getting random level: ...") *)
  | NegativeLen       (* make: len out of range *)
  | Dangling.         (* a pointer outside the arena; Go has none *)

Inductive Result (A : Type) :=
  | Ret (a : A)
  | Panic (p : panic)
  | Timeout.
Arguments Ret {A} a.
Arguments Panic {A} p.
Arguments Timeout {A}.

Definition bind {A B} (m : Result A) (k : A → Result B) : Result B :=
  match m with
  | Ret a => k a
  | Panic p => Panic p
  | Timeout => Timeout
  end.

Notation "'do' x <- m ; k" := (bind m (fun x => k))
  (at level 10, x name, m at level 100, k at level 200).
Notation "'do' ' p <- m ; k" := (bind m (fun x => let 'p := x in k))
  (at level 10, p pattern, m at level 100, k at level 200).

(** [l[i]] with Go's bounds check. *)
Definition index {A} (l : list A) (i : nat) : Result A :=
  match l !! i with
  | Some x => Ret x
  | None => Panic IndexOutOfRange
  end.

(** ** Strings *)

(** [strings.Repeat(p, n)] *)
Fixpoint repeat_string (p : string) (n : nat) : string :=
  match n with
  | O => EmptyString
  | S n => p +:+ repeat_string p n
  end.

(** [strings.TrimRight(str, " ")] *)
Fixpoint trim_right (str : string) : string :=
  match str with
  | EmptyString => EmptyString
  | String a rest =>
      match trim_right rest with
      | EmptyString => if Ascii.eqb a " "%char then EmptyString else String a EmptyString
      | rest' => String a rest'
      end
  end.

Definition newline : string := String "010"%char EmptyString.

(** [strings.Join(l, sep)] for the empty separator. *)
Definition join (l : list string) : string := String.concat EmptyString l.

(** ** The data model *)

Abbreviation ptr := nat.

(** The outcomes of [rand.Read(rb)] for a one-byte buffer, in the order
    they are drawn: the byte read, or [None] for a non-nil error. *)
Definition rand_source := nat → option Z.

Definition rand_tail (rs : rand_source) : rand_source := fun k => rs (S k).

(** A slice variable aliases the header or the [next] field of a node. *)
Inductive sref := SHead | SNext (p : ptr).

Global Instance sref_eq_dec : EqDecision sref.
Proof. solve_decision. Defined.

(** [&nodes[i]] *)
Abbreviation slot := (sref * nat)%type.

Section SkipList.

(** [interface{}]: the nil interface or a dynamic value. *)
Context {E : Type}.
Definition value := option E.

(** type node struct { val interface{}; next []*node } *)
Record node := Node { val : value; next : list (option ptr) }.

(** type SkipList struct { Compare; maxLevel int; head []*node },
    together with the nodes it has allocated. *)
Record SkipList := Mk {
  Compare : value → value → Z;
  maxLevel : Z;
  head : list (option ptr);
  heap : list node
}.

Definition deref (s : SkipList) (p : ptr) : Result node :=
  match heap s !! p with
  | Some nd => Ret nd
  | None => Panic Dangling
  end.

Definition slice (s : SkipList) (r : sref) : Result (list (option ptr)) :=
  match r with
  | SHead => Ret (head s)
  | SNext p => do nd <- deref s p ; Ret (next nd)
  end.

(** [*u] for [u = &nodes[i]] *)
Definition read_slot (s : SkipList) (u : slot) : Result (option ptr) :=
  do sl <- slice s u.1 ; index sl u.2.

Definition set_heap (s : SkipList) (h : list node) : SkipList :=
  Mk (Compare s) (maxLevel s) (head s) h.

Definition set_head (s : SkipList) (hd : list (option ptr)) : SkipList :=
  Mk (Compare s) (maxLevel s) hd (heap s).

(** [*u = v] *)
Definition write_slot (s : SkipList) (u : slot) (v : option ptr)
  : Result SkipList :=
  match u.1 with
  | SHead =>
      do _ <- index (head s) u.2 ;
      Ret (set_head s (<[u.2 := v]> (head s)))
  | SNext p =>
      do nd <- deref s p ;
      do _ <- index (next nd) u.2 ;
      Ret (set_heap s (<[p := Node (val nd) (<[u.2 := v]> (next nd))]> (heap s)))
  end.

(** [p.val = v] *)
Definition write_val (s : SkipList) (p : ptr) (v : value) : Result SkipList :=
  do nd <- deref s p ;
  Ret (set_heap s (<[p := Node v (next nd)]> (heap s))).

(** [&node{...}] *)
Definition alloc (s : SkipList) (nd : node) : ptr * SkipList :=
  (length (heap s), set_heap s (heap s ++ [nd])).

(** ** New *)

Definition New (compare : value → value → Z) (maxLevel : Z) : Result SkipList :=
  if maxLevel <? 0 then Panic NegativeLen
  else Ret (Mk compare maxLevel (replicate (Z.to_nat maxLevel) None) []).

(** ** cmp: the nil node is greater than any element *)

Definition cmp (s : SkipList) (n : option ptr) (elem : value) : Result Z :=
  match n with
  | None => Ret 1
  | Some p => do nd <- deref s p ; Ret (Compare s (val nd) elem)
  end.

(** [n.next] for a [*node] that may be nil *)
Definition next_of (s : SkipList) (n : option ptr) : Result sref :=
  match n with
  | None => Panic NilDeref
  | Some p => do _ <- deref s p ; Ret (SNext p)
  end.

(** ** Contains *)

(** The [inner: for { switch ... }] loop at level [i].  [inl nodes] is
    [break inner] with the current slice, [inr b] is [return b]. *)
Fixpoint contains_inner (fuel : nat) (s : SkipList) (elem : value) (i : nat)
    (nodes : sref) : Result (sref + bool) :=
  match fuel with
  | O => Timeout
  | S fuel =>
      do sl <- slice s nodes ;
      do n <- index sl i ;
      do c <- cmp s n elem ;
      if c =? -1 then
        do nodes' <- next_of s n ;
        contains_inner fuel s elem i nodes'
      else if c =? 0 then Ret (inr true)
      else if c =? 1 then Ret (inl nodes)
      else Panic InvalidCmp
  end.

(** [for i := s.maxLevel - 1; i >= 0; i--], with [k = i + 1]. *)
Fixpoint contains_outer (fuel : nat) (s : SkipList) (elem : value) (k : nat)
    (nodes : sref) : Result (sref + bool) :=
  match k with
  | O => Ret (inl nodes)
  | S i =>
      do r <- contains_inner fuel s elem i nodes ;
      match r with
      | inl nodes' => contains_outer fuel s elem i nodes'
      | inr b => Ret (inr b)
      end
  end.

Definition Contains (fuel : nat) (s : SkipList) (elem : value) : Result bool :=
  do r <- contains_outer fuel s elem (Z.to_nat (maxLevel s)) SHead ;
  match r with
  | inr b => Ret b
  | inl nodes =>
      do sl <- slice s nodes ;
      do n <- index sl 0 ;
      do c <- cmp s n elem ;
      Ret (c =? 0)
  end.

(** ** Insert *)

(** The search loop of [Insert].  Its [switch] has no [default] case: on a
    result other than -1, 0, 1 the body does nothing and the [for] goes
    round again. *)
Fixpoint insert_inner (fuel : nat) (s : SkipList) (elem : value) (i : nat)
    (nodes : sref) (updates : list (option slot))
    : Result (sref * list (option slot) + value * SkipList) :=
  match fuel with
  | O => Timeout
  | S fuel =>
      do sl <- slice s nodes ;
      do n <- index sl i ;
      do c <- cmp s n elem ;
      if c =? -1 then
        do nodes' <- next_of s n ;
        insert_inner fuel s elem i nodes' updates
      else if c =? 0 then
        match n with
        | None => Panic NilDeref
        | Some p =>
            do nd <- deref s p ;
            do s' <- write_val s p elem ;
            Ret (inr (val nd, s'))
        end
      else if c =? 1 then
        do _ <- index updates i ;
        Ret (inl (nodes, <[i := Some (nodes, i)]> updates))
      else insert_inner fuel s elem i nodes updates
  end.

Fixpoint insert_outer (fuel : nat) (s : SkipList) (elem : value) (k : nat)
    (nodes : sref) (updates : list (option slot))
    : Result (sref * list (option slot) + value * SkipList) :=
  match k with
  | O => Ret (inl (nodes, updates))
  | S i =>
      do r <- insert_inner fuel s elem i nodes updates ;
      match r with
      | inl (nodes', updates') => insert_outer fuel s elem i nodes' updates'
      | inr out => Ret (inr out)
      end
  end.

(** [randLevel]: [k] counts the levels left below [maxLevel], so the guard
    [level < s.maxLevel] holds exactly when [k] is not zero. *)
Fixpoint randLevel_loop (k : nat) (level : Z) (rs : rand_source)
    : Result (Z * rand_source) :=
  match k with
  | O => Ret (level, rs)
  | S k =>
      match rs O with
      | None => Panic RandFailure
      | Some b =>
          if Z.land b 1 =? 1 then randLevel_loop k (level + 1) (rand_tail rs)
          else Ret (level, rand_tail rs)
      end
  end.

Definition randLevel (s : SkipList) (rs : rand_source) : Result (Z * rand_source) :=
  randLevel_loop (Z.to_nat (maxLevel s - 1)) 1 rs.

(** [for i := range n.next { n.next[i] = *updates[i]; *updates[i] = n }],
    with [cnt] iterations left from index [i]. *)
Fixpoint splice (s : SkipList) (n : ptr) (updates : list (option slot))
    (i cnt : nat) : Result SkipList :=
  match cnt with
  | O => Ret s
  | S cnt =>
      do u <- index updates i ;
      match u with
      | None => Panic NilDeref
      | Some u =>
          do v <- read_slot s u ;
          do s1 <- write_slot s (SNext n, i) v ;
          do s2 <- write_slot s1 u (Some n) ;
          splice s2 n updates (S i) cnt
      end
  end.

Definition Insert (fuel : nat) (s : SkipList) (elem : value) (rs : rand_source)
    : Result (value * SkipList * rand_source) :=
  if maxLevel s <? 0 then Panic NegativeLen else
  let updates := replicate (Z.to_nat (maxLevel s)) None in
  do r <- insert_outer fuel s elem (Z.to_nat (maxLevel s)) SHead updates ;
  match r with
  | inr (prev, s') => Ret (prev, s', rs)
  | inl (_, updates) =>
      do '(level, rs') <- randLevel s rs ;
      let '(n, s1) := alloc s (Node elem (replicate (Z.to_nat level) None)) in
      do s2 <- splice s1 n updates 0 (Z.to_nat level) ;
      Ret (None, s2, rs')
  end.

(** ** ForEach *)

(** The callback is a Go closure: it reads and writes its captured
    variables ([CS]) and returns an error ([Some e]) or nil. *)
Fixpoint foreach_loop {CS Err : Type} (fuel : nat) (s : SkipList)
    (callback : CS → value → CS * option Err) (st : CS) (n : option ptr)
    : Result (CS * option Err) :=
  match n with
  | None => Ret (st, None)
  | Some p =>
      match fuel with
      | O => Timeout
      | S fuel =>
          do nd <- deref s p ;
          let '(st', err) := callback st (val nd) in
          match err with
          | Some e => Ret (st', Some e)
          | None =>
              do n' <- index (next nd) 0 ;
              foreach_loop fuel s callback st' n'
          end
      end
  end.

Definition ForEach {CS Err : Type} (fuel : nat) (s : SkipList)
    (callback : CS → value → CS * option Err) (st : CS)
    : Result (CS * option Err) :=
  do n <- index (head s) 0 ;
  foreach_loop fuel s callback st n.

(** ** String *)

(** The formatting of a value by [%v] is that of its dynamic type, and is
    left open: [fmt_v]. *)

(** [const minValueLen = 5] *)
Definition minValueLen : nat := 5.

(** The first loop: the formatted values along level 0. *)
Fixpoint string_values (fuel : nat) (s : SkipList) (fmt_v : value → string)
    (cur : option ptr) (strValues : list string) : Result (list string) :=
  match cur with
  | None => Ret strValues
  | Some p =>
      match fuel with
      | O => Timeout
      | S fuel =>
          do nd <- deref s p ;
          let str := " " +:+ fmt_v (val nd) +:+ " " in
          let str :=
            if (String.length str <? minValueLen)%nat
            then str +:+ repeat_string " " (minValueLen - String.length str)
            else str in
          do cur' <- index (next nd) 0 ;
          string_values fuel s fmt_v cur' (strValues ++ [str])
      end
  end.

(** [for lvl := 0; lvl < s.maxLevel; lvl++], with [cnt] levels left from
    [lvl], for the slice [cur] of the current position. *)
Fixpoint string_levels (cnt lvl : nat) (cur : list (option ptr))
    (curValue : string) (inPtr : list bool) (lines : list (list string))
    : Result (list bool * list (list string)) :=
  match cnt with
  | O => Ret (inPtr, lines)
  | S cnt =>
      do '(segment, pad, inPtr') <-
        (if (length cur <=? lvl)%nat then
           do b <- index inPtr lvl ;
           Ret (EmptyString, (if b : bool then "-" else " "), inPtr)
         else
           do n <- index cur lvl ;
           match n with
           | None =>
               do b <- index inPtr lvl ;
               Ret ((if b : bool then ">|nil " else " |nil "), " ",
                    <[lvl := false]> inPtr)
           | Some _ =>
               do b <- index inPtr lvl ;
               Ret ((if b : bool then ">|-" else " |-"), "-",
                    <[lvl := true]> inPtr)
           end) ;
      let segment :=
        if (String.length segment <? String.length curValue)%nat
        then segment +:+
             repeat_string pad (String.length curValue - String.length segment)
        else segment in
      do line <- index lines (S lvl) ;
      string_levels cnt (S lvl) cur curValue inPtr'
        (<[S lvl := line ++ [segment]]> lines)
  end.

(** The second loop: [for cur != nil], over the slices along level 0. *)
Fixpoint string_march (fuel : nat) (s : SkipList) (strValues : list string)
    (cur : option sref) (i : Z) (inPtr : list bool)
    (lines : list (list string)) : Result (list (list string)) :=
  match cur with
  | None => Ret lines
  | Some r =>
      match fuel with
      | O => Timeout
      | S fuel =>
          do sl <- slice s r ;
          do curValue <-
            (if i =? -1 then Ret (repeat_string " " minValueLen)
             else if i <? 0 then Panic IndexOutOfRange
             else index strValues (Z.to_nat i)) ;
          do '(inPtr', lines') <-
            string_levels (Z.to_nat (maxLevel s)) 0 sl curValue inPtr lines ;
          do n <- index sl 0 ;
          do cur' <-
            match n with
            | None => Ret None
            | Some _ => do r' <- next_of s n ; Ret (Some r')
            end ;
          string_march fuel s strValues cur' (i + 1) inPtr' lines'
      end
  end.

Definition String (fuel : nat) (s : SkipList) (fmt_v : value → string)
    : Result string :=
  do n <- index (head s) 0 ;
  do strValues <-
    string_values fuel s fmt_v n [repeat_string " " minValueLen] ;
  if maxLevel s + 1 <? 0 then Panic NegativeLen else
  let lines := replicate (Z.to_nat (maxLevel s + 1)) [] in
  do _ <- index lines 0 ;
  let lines := <[O := strValues]> lines in
  if maxLevel s <? 0 then Panic NegativeLen else
  let inPtr := replicate (Z.to_nat (maxLevel s)) false in
  do lines' <- string_march fuel s strValues (Some SHead) (-1) inPtr lines ;
  let buf :=
    ["{maxLevel: " +:+ pretty (maxLevel s) +:+ ", nodes:" +:+ newline] ++
    flat_map (fun l => [trim_right (join l); newline]) lines' ++
    ["}"] in
  Ret (join buf).

End SkipList.

Arguments node : clear implicits.
Arguments SkipList : clear implicits.

(** * The comparator contract *)

(** [compare] orders the values: it answers -1, 0 or 1, the two
    directions agree, and "not greater" is transitive.  Values it finds
    equal need not be the same value. *)
Record TotalOrder {E : Type} (c : @value E → @value E → Z) : Prop := {
  cmp_range a b : c a b = -1 ∨ c a b = 0 ∨ c a b = 1;
  cmp_flip a b : c a b = -1 ↔ c b a = 1;
  cmp_le_trans a b d : c a b ≠ 1 → c b d ≠ 1 → c a d ≠ 1
}.

(** * The abstract view of a list state *)

Section Abstraction.
Context {E : Type}.
Implicit Types (s : SkipList E) (l a b : list ptr) (p q : ptr).
Local Open Scope nat_scope.

(** [maxLevel] as a number of levels. *)
Definition levels s : nat := Z.to_nat (maxLevel s).

(** [len(p.next)] and [p.val], for a pointer of the arena. *)
Definition height s p : nat :=
  match heap s !! p with Some nd => length (next nd) | None => 0 end.

Definition valof s p : @value E :=
  match heap s !! p with Some nd => val nd | None => None end.

(** The first node of [l] that takes part in level [j]. *)
Fixpoint first_above (ht : ptr → nat) (j : nat) l : option ptr :=
  match l with
  | [] => None
  | p :: l => if decide (j < ht p) then Some p else first_above ht j l
  end.

(** The slice of the last node of [l], or the header. *)
Definition last_ref l : sref :=
  match last l with Some q => SNext q | None => SHead end.

(** The slice whose slot [j] precedes the end of [l] at level [j]: that of
    the last node of [l] taking part in level [j], or the header. *)
Definition pred_slice (ht : ptr → nat) (j : nat) l : sref :=
  foldl (λ r q, if decide (j < ht q) then SNext q else r) SHead l.

(** The order of the comparator, on nodes. *)
Definition ltp s p q : Prop := Compare s (valof s p) (valof s q) = (-1)%Z.

(** A node's value is less, resp. greater, than [elem]. *)
Definition lt_elem s (elem : @value E) p : Prop :=
  Compare s (valof s p) elem = (-1)%Z.

Definition gt_elem s (elem : @value E) p : Prop :=
  Compare s (valof s p) elem = 1%Z.

(** The slice [r] has a slot at level [i]. *)
Definition wide s (r : sref) (i : nat) : Prop :=
  ∃ sl, slice s r = Ret sl ∧ i < length sl.

(** [sl], the slice reached after the nodes [a], links at each of its
    levels to the first node of the rest [b] at that level. *)
Definition slice_ok s a b (sl : list (option ptr)) : Prop :=
  length sl ≤ levels s ∧
  (a = [] → length sl = levels s) ∧
  (a ≠ [] → 1 ≤ length sl) ∧
  ∀ j, j < length sl → sl !! j = Some (first_above (height s) j b).

(** The invariant of the package comment, for the list [l] of the nodes
    along level 0: the header, and every node, links at each of its levels
    to the first later node of that level; the values increase strictly
    along [l]; and [l] holds every node that was allocated, once. *)
Record Inv s l : Prop := {
  inv_max : (0 ≤ maxLevel s)%Z;
  inv_links : ∀ a b, l = a ++ b →
    ∃ sl, slice s (last_ref a) = Ret sl ∧ slice_ok s a b sl;
  inv_sorted : StronglySorted (ltp s) l;
  inv_perm : l ≡ₚ seq 0 (length (heap s))
}.

(** What the slot recorded at level [j] holds in [s]. *)
Definition old_of s (updates : list (option slot)) (j : nat)
    : option (option ptr) :=
  match updates !! j with
  | Some (Some u) =>
      match read_slot s u with
      | Ret v => Some v
      | _ => None
      end
  | _ => None
  end.

(** The state [t] once the loop at the end of [Insert] has run for the
    levels below [i], from the state [s] with the new node [n], of [R]
    levels and value [elem], allocated: the recorded slots of these levels
    refer to [n], which refers to what they held; the rest is as in [s]. *)
Definition linked s (updates : list (option slot)) (elem : @value E)
    (R n i : nat) (t : SkipList E) : Prop :=
  Compare t = Compare s ∧ maxLevel t = maxLevel s ∧
  length (heap t) = S n ∧
  (∀ q, q < n → valof t q = valof s q) ∧
  valof t n = elem ∧
  (∀ r sl, slice s r = Ret sl →
     ∃ sl', slice t r = Ret sl' ∧ length sl' = length sl ∧
       ∀ j, j < length sl →
         sl' !! j = if decide (j < i ∧ updates !! j = Some (Some (r, j)))
                    then Some (Some n) else sl !! j) ∧
  (∃ sl, slice t (SNext n) = Ret sl ∧ length sl = R ∧
     ∀ j, j < R →
       sl !! j = if decide (j < i) then old_of s updates j else Some None).

(** The state [t] once [Insert] has linked the new node [n], of height [R]
    and value [elem], between [pre] and [suf] at the levels below [i]. *)
Definition spliced s pre suf (elem : @value E) (R n i : nat)
    (t : SkipList E) : Prop :=
  Compare t = Compare s ∧ maxLevel t = maxLevel s ∧
  length (heap t) = S n ∧
  (∀ q, q < n → valof t q = valof s q) ∧
  valof t n = elem ∧
  (∀ r sl, slice s r = Ret sl →
     ∃ sl', slice t r = Ret sl' ∧ length sl' = length sl ∧
       ∀ j, j < length sl →
         sl' !! j = if decide (j < i ∧ pred_slice (height s) j pre = r)
                    then Some (Some n) else sl !! j) ∧
  (∃ sl, slice t (SNext n) = Ret sl ∧ length sl = R ∧
     ∀ j, j < R →
       sl !! j = Some (if decide (j < i) then first_above (height s) j suf
                       else None)).

(** The nodes met by following [next[L]] from [n] up to nil. *)
Inductive chain s (L : nat) : option ptr → list ptr → Prop :=
  | chain_nil : chain s L None []
  | chain_cons p nd n c :
      heap s !! p = Some nd → next nd !! L = Some n → chain s L n c →
      chain s L (Some p) (p :: c).

(** What the search of [Contains] makes of an outcome of the search of
    [Insert]: the slice it stopped at, or the node it found. *)
Definition found_of
    (r : Result (sref * list (option slot) + @value E * SkipList E))
    : Result (sref + bool) :=
  match r with
  | Ret (inl (nodes, _)) => Ret (inl nodes)
  | Ret (inr _) => Ret (inr true)
  | Panic p => Panic p
  | Timeout => Timeout
  end.

(** The shape of a list, whatever the comparator does: the header has
    [maxLevel] levels, at least one; every node has a height between 1 and
    [maxLevel]; and level 0 chains all the nodes, as [ch]. *)
Record Shape s (ch : list ptr) : Prop := {
  shape_max : (1 ≤ maxLevel s)%Z;
  shape_head : length (head s) = levels s;
  shape_heights : ∀ nd, nd ∈ heap s → 1 ≤ length (next nd) ≤ levels s;
  shape_chain : ∃ n, head s !! 0 = Some n ∧ chain s 0 n ch;
  shape_perm : ch ≡ₚ seq 0 (length (heap s))
}.

(** The states the public operations build from [New c m], with the values
    handed to [Insert], last first.  [Contains], [ForEach] and [String]
    leave the state as it is. *)
Inductive built (c : @value E → @value E → Z) (m : Z)
    : SkipList E → list (@value E) → Prop :=
  | built_New s : New c m = Ret s → built c m s []
  | built_Insert s vs fuel v rs prev s' rs' :
      built c m s vs → Insert fuel s v rs = Ret (prev, s', rs') →
      built c m s' (v :: vs).

(** No two of the values are equal for the comparator. *)
Fixpoint distinct (c : @value E → @value E → Z) (vs : list (@value E)) : Prop :=
  match vs with
  | [] => True
  | v :: vs => Forall (λ w, c v w ≠ 0%Z) vs ∧ distinct c vs
  end.

(** What [ForEach] does to a list of values: the callback runs on them in
    order until it first reports an error. *)
Fixpoint foreach_values {CS Err : Type}
    (callback : CS → @value E → CS * option Err) (st : CS)
    (vs : list (@value E)) : CS * option Err :=
  match vs with
  | [] => (st, None)
  | v :: vs =>
      let '(st', err) := callback st v in
      match err with
      | Some e => (st', Some e)
      | None => foreach_values callback st' vs
      end
  end.

(** A callback that keeps the list of the values it was called on, and
    reports the error [f] finds in a value. *)
Definition traced {Err : Type} (f : @value E → option Err)
    (seen : list (@value E)) (v : @value E) : list (@value E) * option Err :=
  (seen ++ [v], f v).

End Abstraction.

(** * The random bits *)

(** The bit the level generator looks at in the [k]-th byte it draws. *)
Definition bit (rs : rand_source) (k : nat) : bool :=
  match rs k with
  | Some b => Z.land b 1 =? 1
  | None => false
  end.

(** The number of 1-bits drawn before the first 0-bit, among the first [k]
    draws. *)
Fixpoint leading_ones (k : nat) (rs : rand_source) : nat :=
  match k with
  | O => O
  | S k => if bit rs 0 then S (leading_ones k (rand_tail rs)) else O
  end.

(** * Concrete lists *)

(** The comparator of the tests ([newInt64SkipList]) on int64 values,
    with the nil interface ordered before every number. *)
Definition int64_compare (a b : @value Z) : Z :=
  match a, b with
  | None, None => 0
  | None, Some _ => -1
  | Some _, None => 1
  | Some ai, Some bi => if ai <? bi then -1 else if ai =? bi then 0 else 1
  end.

(** A comparator that breaks the contract: it always answers 2. *)
Definition bad_compare (a b : @value Z) : Z := 2.

(** Random sources: every byte read is [b]. *)
Definition const_source (b : Z) : rand_source := fun _ => Some b.

(** A source whose bytes are those of [bs], then zeros. *)
Definition list_source (bs : list Z) : rand_source :=
  fun k => Some (nth k bs 0).

(** A source that fails at once. *)
Definition failing_source : rand_source := fun _ => None.

(** [for _, x := range vs { s.Insert(x) }], as the tests do. *)
Fixpoint inserts {E : Type} (fuel : nat) (s : SkipList E)
    (vs : list (@value E)) (rs : rand_source)
    : Result (SkipList E * rand_source) :=
  match vs with
  | [] => Ret (s, rs)
  | v :: vs =>
      do '(_, s', rs') <- Insert fuel s v rs ;
      inserts fuel s' vs rs'
  end.

(** [New(compare, maxLevel)] followed by the insertion of [vs]. *)
Definition list_of {E : Type} (c : @value E → @value E → Z) (m : Z)
    (fuel : nat) (vs : list (@value E)) (rs : rand_source)
    : Result (SkipList E) :=
  do s <- New c m ;
  do '(s', _) <- inserts fuel s vs rs ;
  Ret s'.

(** The list of 5, 3 and 7, inserted in this order into a list of three
    levels with the heights 2, 1 and 3. *)
Definition sample_list : SkipList Z :=
  Mk int64_compare 3 [Some 1%nat; Some 0%nat; Some 2%nat]
    [Node (Some 5) [Some 2%nat; Some 2%nat];
     Node (Some 3) [Some 0%nat];
     Node (Some 7) [None; None; None]].

(** A list of one level that holds the nil interface. *)
Definition nil_list : SkipList Z :=
  Mk int64_compare 1 [Some 0%nat] [Node None [None]].

(** A list of one level and one node, under [bad_compare]. *)
Definition bad_list : SkipList Z :=
  Mk bad_compare 1 [Some 0%nat] [Node (Some 4) [None]].

(** [sample_list] after the insertion of 4 with height 2. *)
Definition sample_list_4 : SkipList Z :=
  Mk int64_compare 3 [Some 1%nat; Some 3%nat; Some 2%nat]
    [Node (Some 5) [Some 2%nat; Some 2%nat];
     Node (Some 3) [Some 3%nat];
     Node (Some 7) [None; None; None];
     Node (Some 4) [Some 0%nat; Some 0%nat]].

(** A callback error, and a check that fails on the value 5. *)
Inductive failure := Failed.

Definition fails_on_5 (v : @value Z) : option failure :=
  match v with
  | Some 5 => Some Failed
  | _ => None
  end.

(** The scenario of the tests: 5, 3, 5, 7 and -2 are inserted into a list
    of ten levels; [Contains(5)] is asked before and after the first
    insertion, and [ForEach] collects the values at the end. *)
Definition scenario (fuel : nat) (rs : rand_source)
    : Result (list (@value Z) * bool * bool
              * (list (@value Z) * option failure)) :=
  do s0 <- New int64_compare 10 ;
  do before <- Contains fuel s0 (Some 5) ;
  do '(p1, s1, rs1) <- Insert fuel s0 (Some 5) rs ;
  do after <- Contains fuel s1 (Some 5) ;
  do '(p2, s2, rs2) <- Insert fuel s1 (Some 3) rs1 ;
  do '(p3, s3, rs3) <- Insert fuel s2 (Some 5) rs2 ;
  do '(p4, s4, rs4) <- Insert fuel s3 (Some 7) rs3 ;
  do '(p5, s5, rs5) <- Insert fuel s4 (Some (-2)) rs4 ;
  do out <- ForEach fuel s5 (traced (fun _ => None)) [] ;
  Ret ([p1; p2; p3; p4; p5], before, after, out).

(** * The list as a sorted sequence of values *)

Section Abstract.
Context {E : Type}.

(** [v] put into a list of values in ascending order: after the values
    less than [v], and in the place of the value equal to [v] when there
    is one. *)
Fixpoint sorted_insert (c : @value E → @value E → Z) (v : @value E)
    (l : list (@value E)) : list (@value E) :=
  match l with
  | [] => [v]
  | w :: l' =>
      if c w v =? -1 then w :: sorted_insert c v l'
      else if c w v =? 0 then v :: l'
      else v :: w :: l'
  end.

(** The values kept of [vs], inserted last first. *)
Definition values_of (c : @value E → @value E → Z) (vs : list (@value E))
    : list (@value E) :=
  foldr (sorted_insert c) [] vs.

(** The first value of [l] that is equal to [v]. *)
Fixpoint lookup_equal (c : @value E → @value E → Z) (v : @value E)
    (l : list (@value E)) : option (@value E) :=
  match l with
  | [] => None
  | w :: l' => if c w v =? 0 then Some w else lookup_equal c v l'
  end.

End Abstract.

(** * The tests of the package *)

(** [newInt64SkipList()].  Its comparator converts both arguments to
    int64; the tests hand it int64 values only, on which it is
    [int64_compare]. *)
Definition newInt64SkipList : Result (SkipList Z) := New int64_compare 10.

(** [added[x]] for a [map[int64]bool]: false for a key that is not there. *)
Definition map_get (added : gmap Z bool) (x : Z) : bool :=
  default false (added !! x).

(** The values [nextRandInt64(rng)] returns, in the order of the calls. *)
Definition draws := nat → Z.

Definition draws_tail (d : draws) : draws := fun k => d (S k).

(** What a test reports: no call of [t.Errorf], some call of it, or the
    panic of a failed conversion [i.(int64)]. *)
Inductive verdict := Pass | Fail | Crash.

(** The loop of [TestInsert], with [n] turns left.  A turn that has called
    [t.Errorf] ends the test by [t.Fatalf]. *)
Fixpoint TestInsert_loop (n fuel : nat) (s : SkipList Z)
    (added : gmap Z bool) (d : draws) (rs : rand_source) : Result verdict :=
  match n with
  | O => Ret Pass
  | S n =>
      let x := d O in
      do found <- Contains fuel s (Some x) ;
      let failed1 := negb (Bool.eqb (map_get added x) found) in
      let shouldHavePrev := map_get added x in
      do '(prev, s', rs') <- Insert fuel s (Some x) rs ;
      let hasPrev := match prev with Some _ => true | None => false end in
      let failed2 := negb (Bool.eqb shouldHavePrev hasPrev) in
      let added' := <[x := true]> added in
      do found' <- Contains fuel s' (Some x) ;
      let failed3 := negb found' in
      if failed1 || failed2 || failed3 then Ret Fail
      else TestInsert_loop n fuel s' added' (draws_tail d) rs'
  end.

Definition TestInsert (fuel : nat) (d : draws) (rs : rand_source)
    : Result verdict :=
  do s <- newInt64SkipList ;
  TestInsert_loop 20 fuel s ∅ d rs.

(** The variables the callback of [TestForEach] captures, and
    [t.Failed()]. *)
Record foreach_test := ForeachTest {
  ft_added : gmap Z bool;
  ft_prev : Z;
  ft_count : Z;
  ft_failed : bool
}.

(** [i.(int64)] on a value that is no int64. *)
Inductive conversion_panic := NotInt64.

(** The callback of [TestForEach].  It returns a nil error; the panic of
    the conversion, which ends the iteration as well, takes the place of
    an error here. *)
Definition TestForEach_callback (st : foreach_test) (i : @value Z)
    : foreach_test * option conversion_panic :=
  match i with
  | None => (st, Some NotInt64)
  | Some x =>
      let failed1 := (0 <? ft_count st) && (x <=? ft_prev st) in
      let failed2 := negb (map_get (ft_added st) x) in
      (ForeachTest (delete x (ft_added st)) x (ft_count st + 1)
         (ft_failed st || failed1 || failed2), None)
  end.

(** The first loop of [TestForEach], with [n] turns left. *)
Fixpoint TestForEach_fill (n fuel : nat) (s : SkipList Z)
    (added : gmap Z bool) (d : draws) (rs : rand_source)
    : Result (SkipList Z * gmap Z bool) :=
  match n with
  | O => Ret (s, added)
  | S n =>
      let x := d O in
      do '(_, s', rs') <- Insert fuel s (Some x) rs ;
      TestForEach_fill n fuel s' (<[x := true]> added) (draws_tail d) rs'
  end.

Definition TestForEach (fuel : nat) (d : draws) (rs : rand_source)
    : Result verdict :=
  do s0 <- newInt64SkipList ;
  do '(s, added) <- TestForEach_fill 32 fuel s0 ∅ d rs ;
  let expectedCount := Z.of_nat (size added) in
  do '(st, err) <-
    ForEach fuel s TestForEach_callback (ForeachTest added 0 0 false) ;
  match err with
  | Some _ => Ret Crash
  | None =>
      let failed1 := negb (expectedCount =? ft_count st) in
      let failed2 := 0 <? Z.of_nat (size (ft_added st)) in
      Ret (if ft_failed st || failed1 || failed2 then Fail else Pass)
  end.

(** * The first row of String *)

(** The cell of a value in the first row: [" %v "], filled with spaces to
    [minValueLen] characters. *)
Definition value_cell {E : Type} (fmt_v : @value E → string) (v : @value E)
    : string :=
  let str := " " +:+ fmt_v v +:+ " " in
  if (String.length str <? minValueLen)%nat
  then str +:+ repeat_string " " (minValueLen - String.length str)
  else str.

(** What the tests keep between two turns of their loops: the list is
    built from the values [vs], all of them int64 values, and [added]
    holds true for these and has no other key. *)
Definition test_state (s : SkipList Z) (added : gmap Z bool)
    (vs : list (@value Z)) : Prop :=
  built int64_compare 10 s vs ∧
  (∀ v, v ∈ vs → ∃ x, v = Some x) ∧
  (∀ x, added !! x = if decide (Some x ∈ vs) then Some true else None).

(** The list of 7, 3 and 5, inserted in this order into a list of three
    levels, all with height 1. *)
Definition sample_list_flat : SkipList Z :=
  Mk int64_compare 3 [Some 1%nat; None; None]
    [Node (Some 7) [None];
     Node (Some 3) [Some 2%nat];
     Node (Some 5) [Some 0%nat]].

(** * The rows of the levels in String *)

(** Whether some node of [b] takes part in level [L]. *)
Definition has_level (ht : ptr → nat) (L : nat) (b : list ptr) : bool :=
  match first_above ht L b with Some _ => true | None => false end.

(** A cell of the row of a level, as wide as [curValue] at least:
    [present] tells whether the slice of the column has the level,
    [target] whether its reference at the level is not nil, and
    [incoming] whether a reference of the level reaches the column. *)
Definition level_cell (present target incoming : bool) (curValue : string)
    : string :=
  let '(segment, pad) :=
    if present then
      if target then ((if incoming then ">|-" else " |-"), "-")
      else ((if incoming then ">|nil " else " |nil "), " ")
    else (EmptyString, (if incoming then "-" else " ")) in
  if (String.length segment <? String.length curValue)%nat
  then segment +:+
       repeat_string pad (String.length curValue - String.length segment)
  else segment.

(** The cells of level [L] for the nodes [l], in the widths [cvs]: a node
    of the level is reached by a reference, and refers to the next node
    of the level or to nil; a node below the level is crossed by the
    reference to the next node of the level, if there is one. *)
Fixpoint level_row (ht : ptr → nat) (L : nat) (l : list ptr)
    (cvs : list string) : list string :=
  match l, cvs with
  | p :: b, cv :: cvs' =>
      level_cell (L <? ht p)%nat (has_level ht L b) (has_level ht L (p :: b))
        cv :: level_row ht L b cvs'
  | _, _ => []
  end.

Section Order.
Context {E : Type} (c : @value E → @value E → Z) (Hc : TotalOrder c).

Lemma cmp_refl a : c a a = 0.
Proof.
  destruct (cmp_range c Hc a a) as [H|[H|H]]; [|done|].
  - pose proof (proj1 (cmp_flip c Hc a a) H). lia.
  - pose proof (proj2 (cmp_flip c Hc a a) H). lia.
Qed.

Lemma cmp_eq_sym a b : c a b = 0 → c b a = 0.
Proof.
  intros H. destruct (cmp_range c Hc b a) as [H'|[H'|H']]; [|done|].
  - apply (cmp_flip c Hc) in H'. lia.
  - apply (cmp_flip c Hc) in H'. lia.
Qed.

Lemma cmp_gt_flip a b : c a b = 1 → c b a = -1.
Proof. apply (cmp_flip c Hc). Qed.

Lemma cmp_lt_le_trans a b d : c a b = -1 → c b d ≠ 1 → c a d = -1.
Proof.
  intros Hab Hbd.
  destruct (cmp_range c Hc a d) as [H|[H|H]]; [done| |].
  - exfalso. apply cmp_eq_sym in H.
    apply (cmp_le_trans c Hc b d a); [done|lia|].
    by apply (cmp_flip c Hc).
  - exfalso. apply (cmp_le_trans c Hc a b d); [lia|done|done].
Qed.

Lemma cmp_le_lt_trans a b d : c a b ≠ 1 → c b d = -1 → c a d = -1.
Proof.
  intros Hab Hbd.
  destruct (cmp_range c Hc a d) as [H|[H|H]]; [done| |].
  - exfalso. apply cmp_eq_sym in H.
    apply (cmp_le_trans c Hc d a b); [lia|done|].
    by apply (cmp_flip c Hc).
  - exfalso. apply (cmp_le_trans c Hc a b d); [done|lia|done].
Qed.

Lemma cmp_lt_trans a b d : c a b = -1 → c b d = -1 → c a d = -1.
Proof. intros H1 H2. apply (cmp_lt_le_trans a b d); [done|lia]. Qed.

Lemma cmp_eq_trans a b d : c a b = 0 → c b d = 0 → c a d = 0.
Proof.
  intros H1 H2.
  destruct (cmp_range c Hc a d) as [H|[H|H]]; [|done|].
  - exfalso. pose proof (cmp_le_lt_trans b a d) as H3.
    rewrite (cmp_eq_sym a b H1) in H3. lia.
  - exfalso. apply (cmp_le_trans c Hc a b d); [lia|lia|done].
Qed.

(** [e < x] and [x < y] give [e < y], read from the side of [e]. *)
Lemma cmp_gt_lt a b e : c a e = 1 → c a b = -1 → c b e = 1.
Proof.
  intros H1 H2. apply (cmp_flip c Hc).
  apply (cmp_lt_trans e a b); [by apply cmp_gt_flip|done].
Qed.

End Order.

(** * Lists of nodes by level *)

Section Levels.
Implicit Types (l a b : list ptr) (p q : ptr) (ht : ptr → nat).
Local Open Scope nat_scope.

Lemma first_above_app ht j a b :
  first_above ht j (a ++ b) =
  match first_above ht j a with
  | Some p => Some p
  | None => first_above ht j b
  end.
Proof. induction a as [|p a IH]; simpl; [done|]. by case_decide. Qed.

Lemma first_above_None ht j l :
  first_above ht j l = None ↔ Forall (λ m, ht m ≤ j) l.
Proof.
  induction l as [|p l IH]; simpl.
  - split; [constructor|done].
  - case_decide; split; try done.
    + intros H'. inversion H'; subst. lia.
    + intros H'. constructor; [lia|by apply IH].
    + intros H'. inversion H'; subst. by apply IH.
Qed.

Lemma first_above_Some ht j l y :
  first_above ht j l = Some y →
  ∃ mid l', l = mid ++ y :: l' ∧ j < ht y ∧ Forall (λ m, ht m ≤ j) mid.
Proof.
  induction l as [|p l IH]; simpl; [done|].
  case_decide.
  - intros [= ->]. exists [], l. by split_and!.
  - intros (mid & l' & -> & ? & ?)%IH.
    exists (p :: mid), l'. split_and!; try done. constructor; [lia|done].
Qed.

Lemma first_above_low ht j a b :
  Forall (λ m, ht m ≤ j) a → first_above ht j (a ++ b) = first_above ht j b.
Proof.
  intros H. rewrite first_above_app.
  by rewrite (proj2 (first_above_None ht j a) H).
Qed.

Lemma first_above_ext ht ht' j l :
  Forall (λ m, ht m = ht' m) l → first_above ht j l = first_above ht' j l.
Proof.
  induction 1 as [|p l Hp _ IH]; simpl; [done|]. by rewrite Hp, IH.
Qed.

Lemma first_above_elem ht j l y : first_above ht j l = Some y → y ∈ l ∧ j < ht y.
Proof.
  intros (mid & l' & -> & ? & _)%first_above_Some. split; [|done].
  apply elem_of_app. right. left.
Qed.

Lemma last_ref_snoc a q : last_ref (a ++ [q]) = SNext q.
Proof. unfold last_ref. by rewrite last_snoc. Qed.

Lemma pred_slice_snoc ht j a q :
  pred_slice ht j (a ++ [q]) =
  if decide (j < ht q) then SNext q else pred_slice ht j a.
Proof. unfold pred_slice. by rewrite foldl_app. Qed.

Lemma pred_slice_low ht j a b :
  Forall (λ m, ht m ≤ j) b → pred_slice ht j (a ++ b) = pred_slice ht j a.
Proof.
  unfold pred_slice. rewrite foldl_app.
  generalize (foldl (λ r q, if decide (j < ht q) then SNext q else r) SHead a).
  intros r H. revert r. induction H as [|q b Hq _ IH]; intros r; simpl; [done|].
  rewrite decide_False by lia. apply IH.
Qed.

Lemma pred_slice_cases ht j l :
  (pred_slice ht j l = SHead ∧ Forall (λ m, ht m ≤ j) l) ∨
  (∃ a q b, l = a ++ q :: b ∧ pred_slice ht j l = SNext q ∧
            j < ht q ∧ Forall (λ m, ht m ≤ j) b).
Proof.
  induction l as [|q l IH] using rev_ind.
  - left. split; [done|constructor].
  - rewrite pred_slice_snoc. case_decide.
    + right. exists l, q, []. by split_and!.
    + destruct IH as [[Hh Hl]|(a & q' & b & -> & Hq & ? & Hb)].
      * left. split; [done|]. apply Forall_app. split; [done|].
        constructor; [lia|constructor].
      * right. exists a, q', (b ++ [q]).
        split_and!; try done; [by rewrite <- app_assoc|].
        apply Forall_app. split; [done|].
        constructor; [lia|constructor].
Qed.

End Levels.

(** * Consequences of the invariant *)

Lemma bind_Ret {A B} (m : Result A) (k : A → Result B) r :
  bind m k = Ret r ↔ ∃ a, m = Ret a ∧ k a = Ret r.
Proof.
  destruct m; simpl; split; try done.
  - eauto.
  - by intros (? & [= <-] & ?).
  - by intros (? & ? & _).
  - by intros (? & ? & _).
Qed.

Lemma index_Ret {A} (l : list A) i x : index l i = Ret x ↔ l !! i = Some x.
Proof. unfold index. destruct (l !! i); split; congruence. Qed.

Lemma index_lt {A} (l : list A) i :
  (i < length l)%nat → ∃ x, l !! i = Some x ∧ index l i = Ret x.
Proof.
  intros [x Hx]%lookup_lt_is_Some_2. exists x. split; [done|].
  by apply index_Ret.
Qed.

Section InvFacts.
Context {E : Type}.
Implicit Types (s : SkipList E) (l a b : list ptr) (p q : ptr).
Local Open Scope nat_scope.

Lemma deref_Ret s p nd : deref s p = Ret nd ↔ heap s !! p = Some nd.
Proof. unfold deref. destruct (heap s !! p); split; congruence. Qed.

Lemma slice_SNext s p nd : heap s !! p = Some nd → slice s (SNext p) = Ret (next nd).
Proof. intros H. simpl. unfold deref. by rewrite H. Qed.

Lemma height_lookup s p nd : heap s !! p = Some nd → height s p = length (next nd).
Proof. intros H. unfold height. by rewrite H. Qed.

Lemma valof_lookup s p nd : heap s !! p = Some nd → valof s p = val nd.
Proof. intros H. unfold valof. by rewrite H. Qed.

Lemma inv_elem s l p : Inv s l → p ∈ l ↔ p < length (heap s).
Proof.
  intros H. rewrite (inv_perm s l H). rewrite elem_of_seq. lia.
Qed.

Lemma inv_NoDup s l : Inv s l → NoDup l.
Proof. intros H. rewrite (inv_perm s l H). apply NoDup_seq. Qed.

Lemma inv_length s l : Inv s l → length l = length (heap s).
Proof. intros H. rewrite (inv_perm s l H). apply length_seq. Qed.

(** The node after [a] links to the rest [b]. *)
Lemma inv_node s l a p b :
  Inv s l → l = a ++ p :: b →
  ∃ nd, heap s !! p = Some nd ∧ slice_ok s (a ++ [p]) b (next nd).
Proof.
  intros H ->.
  destruct (inv_links s _ H (a ++ [p]) b) as (sl & Hsl & Hok).
  { by rewrite <- app_assoc. }
  rewrite last_ref_snoc in Hsl. simpl in Hsl.
  apply bind_Ret in Hsl as (nd & Hnd%deref_Ret & [= <-]). eauto.
Qed.

Lemma inv_height s l p :
  Inv s l → p ∈ l →
  ∃ nd, heap s !! p = Some nd ∧ 1 ≤ height s p ≤ levels s ∧
        valof s p = val nd ∧ height s p = length (next nd).
Proof.
  intros H (a & b & ->)%list_elem_of_split.
  destruct (inv_node s _ a p b H eq_refl) as (nd & Hnd & Hle & _ & Hpos & _).
  exists nd. rewrite (height_lookup s p nd Hnd), (valof_lookup s p nd Hnd).
  split_and!; try done. apply Hpos. by destruct a.
Qed.

Lemma inv_head s l :
  Inv s l → length (head s) = levels s ∧
  ∀ j, j < levels s → head s !! j = Some (first_above (height s) j l).
Proof.
  intros H. destruct (inv_links s l H [] l eq_refl) as (sl & [= <-] & Hok).
  destruct Hok as (_ & Hlen & _ & Hj). specialize (Hlen eq_refl).
  split; [done|]. intros j ?. apply Hj. lia.
Qed.

(** With every node at level 0, the first node at level 0 is the first. *)
Lemma inv_first0 s l a b :
  Inv s l → l = a ++ b → first_above (height s) 0 b = hd_error b.
Proof.
  intros H ->. destruct b as [|p b]; simpl; [done|].
  destruct (inv_height s _ p H) as (_ & _ & ? & _).
  { apply elem_of_app. right. left. }
  rewrite decide_True; [done|lia].
Qed.

End InvFacts.

(** * The search of Insert *)

Section Search.
Context {E : Type}.
Implicit Types (l a b pre suf mid : list ptr) (p q : ptr).
Local Open Scope nat_scope.

Variables (s : SkipList E) (l : list ptr) (elem : @value E).
Hypothesis HInv : Inv s l.
Hypothesis Hc : TotalOrder (Compare s).

Local Abbreviation lt_elem := (lt_elem s elem).
Local Abbreviation gt_elem := (gt_elem s elem).
Local Abbreviation wide := (wide s).

Lemma last_ref_pred pre i :
  wide (last_ref pre) i → pred_slice (height s) i pre = last_ref pre.
Proof.
  intros (sl & Hsl & Hi).
  destruct pre as [|q pre _] using rev_ind; [done|].
  rewrite last_ref_snoc in *. rewrite pred_slice_snoc.
  simpl in Hsl. apply bind_Ret in Hsl as (nd & Hnd%deref_Ret & [= <-]).
  rewrite (height_lookup s q nd Hnd). by rewrite decide_True.
Qed.

Lemma sorted_before pre mid y suf x :
  l = pre ++ mid ++ y :: suf → x ∈ mid → ltp s x y.
Proof.
  intros Hl Hx. pose proof (inv_sorted s l HInv) as Hs. rewrite Hl in Hs.
  apply StronglySorted_app_1_r in Hs.
  eapply StronglySorted_app_1_elem_of; [done|done|left].
Qed.

Lemma sorted_after pre y suf x :
  l = pre ++ y :: suf → x ∈ suf → ltp s y x.
Proof.
  intros Hl Hx. pose proof (inv_sorted s l HInv) as Hs. rewrite Hl in Hs.
  apply StronglySorted_app_1_r in Hs.
  apply StronglySorted_cons in Hs as [Hs _].
  by eapply Forall_forall in Hs.
Qed.

Lemma lt_gt_elem x : lt_elem x → gt_elem x → False.
Proof. unfold lt_elem, gt_elem. lia. Qed.

Lemma insert_inner_spec i : ∀ fuel pre suf updates,
  l = pre ++ suf → Forall lt_elem pre → wide (last_ref pre) i →
  i < length updates → length suf < fuel →
  (∃ y nd, y ∈ suf ∧ heap s !! y = Some nd ∧
     Compare s (val nd) elem = 0%Z ∧
     insert_inner fuel s elem i (last_ref pre) updates =
       Ret (inr (val nd, set_heap s (<[y := Node elem (next nd)]> (heap s)))))
  ∨
  (∃ mid suf', suf = mid ++ suf' ∧ Forall lt_elem mid ∧
     wide (last_ref (pre ++ mid)) i ∧
     (∀ x, x ∈ suf' → i < height s x → gt_elem x) ∧
     insert_inner fuel s elem i (last_ref pre) updates =
       Ret (inl (last_ref (pre ++ mid),
                 <[i := Some (last_ref (pre ++ mid), i)]> updates))).
Proof.
  induction fuel as [|fuel IH]; intros pre suf updates Hl Hpre Hw Hu Hfuel;
    [lia|].
  destruct (inv_links s l HInv pre suf Hl) as (sl & Hsl & Hok).
  destruct Hw as (sl' & Hsl' & Hi).
  assert (sl' = sl) as -> by congruence.
  destruct Hok as (_ & _ & _ & Hlinks). specialize (Hlinks i Hi).
  apply index_Ret in Hlinks.
  destruct (index_lt updates i Hu) as (u & _ & Hidx).
  destruct (first_above (height s) i suf) as [y|] eqn:Hfa.
  - apply first_above_Some in Hfa as (m & suf'' & -> & Hy & Hm).
    destruct (inv_height s l y HInv) as (nd & Hnd & _ & Hval & Hht).
    { rewrite Hl. rewrite !elem_of_app. right. right. left. }
    destruct (cmp_range _ Hc (valof s y) elem) as [Hlt|[Heq|Hgt]].
    + assert (insert_inner (S fuel) s elem i (last_ref pre) updates =
              insert_inner fuel s elem i (last_ref ((pre ++ m) ++ [y])) updates)
        as Hstep.
      { simpl. rewrite Hsl. simpl. rewrite Hlinks. simpl.
        unfold deref. rewrite Hnd. simpl. rewrite <- Hval, Hlt. simpl.
        by rewrite last_ref_snoc. }
      rewrite Hstep.
      assert (Forall lt_elem m) as Hmlt.
      { apply Forall_forall. intros x Hx.
        eapply (cmp_lt_trans _ Hc); [|exact Hlt].
        by eapply (sorted_before pre m y suf''). }
      destruct (IH ((pre ++ m) ++ [y]) suf'' updates) as
        [(y' & nd' & Hy' & Hnd' & Hc' & Hrun)
        |(mid & suf' & -> & Hmid & Hw' & Hgt & Hrun)].
      * rewrite Hl. by rewrite <- !app_assoc.
      * rewrite !Forall_app. split_and!; [done|done|by repeat constructor].
      * rewrite last_ref_snoc. exists (next nd).
        split; [by apply slice_SNext|lia].
      * done.
      * rewrite length_app in Hfuel. simpl in Hfuel. lia.
      * left. exists y', nd'. split_and!; try done.
        rewrite elem_of_app. right. by right.
      * right. exists (m ++ y :: mid), suf'.
        assert (pre ++ m ++ y :: mid = ((pre ++ m) ++ [y]) ++ mid) as ->.
        { by rewrite <- !app_assoc. }
        split_and!; try done.
        -- by rewrite <- app_assoc.
        -- rewrite Forall_app. split; [done|by constructor].
    + left. exists y, nd. split_and!; try done.
      * rewrite elem_of_app. right. left.
      * by rewrite <- Hval.
      * simpl. rewrite Hsl. simpl. rewrite Hlinks. simpl.
        unfold deref. rewrite Hnd. simpl. rewrite <- Hval, Heq. simpl.
        unfold write_val, deref. rewrite Hnd. simpl. by rewrite Hval.
    + right. exists [], (m ++ y :: suf''). rewrite app_nil_r.
      split_and!; try done.
      * exists sl. split; [done|lia].
      * intros x [Hx|Hx]%elem_of_app Hhx.
        -- eapply Forall_forall in Hm; [|done]. simpl in Hm. lia.
        -- apply elem_of_cons in Hx as [->|Hx]; [done|].
           eapply (cmp_gt_lt _ Hc); [exact Hgt|].
           eapply (sorted_after (pre ++ m) y suf''); [|done].
           by rewrite <- app_assoc.
      * simpl. rewrite Hsl. simpl. rewrite Hlinks. simpl.
        unfold deref. rewrite Hnd. simpl. rewrite <- Hval, Hgt. simpl.
        by rewrite Hidx.
  - right. exists [], suf. rewrite app_nil_r.
    split_and!; try done.
    + exists sl. split; [done|lia].
    + intros x Hx Hhx. apply first_above_None in Hfa.
      eapply Forall_forall in Hfa; [|done]. simpl in Hfa. lia.
    + simpl. rewrite Hsl. simpl. rewrite Hlinks. simpl. by rewrite Hidx.
Qed.


Lemma insert_outer_spec : ∀ k fuel pre suf updates,
  l = pre ++ suf → Forall lt_elem pre →
  (∃ sl, slice s (last_ref pre) = Ret sl ∧ k ≤ length sl) →
  length updates = levels s → k ≤ levels s → length suf < fuel →
  (∀ x, x ∈ suf → k < height s x → gt_elem x) →
  (∀ j, k ≤ j < levels s →
        updates !! j = Some (Some (pred_slice (height s) j pre, j))) →
  (∃ y nd, y ∈ suf ∧ heap s !! y = Some nd ∧
     Compare s (val nd) elem = 0%Z ∧
     insert_outer fuel s elem k (last_ref pre) updates =
       Ret (inr (val nd, set_heap s (<[y := Node elem (next nd)]> (heap s)))))
  ∨
  (∃ mid suf' updates', suf = mid ++ suf' ∧ Forall lt_elem mid ∧
     (∀ x, x ∈ suf' → 0 < height s x → gt_elem x) ∧
     length updates' = levels s ∧
     (∀ j, j < levels s →
        updates' !! j =
          Some (Some (pred_slice (height s) j (pre ++ mid), j))) ∧
     insert_outer fuel s elem k (last_ref pre) updates =
       Ret (inl (last_ref (pre ++ mid), updates'))).
Proof.
  induction k as [|i IH];
    intros fuel pre suf updates Hl Hpre Hw Hlen Hk Hfuel Hgt Hupd.
  - right. exists [], suf, updates. rewrite app_nil_r.
    split_and!; try done. intros j ?. apply Hupd. lia.
  - destruct Hw as (sl & Hsl & Hi).
    destruct (insert_inner_spec i fuel pre suf updates) as
      [(y & nd & Hy & Hnd & Hc' & Hrun)
      |(mid & suf' & Hsuf & Hmid & Hw' & Hgt' & Hrun)]; try done.
    { exists sl. split; [done|lia]. }
    { lia. }
    + left. exists y, nd. split_and!; try done.
      simpl. by rewrite Hrun.
    + assert (∀ x, x ∈ mid → height s x ≤ S i) as Hlow.
      { intros x Hx. destruct (decide (S i < height s x)) as [Hh|]; [|lia].
        exfalso. apply (lt_gt_elem x).
        - by eapply Forall_forall in Hmid.
        - apply Hgt; [|done]. rewrite Hsuf, elem_of_app. by left. }
      destruct (IH fuel (pre ++ mid) suf'
                  (<[i := Some (last_ref (pre ++ mid), i)]> updates))
        as [(y & nd & Hy & Hnd & Hc' & Hrun')
           |(mid' & suf'' & updates' & Hsuf' & Hmid' & Hgt'' & Hlen' & Hupd'
             & Hrun')].
      * rewrite Hl, Hsuf. by rewrite app_assoc.
      * rewrite Forall_app. by split.
      * destruct Hw' as (sl' & ? & ?). exists sl'. split; [done|lia].
      * by rewrite length_insert.
      * lia.
      * rewrite Hsuf, length_app in Hfuel. lia.
      * done.
      * intros j Hj. destruct (decide (j = i)) as [->|Hne].
        -- rewrite list_lookup_insert_eq by lia.
           by rewrite (last_ref_pred _ _ Hw').
        -- rewrite list_lookup_insert_ne by done.
           rewrite Hupd by lia. rewrite pred_slice_low; [done|].
           apply Forall_forall. intros x Hx. specialize (Hlow x Hx). lia.
      * left. exists y, nd. split_and!; try done.
        -- rewrite Hsuf, elem_of_app. by right.
        -- simpl. rewrite Hrun. simpl. exact Hrun'.
      * right. exists (mid ++ mid'), suf'', updates'.
        rewrite (app_assoc pre mid mid').
        split_and!; try done.
        -- rewrite Hsuf, Hsuf'. by rewrite app_assoc.
        -- rewrite Forall_app. by split.
        -- simpl. rewrite Hrun. simpl. exact Hrun'.
Qed.

End Search.

(** * What the search of Insert finds *)

Section SearchResult.
Context {E : Type}.
Implicit Types (s : SkipList E) (l a b pre suf mid : list ptr) (p q : ptr).
Local Open Scope nat_scope.

Lemma insert_search_spec s l elem fuel :
  Inv s l → TotalOrder (Compare s) → length l < fuel →
  (∃ y nd, y ∈ l ∧ heap s !! y = Some nd ∧
     Compare s (val nd) elem = 0%Z ∧
     insert_outer fuel s elem (levels s) SHead (replicate (levels s) None) =
       Ret (inr (val nd, set_heap s (<[y := Node elem (next nd)]> (heap s)))))
  ∨
  (∃ pre suf updates, l = pre ++ suf ∧
     Forall (lt_elem s elem) pre ∧ Forall (gt_elem s elem) suf ∧
     length updates = levels s ∧
     (∀ j, j < levels s →
        updates !! j = Some (Some (pred_slice (height s) j pre, j))) ∧
     insert_outer fuel s elem (levels s) SHead (replicate (levels s) None) =
       Ret (inl (last_ref pre, updates))).
Proof.
  intros HInv Hc Hfuel.
  destruct (inv_head s l HInv) as [Hlen _].
  destruct (insert_outer_spec s l elem HInv Hc (levels s) fuel [] l
              (replicate (levels s) None))
    as [(y & nd & ? & ? & ? & ?)
       |(mid & suf & updates & -> & Hmid & Hgt & Hlen' & Hupd & Hrun)];
    try done.
  - exists (head s). split; [done|lia].
  - by rewrite length_replicate.
  - intros x Hx Hh. destruct (inv_height s l x HInv Hx) as (_ & _ & ? & _). lia.
  - intros j ?. lia.
  - left. by exists y, nd.
  - right. exists mid, suf, updates. split_and!; try done.
    apply Forall_forall. intros x Hx. apply Hgt; [done|].
    destruct (inv_height s (mid ++ suf) x HInv) as (_ & _ & ? & _); [|lia].
    rewrite elem_of_app. by right.
Qed.

(** ** Updating a node with an equal value *)

Lemma first_above_same ht ht' j l :
  (∀ m, ht m = ht' m) → first_above ht j l = first_above ht' j l.
Proof. intros H. apply first_above_ext. apply Forall_forall. auto. Qed.

Lemma StronglySorted_weaken {A} (R R' : A → A → Prop) (l : list A) :
  (∀ x y, x ∈ l → y ∈ l → R x y → R' x y) →
  StronglySorted R l → StronglySorted R' l.
Proof.
  intros HR Hs. induction Hs as [|x l Hs IH Hx]; constructor.
  - apply IH. intros y z ? ?. apply HR; by right.
  - apply Forall_forall. intros y Hy. apply HR; [left|by right|].
    by eapply Forall_forall in Hx.
Qed.

Lemma update_Inv s l y nd elem :
  Inv s l → TotalOrder (Compare s) →
  heap s !! y = Some nd → Compare s (val nd) elem = 0%Z →
  Inv (set_heap s (<[y := Node elem (next nd)]> (heap s))) l.
Proof.
  intros HInv Hc Hnd Heq.
  set (s' := set_heap s _).
  assert (y < length (heap s)) as Hy by by eapply lookup_lt_Some.
  assert (∀ q, heap s' !! q =
               if decide (q = y) then Some (Node elem (next nd))
               else heap s !! q) as Hheap.
  { intros q. simpl. case_decide as Hq.
    - subst q. by apply list_lookup_insert_eq.
    - by apply list_lookup_insert_ne. }
  assert (∀ q, height s' q = height s q) as Hht.
  { intros q. unfold height. rewrite Hheap.
    destruct (decide (q = y)) as [->|]; [|done]. by rewrite Hnd. }
  assert (∀ r, slice s' r = slice s r) as Hslice.
  { intros [|q]; [done|]. unfold slice, deref. rewrite Hheap.
    destruct (decide (q = y)) as [->|]; [|done]. by rewrite Hnd. }
  assert (∀ q, valof s' q = if decide (q = y) then elem else valof s q) as Hval.
  { intros q. unfold valof. rewrite Hheap. by case_decide. }
  assert (valof s y = val nd) as Hvy by by apply valof_lookup.
  split.
  - apply (inv_max s l HInv).
  - intros a b Hab. destruct (inv_links s l HInv a b Hab) as (sl & Hsl & Hok).
    exists sl. rewrite Hslice. split; [done|].
    destruct Hok as (? & ? & ? & Hj). split_and!; try done.
    intros j ?. rewrite Hj by done.
    by rewrite (first_above_same (height s') (height s)).
  - eapply StronglySorted_weaken; [|apply (inv_sorted s l HInv)].
    intros p q _ _. unfold ltp. rewrite !Hval. simpl. intros Hpq.
    repeat case_decide; subst.
    + rewrite (cmp_refl _ Hc) in Hpq. lia.
    + eapply (cmp_le_lt_trans _ Hc); [|exact Hpq].
      rewrite Hvy. rewrite (cmp_eq_sym _ Hc _ _ Heq). lia.
    + eapply (cmp_lt_le_trans _ Hc); [exact Hpq|].
      rewrite Hvy, Heq. lia.
    + done.
  - simpl. rewrite length_insert. apply (inv_perm s l HInv).
Qed.

End SearchResult.

(** * Linking a new node *)

Section Slots.
Context {E : Type}.
Implicit Types (s t : SkipList E) (l a b pre suf mid : list ptr) (p q : ptr).
Local Open Scope nat_scope.

Lemma slice_Ret t r sl :
  slice t r = Ret sl ↔
  match r with
  | SHead => head t = sl
  | SNext q => ∃ nd, heap t !! q = Some nd ∧ next nd = sl
  end.
Proof.
  destruct r as [|q]; simpl.
  - split; congruence.
  - unfold deref. destruct (heap t !! q) as [nd|]; simpl; split.
    + intros [= <-]. eauto.
    + by intros (? & [= <-] & <-).
    + done.
    + by intros (? & ? & _).
Qed.

Lemma slice_height t q sl : slice t (SNext q) = Ret sl → height t q = length sl.
Proof.
  intros (nd & Hnd & <-)%slice_Ret. by apply height_lookup.
Qed.

Lemma slice_lt t q sl : slice t (SNext q) = Ret sl → q < length (heap t).
Proof. intros (nd & Hnd & _)%slice_Ret. by eapply lookup_lt_Some. Qed.

Lemma write_slot_spec t r j v sl :
  slice t r = Ret sl → j < length sl →
  ∃ t', write_slot t (r, j) v = Ret t' ∧
    Compare t' = Compare t ∧ maxLevel t' = maxLevel t ∧
    length (heap t') = length (heap t) ∧
    (∀ q, valof t' q = valof t q) ∧
    slice t' r = Ret (<[j := v]> sl) ∧
    (∀ r', r' ≠ r → slice t' r' = slice t r').
Proof.
  intros Hsl Hj. destruct r as [|p].
  - apply slice_Ret in Hsl. subst sl.
    destruct (index_lt (head t) j Hj) as (x & _ & Hx).
    eexists. unfold write_slot. simpl. rewrite Hx. simpl.
    split_and!; try done. by intros [|q] ?.
  - apply slice_Ret in Hsl as (nd & Hnd & <-).
    destruct (index_lt (next nd) j Hj) as (x & _ & Hx).
    assert (p < length (heap t)) by by eapply lookup_lt_Some.
    eexists. unfold write_slot. simpl. unfold deref. rewrite Hnd. simpl.
    rewrite Hx. simpl. split_and!; try done.
    + simpl. by rewrite length_insert.
    + intros q. unfold valof. simpl. destruct (decide (q = p)) as [->|].
      * rewrite list_lookup_insert_eq by done. by rewrite Hnd.
      * by rewrite list_lookup_insert_ne.
    + simpl. by rewrite list_lookup_insert_eq.
    + intros [|q] Hne; [done|]. simpl. unfold deref. simpl.
      rewrite list_lookup_insert_ne; [done|congruence].
Qed.

Lemma pred_slice_app_in (ht : ptr → nat) j a k :
  (∃ y, y ∈ k ∧ j < ht y) →
  ∃ z, z ∈ k ∧ pred_slice ht j (a ++ k) = SNext z.
Proof.
  induction k as [|x k IH] using rev_ind; intros (y & Hy & Hh).
  - by apply elem_of_nil in Hy.
  - rewrite app_assoc, pred_slice_snoc. case_decide.
    + exists x. split; [|done]. rewrite elem_of_app. right. left.
    + destruct IH as (z & Hz & Hp).
      { exists y. split; [|done].
        apply elem_of_app in Hy as [Hy|Hy%list_elem_of_singleton]; [done|].
        subst. lia. }
      exists z. split; [|done]. rewrite elem_of_app. by left.
Qed.

End Slots.

(** * The loop that links the new node *)

Section Linked.
Context {E : Type}.
Local Open Scope nat_scope.

Variables (s : SkipList E) (elem : @value E).
Variables (R : nat) (updates : list (option slot)).

(** The search has recorded, at each level below [R], a slot of that level
    in a slice of [s]. *)
Hypothesis Hslots : ∀ j, j < R →
  ∃ r sl, updates !! j = Some (Some (r, j)) ∧
          slice s r = Ret sl ∧ j < length sl.

Local Abbreviation n := (length (heap s)).

Lemma linked_init :
  linked s updates elem R n 0
    (set_heap s (heap s ++ [Node elem (replicate R None)])).
Proof.
  unfold linked. split_and!.
  - done.
  - done.
  - cbn [heap set_heap]. rewrite length_app. simpl. lia.
  - intros q Hq. unfold valof. cbn [heap set_heap]. by rewrite lookup_app_l.
  - unfold valof. cbn [heap set_heap]. by rewrite list_lookup_middle.
  - intros r sl Hsl. exists sl. split_and!; [|done|].
    + destruct r as [|q]; [done|].
      apply slice_Ret in Hsl as (nd & Hnd & <-). apply slice_Ret.
      exists nd. split; [|done]. cbn [heap set_heap].
      by apply lookup_app_l_Some.
    + intros j _. rewrite decide_False; [done|]. intros []. lia.
  - exists (replicate R None). split_and!.
    + apply slice_Ret. exists (Node elem (replicate R None)).
      split; [|done]. cbn [heap set_heap]. by apply list_lookup_middle.
    + by rewrite length_replicate.
    + intros j ?. rewrite decide_False by lia. by apply lookup_replicate_2.
Qed.

Lemma linked_step i t :
  linked s updates elem R n i t → i < R →
  ∃ t', (∀ cnt, splice t n updates i (S cnt) = splice t' n updates (S i) cnt) ∧
        linked s updates elem R n (S i) t'.
Proof.
  intros (HC & HM & Hlen & Hvold & Hvnew & Hold & (sln & Hsln & Hlenn & Hnew)) Hi.
  destruct (Hslots i Hi) as (r & sl0 & Hu & Hsl0 & Hi0).
  destruct (lookup_lt_is_Some_2 sl0 i Hi0) as [old Hv].
  assert (r ≠ SNext n) as Hne.
  { intros ->. apply slice_lt in Hsl0. lia. }
  assert (old_of s updates i = Some old) as Hold_i.
  { unfold old_of, read_slot, index. rewrite Hu. cbn [fst snd].
    rewrite Hsl0. cbn [bind]. by rewrite Hv. }
  destruct (Hold r sl0 Hsl0) as (sl' & Hsl' & Hlen' & Hent').
  assert (sl' !! i = Some old) as Hread.
  { rewrite Hent' by done. rewrite decide_False; [done|]. intros []. lia. }
  destruct (write_slot_spec t (SNext n) i old sln)
    as (t1 & Hw1 & HC1 & HM1 & Hlen1 & Hval1 & Hsl1 & Hoth1); [done|lia|].
  destruct (write_slot_spec t1 r i (Some n) sl')
    as (t2 & Hw2 & HC2 & HM2 & Hlen2 & Hval2 & Hsl2 & Hoth2).
  { by rewrite Hoth1. }
  { lia. }
  exists t2. split.
  - intros cnt. cbn [splice]. unfold index at 1. rewrite Hu. cbn [bind].
    unfold read_slot, index. cbn [fst snd]. rewrite Hsl'. cbn [bind].
    rewrite Hread. cbn [bind]. rewrite Hw1. cbn [bind]. by rewrite Hw2.
  - unfold linked. split_and!.
    + congruence.
    + congruence.
    + congruence.
    + intros q Hq. rewrite Hval2, Hval1. by apply Hvold.
    + by rewrite Hval2, Hval1.
    + intros r0 sl Hsl.
      destruct (Hold r0 sl Hsl) as (sl0' & Hsl0' & Hlen0' & Hent0').
      destruct (decide (r0 = r)) as [->|Hr0].
      * assert (sl0' = sl') as -> by congruence.
        exists (<[i := Some n]> sl'). split_and!.
        -- done.
        -- by rewrite length_insert.
        -- intros j Hj. destruct (decide (j = i)) as [->|Hji].
           ++ rewrite list_lookup_insert_eq by lia.
              by rewrite decide_True by (split; [lia|done]).
           ++ rewrite list_lookup_insert_ne by done.
              rewrite Hent0' by done.
              destruct (decide (j < i ∧ updates !! j = Some (Some (r, j))))
                as [[]|Hd].
              ** by rewrite decide_True by (split; [lia|done]).
              ** rewrite decide_False; [done|]. intros []. apply Hd.
                 split; [lia|done].
      * exists sl0'. split_and!.
        -- rewrite Hoth2 by done. rewrite Hoth1; [done|].
           intros ->. apply slice_lt in Hsl. lia.
        -- done.
        -- intros j Hj. rewrite Hent0' by done.
           destruct (decide (j < i ∧ updates !! j = Some (Some (r0, j))))
             as [[]|Hd].
           ++ by rewrite decide_True by (split; [lia|done]).
           ++ rewrite decide_False; [done|]. intros [? Hp]. apply Hd.
              split; [|done]. destruct (decide (j = i)) as [->|]; [|lia].
              destruct Hr0. congruence.
    + exists (<[i := old]> sln). split_and!.
      * by rewrite Hoth2.
      * by rewrite length_insert.
      * intros j Hj. destruct (decide (j = i)) as [->|Hji].
        -- rewrite list_lookup_insert_eq by lia.
           by rewrite decide_True by lia.
        -- rewrite list_lookup_insert_ne by done. rewrite Hnew by done.
           destruct (decide (j < i)).
           ++ by rewrite decide_True by lia.
           ++ by rewrite decide_False by lia.
Qed.

Lemma splice_linked : ∀ cnt i t,
  linked s updates elem R n i t → i + cnt = R →
  ∃ t', splice t n updates i cnt = Ret t' ∧ linked s updates elem R n R t'.
Proof.
  induction cnt as [|cnt IH]; intros i t Ht Hcnt.
  - exists t. split; [done|]. by assert (i = R) as <- by lia.
  - destruct (linked_step i t Ht) as (t' & Hstep & Ht'); [lia|].
    destruct (IH (S i) t' Ht') as (t'' & Hrun & Ht''); [lia|].
    exists t''. split; [|done]. by rewrite Hstep.
Qed.

(** The whole loop, from the state with the new node allocated. *)
Lemma splice_new :
  ∃ t, splice (set_heap s (heap s ++ [Node elem (replicate R None)]))
         n updates 0 R = Ret t ∧
       linked s updates elem R n R t.
Proof. apply splice_linked; [apply linked_init|done]. Qed.

End Linked.

Section Splice.
Context {E : Type}.
Local Open Scope nat_scope.

Variables (s : SkipList E) (l pre suf : list ptr) (elem : @value E).
Variables (R : nat) (updates : list (option slot)).
Hypothesis HInv : Inv s l.
Hypothesis Hc : TotalOrder (Compare s).
Hypothesis Hl : l = pre ++ suf.
Hypothesis Hpre : Forall (lt_elem s elem) pre.
Hypothesis Hsuf : Forall (gt_elem s elem) suf.
Hypothesis HR : 1 ≤ R ≤ levels s.
Hypothesis Hupd : ∀ j, j < levels s →
  updates !! j = Some (Some (pred_slice (height s) j pre, j)).

Local Abbreviation n := (length (heap s)).
Local Abbreviation ht := (height s).

(** The slot recorded at level [i] exists and holds the first node at
    level [i] after the place of insertion. *)
Lemma pred_slot_old i :
  i < levels s →
  ∃ sl, slice s (pred_slice ht i pre) = Ret sl ∧ i < length sl ∧
        sl !! i = Some (first_above ht i suf) ∧
        pred_slice ht i pre ≠ SNext n.
Proof.
  intros Hi.
  destruct (pred_slice_cases ht i pre)
    as [[Hp Hlow]|(a & q & b & Hpre' & Hp & Hq & Hlow)]; rewrite Hp.
  - destruct (inv_head s l HInv) as [Hlen Hhd].
    exists (head s). split_and!; try done; [lia|].
    rewrite Hhd by done. by rewrite Hl, first_above_low.
  - destruct (inv_node s l a q (b ++ suf) HInv) as (nd & Hnd & Hok).
    { rewrite Hl, Hpre'. by rewrite <- app_assoc. }
    destruct Hok as (_ & _ & _ & Hj).
    rewrite (height_lookup s q nd Hnd) in Hq.
    exists (next nd). split_and!.
    + by apply slice_SNext.
    + done.
    + rewrite Hj by done. by rewrite first_above_low.
    + intros [= ->]. apply lookup_lt_Some in Hnd. lia.
Qed.

(** The loop of [Insert] links the new node between [pre] and [suf]. *)
Lemma splice_run :
  ∃ t, splice (set_heap s (heap s ++ [Node elem (replicate R None)]))
         n updates 0 R = Ret t ∧
       linked s updates elem R n R t ∧
       spliced s pre suf elem R n R t.
Proof.
  destruct (splice_new s elem R updates) as (t & Hrun & Ht).
  { intros j Hj. destruct (pred_slot_old j) as (sl & Hsl & Hlt & _); [lia|].
    exists (pred_slice ht j pre), sl. split_and!; try done. apply Hupd. lia. }
  exists t. split_and!; try done.
  destruct Ht as (HC & HM & Hlen & Hvold & Hvnew & Hold & (sln & Hsln & Hlenn & Hnew)).
  unfold spliced. split_and!; try done.
  - intros r sl Hsl. destruct (Hold r sl Hsl) as (sl' & Hsl' & Hlen' & Hent).
    exists sl'. split_and!; try done. intros j Hj. rewrite Hent by done.
    destruct (decide (j < R ∧ pred_slice ht j pre = r)) as [[? <-]|Hd].
    + rewrite decide_True; [done|]. split; [done|]. apply Hupd. lia.
    + rewrite decide_False; [done|]. intros [? Hu]. apply Hd. split; [done|].
      rewrite Hupd in Hu by lia. congruence.
  - exists sln. split_and!; try done. intros j Hj. rewrite Hnew by done.
    rewrite !decide_True by done.
    destruct (pred_slot_old j) as (sl & Hsl & Hlt & Hv & _); [lia|].
    unfold old_of, read_slot, index. rewrite Hupd by lia. cbn [fst snd].
    rewrite Hsl. cbn [bind]. by rewrite Hv.
Qed.

Lemma spliced_Inv t :
  spliced s pre suf elem R n R t → Inv t (pre ++ n :: suf).
Proof.
  intros (HC & HM & Hlen & Hvold & Hvnew & Hold & (sln & Hsln & Hlenn & Hnew)).
  assert (levels t = levels s) as Hlev by (unfold levels; congruence).
  assert (∀ x, x ∈ l → x < n) as Hin by (intros x; by apply (inv_elem s l x HInv)).
  assert (∀ q, q < n → height t q = ht q) as Hhold.
  { intros q [nd Hnd]%lookup_lt_is_Some.
    destruct (Hold (SNext q) (next nd)) as (sl' & Hsl' & Hlen' & _).
    { by apply slice_SNext. }
    rewrite (slice_height t q sl' Hsl'), Hlen'. symmetry.
    by apply height_lookup. }
  assert (height t n = R) as Hhnew.
  { by rewrite (slice_height t n sln Hsln). }
  assert (∀ j b, (∀ x, x ∈ b → x ∈ l) →
                 first_above (height t) j b = first_above ht j b) as Hfa.
  { intros j b Hb. apply first_above_ext, Forall_forall.
    intros x Hx. apply Hhold, Hin, Hb, Hx. }
  assert (NoDup (pre ++ suf)) as HND.
  { rewrite <- Hl. by apply (inv_NoDup s). }
  assert (∀ a k, pre = a ++ k →
            ∃ sl', slice t (last_ref a) = Ret sl' ∧
                   slice_ok t a (k ++ n :: suf) sl') as Hbefore.
  { intros a k Hak.
    destruct (inv_links s l HInv a (k ++ suf)) as (sl & Hsl & Hok).
    { rewrite Hl, Hak. by rewrite <- app_assoc. }
    destruct Hok as (Hle & Hemp & Hnem & Hj).
    destruct (Hold _ sl Hsl) as (sl' & Hsl' & Hlen' & Hent).
    exists sl'. split; [done|]. unfold slice_ok. rewrite Hlen', Hlev.
    split_and!; try done.
    intros j Hjlt. rewrite Hent by done.
    rewrite first_above_app. rewrite (Hfa j k).
    2:{ intros x Hx. rewrite Hl, Hak, !elem_of_app. left. by right. }
    destruct (first_above ht j k) as [y|] eqn:Hk.
    - rewrite decide_False.
      { rewrite Hj by done. by rewrite first_above_app, Hk. }
      intros [_ Hp]. apply first_above_elem in Hk as [Hyk Hyh].
      destruct (pred_slice_app_in ht j a k) as (z & Hz & Hpz); [by eauto|].
      rewrite Hak, Hpz in Hp. unfold last_ref in Hp.
      destruct (last a) as [q|] eqn:Hq; [|done]. injection Hp as ->.
      apply last_Some_elem_of in Hq.
      rewrite Hak in HND. apply NoDup_app in HND as [HND _].
      apply NoDup_app in HND as (_ & HND & _). by apply (HND q).
    - apply first_above_None in Hk.
      assert (pred_slice ht j pre = last_ref a) as Hp.
      { rewrite Hak, pred_slice_low by done. apply (last_ref_pred s).
        exists sl. split; [done|lia]. }
      simpl. rewrite Hhnew. destruct (decide (j < R)).
      + by rewrite decide_True by done.
      + rewrite decide_False by (intros []; lia).
        rewrite Hj by done. rewrite first_above_low by done.
        rewrite Hfa; [done|]. intros x Hx. rewrite Hl, elem_of_app. by right. }
  split.
  - rewrite HM. apply (inv_max s l HInv).
  - intros a b Hab. symmetry in Hab.
    apply app_eq_inv in Hab as [(k & -> & Hk)|(k & Hpre' & ->)].
    + destruct k as [|n' k]; simpl in Hk.
      * subst b. rewrite app_nil_r. apply (Hbefore pre []). by rewrite app_nil_r.
      * injection Hk as <- ->.
        destruct k as [|q k _] using rev_ind.
        -- rewrite last_ref_snoc. exists sln. split; [done|].
           unfold slice_ok. rewrite Hlenn, Hlev. split_and!.
           ++ lia.
           ++ by destruct pre.
           ++ lia.
           ++ intros j Hj. rewrite Hnew by done. rewrite decide_True by done.
              rewrite Hfa; [done|]. intros x Hx. rewrite Hl, elem_of_app.
              by right.
        -- assert (pre ++ n :: k ++ [q] = (pre ++ n :: k) ++ [q]) as ->.
           { by rewrite <- app_assoc. }
           rewrite last_ref_snoc.
           destruct (inv_links s l HInv ((pre ++ k) ++ [q]) b)
             as (sl & Hsl & Hok).
           { rewrite Hl. by rewrite <- !app_assoc. }
           rewrite last_ref_snoc in Hsl.
           destruct Hok as (Hle & Hemp & Hnem & Hj).
           destruct (Hold _ sl Hsl) as (sl' & Hsl' & Hlen' & Hent).
           exists sl'. split; [done|]. unfold slice_ok. rewrite Hlen', Hlev.
           split_and!.
           ++ done.
           ++ intros Habs. by destruct pre, k.
           ++ intros _. apply Hnem. by destruct (pre ++ k).
           ++ intros j Hjlt. rewrite Hent by done.
              rewrite decide_False.
              { rewrite Hj by done. rewrite Hfa; [done|].
                intros x Hx. rewrite Hl, !elem_of_app. right. by right. }
              intros [_ Hp].
              destruct (pred_slice_cases ht j pre)
                as [[Hp' _]|(a' & z & b' & Hpre' & Hp' & _)]; [congruence|].
              rewrite Hp' in Hp. injection Hp as ->.
              apply NoDup_app in HND as (_ & HND & _).
              apply (HND q).
              ** rewrite Hpre', elem_of_app. right. left.
              ** rewrite !elem_of_app. left. right. left.
    + by apply Hbefore.
  - apply StronglySorted_app. split_and!.
    + intros x1 x2 Hx1 [->|Hx2]%elem_of_cons; unfold ltp; rewrite HC.
      * rewrite Hvnew, Hvold.
        -- by eapply Forall_forall in Hpre.
        -- apply Hin. rewrite Hl, elem_of_app. by left.
      * rewrite !Hvold.
        -- eapply (StronglySorted_app_1_elem_of (ltp s)); [|done..].
           rewrite <- Hl. apply (inv_sorted s l HInv).
        -- apply Hin. rewrite Hl, elem_of_app. by right.
        -- apply Hin. rewrite Hl, elem_of_app. by left.
    + eapply (StronglySorted_weaken (ltp s)).
      * intros x y Hx Hy. unfold ltp. rewrite HC, !Hvold; [done|..].
        -- apply Hin. rewrite Hl, elem_of_app. by left.
        -- apply Hin. rewrite Hl, elem_of_app. by left.
      * eapply StronglySorted_app_1_l. rewrite <- Hl.
        apply (inv_sorted s l HInv).
    + apply StronglySorted_cons. split.
      * apply Forall_forall. intros x Hx. unfold ltp.
        rewrite HC, Hvnew, Hvold.
        -- apply (cmp_gt_flip _ Hc). by eapply Forall_forall in Hsuf.
        -- apply Hin. rewrite Hl, elem_of_app. by right.
      * eapply (StronglySorted_weaken (ltp s)).
        -- intros x y Hx Hy. unfold ltp. rewrite HC, !Hvold; [done|..].
           ++ apply Hin. rewrite Hl, elem_of_app. by right.
           ++ apply Hin. rewrite Hl, elem_of_app. by right.
        -- eapply StronglySorted_app_1_r. rewrite <- Hl.
           apply (inv_sorted s l HInv).
  - rewrite Hlen, seq_S. simpl.
    rewrite <- (inv_perm s l HInv), Hl.
    rewrite <- Permutation_middle. rewrite <- Permutation_cons_append.
    done.
Qed.

End Splice.

(** * Fuel *)

(** A loop that has come to an end, by a result or by a panic, comes to the
    same end with more fuel. *)

Lemma bind_not_Timeout {A B} (m : Result A) (k : A → Result B) :
  bind m k ≠ Timeout → m ≠ Timeout.
Proof. by destruct m. Qed.

Section Fuel.
Context {E : Type}.
Implicit Types (s : SkipList E) (elem : @value E).
Local Open Scope nat_scope.

Lemma insert_inner_mono s elem i : ∀ fuel fuel' nodes updates,
  fuel ≤ fuel' → insert_inner fuel s elem i nodes updates ≠ Timeout →
  insert_inner fuel' s elem i nodes updates =
  insert_inner fuel s elem i nodes updates.
Proof.
  induction fuel as [|fuel IH]; intros [|fuel'] nodes updates Hle H;
    try done; try lia.
  simpl in *.
  destruct (slice s nodes) as [sl| |]; simpl in *; try done.
  destruct (index sl i) as [n| |]; simpl in *; try done.
  destruct (cmp s n elem) as [c| |]; simpl in *; try done.
  destruct (c =? -1)%Z.
  { destruct (next_of s n); simpl in *; try done. apply IH; [lia|done]. }
  destruct (c =? 0)%Z; [done|].
  destruct (c =? 1)%Z; [done|].
  apply IH; [lia|done].
Qed.

Lemma insert_outer_mono s elem : ∀ k fuel fuel' nodes updates,
  fuel ≤ fuel' → insert_outer fuel s elem k nodes updates ≠ Timeout →
  insert_outer fuel' s elem k nodes updates =
  insert_outer fuel s elem k nodes updates.
Proof.
  induction k as [|i IH]; intros fuel fuel' nodes updates Hle H; [done|].
  simpl in *.
  rewrite (insert_inner_mono s elem i fuel fuel') by
    (try done; by eapply bind_not_Timeout).
  destruct (insert_inner fuel s elem i nodes updates) as [[[]|]| |];
    simpl in *; try done.
  by apply IH.
Qed.

Lemma Insert_mono s elem rs fuel fuel' :
  fuel ≤ fuel' → Insert fuel s elem rs ≠ Timeout →
  Insert fuel' s elem rs = Insert fuel s elem rs.
Proof.
  intros Hle H. unfold Insert in *.
  destruct (maxLevel s <? 0)%Z; [done|].
  rewrite (insert_outer_mono s elem _ fuel fuel') by
    (try done; by eapply bind_not_Timeout).
  done.
Qed.

Lemma contains_inner_mono s elem i : ∀ fuel fuel' nodes,
  fuel ≤ fuel' → contains_inner fuel s elem i nodes ≠ Timeout →
  contains_inner fuel' s elem i nodes = contains_inner fuel s elem i nodes.
Proof.
  induction fuel as [|fuel IH]; intros [|fuel'] nodes Hle H;
    try done; try lia.
  simpl in *.
  destruct (slice s nodes) as [sl| |]; simpl in *; try done.
  destruct (index sl i) as [n| |]; simpl in *; try done.
  destruct (cmp s n elem) as [c| |]; simpl in *; try done.
  destruct (c =? -1)%Z; [|done].
  destruct (next_of s n); simpl in *; try done. apply IH; [lia|done].
Qed.

Lemma contains_outer_mono s elem : ∀ k fuel fuel' nodes,
  fuel ≤ fuel' → contains_outer fuel s elem k nodes ≠ Timeout →
  contains_outer fuel' s elem k nodes = contains_outer fuel s elem k nodes.
Proof.
  induction k as [|i IH]; intros fuel fuel' nodes Hle H; [done|].
  simpl in *.
  rewrite (contains_inner_mono s elem i fuel fuel') by
    (try done; by eapply bind_not_Timeout).
  destruct (contains_inner fuel s elem i nodes) as [[]| |];
    simpl in *; try done.
  by apply IH.
Qed.

Lemma foreach_loop_mono {CS Err} s (cb : CS → @value E → CS * option Err) :
  ∀ fuel fuel' st n,
  fuel ≤ fuel' → foreach_loop fuel s cb st n ≠ Timeout →
  foreach_loop fuel' s cb st n = foreach_loop fuel s cb st n.
Proof.
  induction fuel as [|fuel IH]; intros [|fuel'] st [p|] Hle H;
    try done; try lia.
  simpl in *.
  destruct (deref s p) as [nd| |]; simpl in *; try done.
  destruct (cb st (val nd)) as [st' [e|]]; [done|].
  destruct (index (next nd) 0) as [n'| |]; simpl in *; try done.
  apply IH; [lia|done].
Qed.

Lemma ForEach_mono {CS Err} s (cb : CS → @value E → CS * option Err)
    fuel fuel' st :
  fuel ≤ fuel' → ForEach fuel s cb st ≠ Timeout →
  ForEach fuel' s cb st = ForEach fuel s cb st.
Proof.
  intros Hle H. unfold ForEach in *.
  destruct (index (head s) 0) as [n| |]; simpl in *; try done.
  by apply foreach_loop_mono.
Qed.

End Fuel.

(** * Insert keeps the invariant *)

Section InsertSpec.
Context {E : Type}.
Implicit Types (s t : SkipList E) (elem : @value E) (l pre suf : list ptr).
Local Open Scope nat_scope.

Lemma randLevel_loop_range : ∀ k level rs lvl rs',
  randLevel_loop k level rs = Ret (lvl, rs') →
  (level ≤ lvl ≤ level + Z.of_nat k)%Z.
Proof.
  induction k as [|k IH]; intros level rs lvl rs' H; simpl in H.
  - injection H as <- <-. lia.
  - destruct (rs 0) as [b|]; [|done].
    destruct (Z.land b 1 =? 1)%Z.
    + apply IH in H. lia.
    + injection H as <- <-. lia.
Qed.

Lemma randLevel_loop_Panic : ∀ k level rs p,
  randLevel_loop k level rs = Panic p → p = RandFailure.
Proof.
  induction k as [|k IH]; intros level rs p H; simpl in H; [done|].
  destruct (rs 0) as [b|]; [|congruence].
  destruct (Z.land b 1 =? 1)%Z; [by eapply IH|done].
Qed.

Lemma randLevel_loop_Timeout : ∀ k level rs,
  randLevel_loop k level rs = Timeout → False.
Proof.
  induction k as [|k IH]; intros level rs H; simpl in H; [done|].
  destruct (rs 0) as [b|]; [|congruence].
  destruct (Z.land b 1 =? 1)%Z; [by eapply IH|done].
Qed.

Lemma randLevel_range s rs lvl rs' :
  (1 ≤ maxLevel s)%Z → randLevel s rs = Ret (lvl, rs') →
  (1 ≤ lvl ≤ maxLevel s)%Z.
Proof.
  intros Hm H. apply randLevel_loop_range in H. lia.
Qed.

(** With no level at all, [Insert] panics: [make] refuses a negative
    length, and with [maxLevel] zero the empty [updates] is indexed. *)
Lemma Insert_no_levels s elem rs fuel :
  levels s = 0 → ∃ p, Insert fuel s elem rs = Panic p.
Proof.
  intros H0. unfold levels in H0. unfold Insert.
  destruct (maxLevel s <? 0)%Z; [by eexists|]. rewrite H0. simpl.
  unfold randLevel. assert (Z.to_nat (maxLevel s - 1) = 0) as -> by lia.
  by eexists.
Qed.

(** The two ways of [Insert], for a state under the invariant and fuel
    for one pass over the nodes. *)
Lemma Insert_spec s l elem rs fuel :
  Inv s l → TotalOrder (Compare s) → (1 ≤ maxLevel s)%Z →
  length (heap s) < fuel →
  (∃ y nd, y ∈ l ∧ heap s !! y = Some nd ∧
     Compare s (val nd) elem = 0%Z ∧
     Insert fuel s elem rs =
       Ret (val nd, set_heap s (<[y := Node elem (next nd)]> (heap s)), rs))
  ∨
  (∃ pre suf updates, l = pre ++ suf ∧
     Forall (lt_elem s elem) pre ∧ Forall (gt_elem s elem) suf ∧
     (∀ j, j < levels s →
        updates !! j = Some (Some (pred_slice (height s) j pre, j))) ∧
     insert_outer fuel s elem (levels s) SHead (replicate (levels s) None) =
       Ret (inl (last_ref pre, updates)) ∧
     ((randLevel s rs = Panic RandFailure ∧
       Insert fuel s elem rs = Panic RandFailure)
      ∨
      (∃ lvl rs' t, randLevel s rs = Ret (lvl, rs') ∧
         (1 ≤ lvl ≤ maxLevel s)%Z ∧
         Insert fuel s elem rs = Ret (None, t, rs') ∧
         spliced s pre suf elem (Z.to_nat lvl) (length (heap s))
           (Z.to_nat lvl) t))).
Proof.
  intros HInv Hc Hm Hfuel.
  destruct (insert_search_spec s l elem fuel HInv Hc)
    as [(y & nd & Hy & Hnd & Heq & Hrun)
       |(pre & suf & updates & Hl & Hpre & Hsuf & Hlen & Hupd & Hrun)].
  { by rewrite (inv_length s l HInv). }
  - left. exists y, nd. split_and!; try done.
    unfold Insert. destruct (maxLevel s <? 0)%Z eqn:Hneg; [lia|].
    fold (levels s). by rewrite Hrun.
  - right. exists pre, suf, updates. split_and!; try done.
    unfold Insert. destruct (maxLevel s <? 0)%Z eqn:Hneg; [lia|].
    fold (levels s). rewrite Hrun. simpl.
    destruct (randLevel s rs) as [[lvl rs']|p|] eqn:Hrand.
    + right. pose proof (randLevel_range s rs lvl rs' Hm Hrand) as Hlvl.
      destruct (splice_run s l pre suf elem (Z.to_nat lvl) updates HInv Hl)
        as (t & Hsplice & _ & Ht); [unfold levels; lia|done|].
      exists lvl, rs', t. split_and!; try done; try lia.
      simpl. by rewrite Hsplice.
    + left. apply randLevel_loop_Panic in Hrand as ->. done.
    + by apply randLevel_loop_Timeout in Hrand.
Qed.

(** Every return of [Insert], whatever the fuel. *)
Lemma Insert_Ret s l elem rs fuel prev s' rs' :
  Inv s l → TotalOrder (Compare s) →
  Insert fuel s elem rs = Ret (prev, s', rs') →
  (1 ≤ maxLevel s)%Z ∧
  ((∃ y nd, y ∈ l ∧ heap s !! y = Some nd ∧
      Compare s (val nd) elem = 0%Z ∧ prev = val nd ∧
      s' = set_heap s (<[y := Node elem (next nd)]> (heap s)) ∧ rs' = rs)
   ∨
   (∃ pre suf updates lvl, l = pre ++ suf ∧
      Forall (lt_elem s elem) pre ∧ Forall (gt_elem s elem) suf ∧
      (∀ j, j < levels s →
         updates !! j = Some (Some (pred_slice (height s) j pre, j))) ∧
      insert_outer fuel s elem (levels s) SHead (replicate (levels s) None) =
        Ret (inl (last_ref pre, updates)) ∧
      randLevel s rs = Ret (lvl, rs') ∧ (1 ≤ lvl ≤ maxLevel s)%Z ∧
      prev = None ∧
      spliced s pre suf elem (Z.to_nat lvl) (length (heap s))
        (Z.to_nat lvl) s')).
Proof.
  intros HInv Hc Hrun.
  assert (1 ≤ maxLevel s)%Z as Hm.
  { destruct (decide (levels s = 0)) as [H0|H0].
    - destruct (Insert_no_levels s elem rs fuel H0) as [p Hp]. congruence.
    - unfold levels in H0. lia. }
  split; [done|].
  set (fuel' := fuel `max` S (length (heap s))).
  assert (Insert fuel' s elem rs = Ret (prev, s', rs')) as Hrun'.
  { rewrite (Insert_mono s elem rs fuel fuel'); [done|lia|by rewrite Hrun]. }
  assert (insert_outer fuel' s elem (levels s) SHead
            (replicate (levels s) None) =
          insert_outer fuel s elem (levels s) SHead
            (replicate (levels s) None)) as Hsearch.
  { apply insert_outer_mono; [lia|].
    unfold Insert in Hrun. destruct (maxLevel s <? 0)%Z; [done|].
    fold (levels s) in Hrun. eapply bind_not_Timeout. by rewrite Hrun. }
  destruct (Insert_spec s l elem rs fuel' HInv Hc Hm)
    as [(y & nd & Hy & Hnd & Heq & Hr)
       |(pre & suf & updates & Hl & Hpre & Hsuf & Hupd & Hout
         & [[_ Hr]|(lvl & rs1 & t & Hrand & Hlvl & Hr & Ht)])]; [lia|..].
  - left. exists y, nd. rewrite Hr in Hrun'. injection Hrun' as <- <- <-.
    by split_and!.
  - by rewrite Hr in Hrun'.
  - right. exists pre, suf, updates, lvl.
    rewrite Hr in Hrun'. injection Hrun' as <- <- <-.
    rewrite <- Hsearch. split_and!; try done; lia.
Qed.

(** [Insert] keeps the invariant, and changes the values along level 0 in
    one of two ways: one value is replaced by an equal one, or the new
    value is put between the smaller and the greater ones. *)
Lemma Insert_Inv s l elem rs fuel prev s' rs' :
  Inv s l → TotalOrder (Compare s) →
  Insert fuel s elem rs = Ret (prev, s', rs') →
  Compare s' = Compare s ∧ maxLevel s' = maxLevel s ∧
  (1 ≤ maxLevel s)%Z ∧
  ((∃ a b, Inv s' l ∧ length (heap s') = length (heap s) ∧
      valof s <$> l = a ++ prev :: b ∧ Compare s prev elem = 0%Z ∧
      valof s' <$> l = a ++ elem :: b)
   ∨
   (∃ pre suf, l = pre ++ suf ∧ prev = None ∧
      Inv s' (pre ++ length (heap s) :: suf) ∧
      length (heap s') = S (length (heap s)) ∧
      Forall (λ v, Compare s v elem = (-1)%Z) (valof s <$> pre) ∧
      Forall (λ v, Compare s v elem = 1%Z) (valof s <$> suf) ∧
      valof s' <$> (pre ++ length (heap s) :: suf) =
        (valof s <$> pre) ++ elem :: (valof s <$> suf))).
Proof.
  intros HInv Hc Hrun.
  destruct (Insert_Ret s l elem rs fuel prev s' rs' HInv Hc Hrun)
    as [Hm [(y & nd & Hy & Hnd & Heq & -> & -> & ->)
           |(pre & suf & updates & lvl & Hl & Hpre & Hsuf & Hupd & Hout
             & Hrand & Hlvl & -> & Ht)]].
  - split_and!; try done. left.
    apply list_elem_of_split in Hy as (a & b & ->).
    pose proof (inv_NoDup s _ HInv) as HND.
    apply NoDup_app in HND as (_ & Hya & HND).
    apply NoDup_cons in HND as [Hyb _].
    assert (y < length (heap s)) as Hlt by by eapply lookup_lt_Some.
    assert (∀ q, valof (set_heap s (<[y := Node elem (next nd)]> (heap s))) q
               = if decide (q = y) then elem else valof s q) as Hval.
    { intros q. unfold valof. cbn [heap set_heap].
      destruct (decide (q = y)) as [->|].
      - by rewrite list_lookup_insert_eq.
      - by rewrite list_lookup_insert_ne. }
    exists (valof s <$> a), (valof s <$> b). split_and!.
    + by apply update_Inv.
    + cbn [heap set_heap]. by rewrite length_insert.
    + rewrite fmap_app, fmap_cons. by rewrite (valof_lookup s y nd Hnd).
    + done.
    + rewrite fmap_app, fmap_cons. rewrite Hval, decide_True by done.
      f_equal; [|f_equal]; apply list_fmap_ext; intros i q Hq;
        rewrite Hval; apply list_elem_of_lookup_2 in Hq.
      * rewrite decide_False; [done|]. intros ->.
        apply (Hya y); [done|left].
      * rewrite decide_False; [done|]. by intros ->.
  - pose proof Ht as (HC & HM & Hlen & Hvold & Hvnew & _).
    split_and!; try done. right. exists pre, suf.
    assert (∀ x, x ∈ l → x < length (heap s)) as Hin.
    { intros x. by apply (inv_elem s l x HInv). }
    split_and!; try done.
    + apply (spliced_Inv s l pre suf elem (Z.to_nat lvl) updates); try done.
      unfold levels. lia.
    + by apply Forall_fmap.
    + by apply Forall_fmap.
    + rewrite fmap_app, fmap_cons, Hvnew.
      f_equal; [|f_equal]; apply list_fmap_ext; intros i q Hq;
        apply Hvold, Hin; apply list_elem_of_lookup_2 in Hq;
        rewrite Hl, elem_of_app; auto.
Qed.

End InsertSpec.

(** * The states the operations build *)

Section Built.
Context {E : Type}.
Implicit Types (s t : SkipList E) (elem v : @value E) (l : list ptr)
  (vs : list (@value E)).
Local Open Scope nat_scope.

Lemma New_Inv c m s :
  New c m = Ret s →
  Inv s [] ∧ Compare s = c ∧ maxLevel s = m ∧ heap s = [] ∧
  head s = replicate (Z.to_nat m) None.
Proof.
  unfold New. destruct (m <? 0)%Z eqn:Hm; [done|]. intros [= <-].
  split_and!; try done. split.
  - simpl. lia.
  - intros a b Hab. symmetry in Hab. apply app_eq_nil in Hab as [-> ->].
    exists (replicate (Z.to_nat m) None). split; [done|].
    unfold slice_ok, levels. simpl. rewrite length_replicate.
    split_and!; try done. intros j Hj. by rewrite lookup_replicate_2.
  - constructor.
  - done.
Qed.

Lemma built_Inv c m s vs :
  built c m s vs → TotalOrder c →
  ∃ l, Inv s l ∧ Compare s = c ∧ maxLevel s = m ∧
       (∀ v, v ∈ valof s <$> l → v ∈ vs) ∧
       (∀ v, v ∈ vs → ∃ x, x ∈ valof s <$> l ∧ c x v = 0%Z) ∧
       (distinct c vs → valof s <$> l ≡ₚ vs).
Proof.
  intros Hb Hc. induction Hb as [s Hnew|s vs fuel v rs prev s' rs' Hb IH Hrun].
  - apply New_Inv in Hnew as (HInv & HC & HM & _).
    exists []. split_and!; try done. intros v Hv. by apply elem_of_nil in Hv.
  - destruct IH as (l & HInv & HC & HM & Hsub & Hsup & Hperm).
    rewrite <- HC in Hc.
    destruct (Insert_Inv s l v rs fuel prev s' rs' HInv Hc Hrun)
      as (HC' & HM' & _ & [(a & b & HInv' & _ & Hvals & Heq & Hvals')
                          |(pre & suf & Hl & -> & HInv' & _ & Hpre & Hsuf
                            & Hvals')]).
    + exists l. rewrite Hvals'. rewrite Hvals in Hsub, Hsup, Hperm.
      rewrite HC in *.
      split_and!; try congruence.
      * intros w. rewrite elem_of_app, !elem_of_cons. intros [?|[->|?]].
        -- right. apply Hsub. rewrite elem_of_app. by left.
        -- by left.
        -- right. apply Hsub. rewrite elem_of_app, elem_of_cons. auto.
      * intros w [->|Hw]%elem_of_cons.
        -- exists v. split; [|by apply cmp_refl].
           rewrite elem_of_app, elem_of_cons. auto.
        -- destruct (Hsup w Hw) as (x & Hx & Hxw).
           rewrite elem_of_app, elem_of_cons in Hx.
           destruct Hx as [?|[->|?]].
           ++ exists x. split; [|done]. rewrite elem_of_app. by left.
           ++ exists v. split; [rewrite elem_of_app, elem_of_cons; auto|].
              eapply cmp_eq_trans; [done| |exact Hxw].
              by apply cmp_eq_sym.
           ++ exists x. split; [|done].
              rewrite elem_of_app, elem_of_cons. auto.
      * intros [Hv _]. exfalso.
        eapply Forall_forall in Hv.
        -- apply Hv. by apply cmp_eq_sym.
        -- apply Hsub. rewrite elem_of_app, elem_of_cons. auto.
    + eexists. split; [exact HInv'|]. rewrite Hvals'.
      rewrite Hl, fmap_app in Hsub, Hsup, Hperm. rewrite HC in *.
      split_and!; try congruence.
      * intros w. rewrite elem_of_app, !elem_of_cons. intros [?|[->|?]].
        -- right. apply Hsub. rewrite elem_of_app. by left.
        -- by left.
        -- right. apply Hsub. rewrite elem_of_app. by right.
      * intros w [->|Hw]%elem_of_cons.
        -- exists v. split; [|by apply cmp_refl].
           rewrite elem_of_app, elem_of_cons. auto.
        -- destruct (Hsup w Hw) as (x & Hx & Hxw).
           exists x. split; [|done].
           rewrite elem_of_app, elem_of_cons.
           rewrite elem_of_app in Hx. destruct Hx; auto.
      * intros [_ Hd]. rewrite <- Permutation_middle.
        by rewrite (Hperm Hd).
Qed.

End Built.

(** * Contains *)

Section ContainsSpec.
Context {E : Type}.
Implicit Types (s t : SkipList E) (elem v : @value E) (l : list ptr).
Local Open Scope nat_scope.

Lemma cmp_Ret_range s n elem c :
  TotalOrder (Compare s) → cmp s n elem = Ret c →
  (c = -1 ∨ c = 0 ∨ c = 1)%Z ∧
  (c ≠ 1%Z → ∃ p nd, n = Some p ∧ heap s !! p = Some nd).
Proof.
  intros Hc. destruct n as [p|]; simpl.
  - unfold deref. destruct (heap s !! p) as [nd|] eqn:Hnd; [|done].
    simpl. intros [= <-]. split; [apply (cmp_range _ Hc)|]. eauto.
  - intros [= <-]. split; [lia|done].
Qed.

Lemma insert_inner_length s elem i : ∀ fuel nodes updates nodes' updates',
  insert_inner fuel s elem i nodes updates = Ret (inl (nodes', updates')) →
  length updates' = length updates.
Proof.
  induction fuel as [|fuel IH]; intros nodes updates nodes' updates' H;
    [done|].
  simpl in H.
  destruct (slice s nodes) as [sl| |]; simpl in H; try done.
  destruct (index sl i) as [n| |]; simpl in H; try done.
  destruct (cmp s n elem) as [c| |]; simpl in H; try done.
  destruct (c =? -1)%Z.
  { destruct (next_of s n); simpl in H; try done. by eapply IH. }
  destruct (c =? 0)%Z.
  { destruct n as [p|]; [|done].
    destruct (deref s p); simpl in H; try done.
    destruct (write_val s p elem); simpl in H; done. }
  destruct (c =? 1)%Z; [|by eapply IH].
  destruct (index updates i); simpl in H; try done.
  injection H as <- <-. by rewrite length_insert.
Qed.

(** Under the comparator contract, [Contains] and [Insert] search alike. *)
Lemma contains_inner_sim s elem i :
  TotalOrder (Compare s) → ∀ fuel nodes updates,
  i < length updates →
  contains_inner fuel s elem i nodes =
  found_of (insert_inner fuel s elem i nodes updates).
Proof.
  intros Hc. induction fuel as [|fuel IH]; intros nodes updates Hi; [done|].
  simpl.
  destruct (slice s nodes) as [sl| |]; simpl; try done.
  destruct (index sl i) as [n| |]; simpl; try done.
  destruct (cmp s n elem) as [c| |] eqn:Hcmp; simpl; try done.
  destruct (cmp_Ret_range s n elem c Hc Hcmp) as [Hrange Hsome].
  destruct (c =? -1)%Z eqn:H1.
  { destruct (next_of s n); simpl; try done. by apply IH. }
  destruct (c =? 0)%Z eqn:H0.
  { destruct Hsome as (p & nd & -> & Hnd); [lia|].
    unfold write_val, deref. rewrite Hnd. done. }
  destruct (c =? 1)%Z eqn:H2; [|lia].
  destruct (index_lt updates i Hi) as (u & _ & ->). done.
Qed.

Lemma contains_outer_sim s elem :
  TotalOrder (Compare s) → ∀ k fuel nodes updates,
  k ≤ length updates →
  contains_outer fuel s elem k nodes =
  found_of (insert_outer fuel s elem k nodes updates).
Proof.
  intros Hc. induction k as [|i IH]; intros fuel nodes updates Hk; [done|].
  simpl. rewrite (contains_inner_sim s elem i Hc fuel nodes updates) by lia.
  destruct (insert_inner fuel s elem i nodes updates)
    as [[[nodes' updates']|[]]| |] eqn:Hin; simpl; try done.
  apply IH. apply insert_inner_length in Hin. lia.
Qed.

(** [Contains] answers whether a node holds an equal value. *)
Lemma Contains_spec s l elem fuel :
  Inv s l → TotalOrder (Compare s) → (1 ≤ maxLevel s)%Z →
  length (heap s) < fuel →
  ∃ b, Contains fuel s elem = Ret b ∧
       (b = true ↔ ∃ x, x ∈ valof s <$> l ∧ Compare s x elem = 0%Z).
Proof.
  intros HInv Hc Hm Hfuel. unfold Contains. fold (levels s).
  rewrite (contains_outer_sim s elem Hc _ _ _ (replicate (levels s) None))
    by by rewrite length_replicate.
  destruct (insert_search_spec s l elem fuel HInv Hc)
    as [(y & nd & Hy & Hnd & Heq & Hrun)
       |(pre & suf & updates & Hl & Hpre & Hsuf & Hlen & Hupd & Hrun)].
  { by rewrite (inv_length s l HInv). }
  - rewrite Hrun. simpl. exists true. split; [done|]. split; [|done].
    intros _. exists (val nd). split; [|done].
    apply list_elem_of_fmap. exists y.
    by rewrite (valof_lookup s y nd Hnd).
  - rewrite Hrun. simpl.
    destruct (inv_links s l HInv pre suf Hl) as (sl & Hsl & Hok).
    destruct Hok as (_ & Hemp & Hnem & Hj).
    assert (0 < length sl) as Hpos.
    { destruct pre as [|? ?].
      - rewrite Hemp by done. unfold levels. lia.
      - by apply Hnem. }
    rewrite Hsl. simpl. unfold index. rewrite Hj by done. simpl.
    rewrite (inv_first0 s l pre suf HInv Hl).
    assert (∃ c, cmp s (hd_error suf) elem = Ret c ∧ c = 1%Z)
      as (c & -> & ->).
    { destruct suf as [|y suf]; simpl; [by eexists|].
      destruct (inv_height s l y HInv) as (nd & Hnd & _ & Hv & _).
      { rewrite Hl, elem_of_app. right. left. }
      unfold deref. rewrite Hnd. simpl. eexists. split; [done|].
      apply Forall_cons in Hsuf as [Hy _]. unfold gt_elem in Hy.
      by rewrite <- Hv. }
    simpl. exists false. split; [done|]. split; [done|].
    intros (x & Hx & Hxe). apply list_elem_of_fmap in Hx as (y & -> & Hy).
    rewrite Hl, elem_of_app in Hy. destruct Hy as [Hy|Hy].
    + eapply Forall_forall in Hpre; [|done]. unfold lt_elem in Hpre. lia.
    + eapply Forall_forall in Hsuf; [|done]. unfold gt_elem in Hsuf. lia.
Qed.

End ContainsSpec.

(** * The chains of a list, and ForEach *)

Section Chains.
Context {E : Type}.
Implicit Types (s t : SkipList E) (elem v : @value E) (l c : list ptr).
Local Open Scope nat_scope.

Lemma chain_unique s L n c c' : chain s L n c → chain s L n c' → c = c'.
Proof.
  intros H. revert c'. induction H as [|p nd n c Hnd Hn _ IH]; intros c' H'.
  - by inversion H'.
  - inversion H' as [|p' nd' n' c'' Hnd' Hn' Hc']; subst.
    f_equal. apply IH. congruence.
Qed.

(** Under the invariant the chain of level [L] is made of the nodes of
    height above [L], in the order of level 0. *)
Lemma inv_chain s l L :
  Inv s l → ∀ b a, l = a ++ b →
  chain s L (first_above (height s) L b) (filter (λ p, L < height s p) b).
Proof.
  intros HInv. induction b as [|p b IH]; intros a Hl; [constructor|].
  destruct (inv_node s l a p b HInv Hl) as (nd & Hnd & _ & _ & _ & Hj).
  specialize (IH (a ++ [p])). rewrite <- app_assoc in IH.
  specialize (IH Hl). simpl. rewrite filter_cons. case_decide as Hh.
  - rewrite (height_lookup s p nd Hnd) in Hh.
    eapply chain_cons; [done|by apply Hj|done].
  - done.
Qed.

Lemma inv_chain_head s l L :
  Inv s l → L < levels s →
  ∃ n, head s !! L = Some n ∧
       chain s L n (filter (λ p, L < height s p) l).
Proof.
  intros HInv HL. destruct (inv_head s l HInv) as [_ Hhd].
  eexists. split; [by apply Hhd|]. by apply (inv_chain s l L HInv l []).
Qed.

Lemma inv_filter0 s l : Inv s l → filter (λ p, 0 < height s p) l = l.
Proof.
  intros HInv. assert (Forall (λ p, 0 < height s p) l) as H.
  { apply Forall_forall. intros p Hp.
    destruct (inv_height s l p HInv Hp) as (_ & _ & ? & _). lia. }
  clear HInv. induction H as [|p l Hp _ IH]; [done|].
  by rewrite filter_cons_True, IH.
Qed.

Lemma inv_chain0 s l :
  Inv s l → (1 ≤ maxLevel s)%Z →
  ∃ n, head s !! 0 = Some n ∧ chain s 0 n l.
Proof.
  intros HInv Hm. destruct (inv_chain_head s l 0 HInv) as (n & Hn & Hc).
  { unfold levels. lia. }
  exists n. split; [done|]. by rewrite (inv_filter0 s l HInv) in Hc.
Qed.

(** ** ForEach on a chain *)

Lemma foreach_loop_chain {CS Err} s (cb : CS → @value E → CS * option Err) :
  ∀ n c, chain s 0 n c → ∀ fuel st, length c ≤ fuel →
  foreach_loop fuel s cb st n = Ret (foreach_values cb st (valof s <$> c)).
Proof.
  induction 1 as [|p nd n c Hnd Hn _ IH]; intros fuel st Hfuel.
  - by destruct fuel.
  - destruct fuel as [|fuel]; simpl in Hfuel; [lia|].
    rewrite fmap_cons. simpl. unfold deref. rewrite Hnd. simpl.
    rewrite (valof_lookup s p nd Hnd).
    destruct (cb st (val nd)) as [st' [e|]]; [done|].
    unfold index. rewrite Hn. simpl. apply IH. lia.
Qed.

Lemma ForEach_chain {CS Err} s (cb : CS → @value E → CS * option Err)
    n c fuel st :
  head s !! 0 = Some n → chain s 0 n c → length c ≤ fuel →
  ForEach fuel s cb st = Ret (foreach_values cb st (valof s <$> c)).
Proof.
  intros Hn Hc Hfuel. unfold ForEach, index. rewrite Hn. simpl.
  by apply foreach_loop_chain.
Qed.

(** ** The callback on a list of values *)

Lemma foreach_values_ok {CS Err} (cb : CS → @value E → CS * option Err)
    (vs : list (@value E)) st :
  (∀ st v, (cb st v).2 = None) → (foreach_values cb st vs).2 = None.
Proof.
  intros Hok. revert st. induction vs as [|v vs IH]; intros st; [done|].
  simpl. specialize (Hok st v). destruct (cb st v) as [st' [e|]]; [done|].
  apply IH.
Qed.

Lemma foreach_values_stop {CS Err} (cb : CS → @value E → CS * option Err)
    (vs1 vs2 : list (@value E)) v st st1 st' e :
  foreach_values cb st vs1 = (st1, None) → cb st1 v = (st', Some e) →
  foreach_values cb st (vs1 ++ v :: vs2) = (st', Some e).
Proof.
  revert st. induction vs1 as [|w vs1 IH]; intros st; simpl.
  - intros [= ->] ->. done.
  - destruct (cb st w) as [st2 [e2|]]; [done|]. apply IH.
Qed.

Lemma foreach_values_traced {Err} (f : @value E → option Err)
    (vs seen : list (@value E)) :
  (Forall (λ v, f v = None) vs ∧
   foreach_values (traced f) seen vs = (seen ++ vs, None))
  ∨
  (∃ vs1 v vs2 e, vs = vs1 ++ v :: vs2 ∧ Forall (λ v, f v = None) vs1 ∧
     f v = Some e ∧
     foreach_values (traced f) seen vs = (seen ++ vs1 ++ [v], Some e)).
Proof.
  revert seen. induction vs as [|v vs IH]; intros seen.
  - left. split; [constructor|]. simpl. by rewrite app_nil_r.
  - simpl. destruct (f v) as [e|] eqn:Hv.
    + right. exists [], v, vs, e. by split_and!.
    + destruct (IH (seen ++ [v])) as [[Hall Hrun]
          |(vs1 & w & vs2 & e & -> & Hall & Hw & Hrun)].
      * left. split; [by constructor|].
        rewrite Hrun. by rewrite <- app_assoc.
      * right. exists (v :: vs1), w, vs2, e. split_and!; try done.
        -- by constructor.
        -- rewrite Hrun. by rewrite <- !app_assoc.
Qed.

End Chains.

(** * The concrete comparator and lists *)

Lemma int64_compare_TotalOrder : TotalOrder int64_compare.
Proof.
  split.
  - intros [a|] [b|]; simpl; try lia.
    destruct (a <? b)%Z; [lia|]. destruct (a =? b)%Z; lia.
  - intros [a|] [b|]; simpl; try lia.
    destruct (a <? b)%Z eqn:H1; destruct (b <? a)%Z eqn:H2;
      destruct (a =? b)%Z eqn:H3; destruct (b =? a)%Z eqn:H4; lia.
  - intros [a|] [b|] [d|]; simpl; try lia.
    destruct (a <? b)%Z eqn:H1; destruct (b <? d)%Z eqn:H2;
      destruct (a <? d)%Z eqn:H3; destruct (a =? b)%Z eqn:H4;
      destruct (b =? d)%Z eqn:H5; destruct (a =? d)%Z eqn:H6; lia.
Qed.

Section Inserts.
Context {E : Type}.
Implicit Types (s t : SkipList E) (v : @value E) (vs : list (@value E)).

Lemma inserts_built c m fuel : ∀ ws s vs rs s' rs',
  built c m s vs → inserts fuel s ws rs = Ret (s', rs') →
  built c m s' (rev ws ++ vs).
Proof.
  induction ws as [|w ws IH]; intros s vs rs s' rs' Hb H; simpl in H.
  - by injection H as <- <-.
  - destruct (Insert fuel s w rs) as [[[prev s1] rs1]| |] eqn:Hins;
      simpl in H; try done.
    simpl. rewrite <- app_assoc. simpl.
    eapply IH; [|done]. by eapply built_Insert.
Qed.

Lemma list_of_built c m fuel ws rs s :
  list_of c m fuel ws rs = Ret s → built c m s (rev ws).
Proof.
  unfold list_of. destruct (New c m) as [s0| |] eqn:Hnew; simpl; try done.
  destruct (inserts fuel s0 ws rs) as [[s1 rs1]| |] eqn:Hins; simpl; try done.
  intros [= <-]. rewrite <- (app_nil_r (rev ws)).
  eapply inserts_built; [|done]. by constructor.
Qed.

End Inserts.

(** * The claims *)

Lemma sample_list_built :
  built int64_compare 3 sample_list [Some 7; Some 3; Some 5].
Proof.
  apply (list_of_built int64_compare 3 10 [Some 5; Some 3; Some 7]
           (list_source [1; 0; 0; 1; 1])).
  reflexivity.
Qed.

Lemma nil_list_built : built int64_compare 1 nil_list [None].
Proof.
  apply (list_of_built int64_compare 1 10 [None] (const_source 0)).
  reflexivity.
Qed.

Lemma bad_list_built : built bad_compare 1 bad_list [Some 4].
Proof.
  apply (list_of_built bad_compare 1 10 [Some 4] (const_source 0)).
  reflexivity.
Qed.

Section Claims.
Context {E : Type}.
Implicit Types (s t : SkipList E) (V v : @value E) (l : list ptr)
  (vs : list (@value E)).
Local Open Scope nat_scope.

Lemma inv_values_heap s l : Inv s l → valof s <$> l ≡ₚ val <$> heap s.
Proof.
  intros HInv. rewrite (inv_perm s l HInv).
  assert (valof s <$> seq 0 (length (heap s)) = val <$> heap s) as ->; [|done].
  apply list_eq. intros i. rewrite !list_lookup_fmap.
  destruct (heap s !! i) as [nd|] eqn:Hnd; simpl.
  - rewrite lookup_seq_lt by by eapply lookup_lt_Some. simpl.
    by rewrite (valof_lookup s i nd Hnd).
  - rewrite lookup_seq_ge; [done|]. by apply lookup_ge_None.
Qed.

Lemma inv_value_elem s l x :
  Inv s l → x ∈ valof s <$> l ↔ ∃ nd, nd ∈ heap s ∧ val nd = x.
Proof.
  intros HInv. rewrite (inv_values_heap s l HInv), list_elem_of_fmap.
  split; intros (nd & ? & ?); exists nd; by split.
Qed.

(** C1.  In a state built by the public operations, with a comparator
    under contract and at least one level, [Contains(V)] returns, and
    returns true exactly when a node of the list holds a value the
    comparator finds equal to [V].  So it is true right after [Insert(V)],
    and false when no inserted value is equal to [V]. *)
Theorem Contains_iff_member c m s vs V fuel :
  built c m s vs → TotalOrder c → (1 ≤ m)%Z → length (heap s) < fuel →
  ∃ b, Contains fuel s V = Ret b ∧
    (b = true ↔ ∃ nd, nd ∈ heap s ∧ Compare s (val nd) V = 0%Z) ∧
    (∀ vs', vs = V :: vs' → b = true) ∧
    ((∀ v, v ∈ vs → c v V ≠ 0%Z) → b = false).
Proof.
  intros Hb Hc Hm Hfuel.
  destruct (built_Inv c m s vs Hb Hc) as (l & HInv & HC & HM & Hsub & Hsup & _).
  rewrite <- HC in Hc. rewrite <- HM in Hm.
  destruct (Contains_spec s l V fuel HInv Hc Hm Hfuel) as (b & Hrun & Hiff).
  exists b. split; [done|]. split_and!.
  - rewrite Hiff. split.
    + intros (x & (nd & ? & <-)%(inv_value_elem s l x HInv) & ?). eauto.
    + intros (nd & ? & ?). exists (val nd). split; [|done].
      apply (inv_value_elem s l _ HInv). eauto.
  - intros vs' ->. apply Hiff. rewrite HC. apply Hsup. left.
  - intros Hne. destruct b; [|done]. exfalso.
    destruct (proj1 Hiff eq_refl) as (x & Hx & Hxe).
    apply (Hne x); [by apply Hsub|]. by rewrite <- HC.
Qed.

Lemma randLevel_total s rs :
  (∀ k, is_Some (rs k)) → ∃ r, randLevel s rs = Ret r.
Proof.
  unfold randLevel. generalize (Z.to_nat (maxLevel s - 1)). intros k.
  generalize 1%Z. revert rs.
  induction k as [|k IH]; intros rs z Hrs; simpl; [by eexists|].
  destruct (Hrs 0) as [b ->].
  destruct (Z.land b 1 =? 1)%Z; [|by eexists].
  apply IH. intros j. apply (Hrs (S j)).
Qed.

(** With enough fuel and a random source that does not fail, [Insert]
    returns: after a fresh insertion, or after an update in place. *)
Lemma Insert_total c m s vs V fuel rs :
  built c m s vs → TotalOrder c → (1 ≤ m)%Z → length (heap s) < fuel →
  (∀ k, is_Some (rs k)) →
  ∃ prev s' rs', Insert fuel s V rs = Ret (prev, s', rs') ∧
    (((∀ nd, nd ∈ heap s → Compare s (val nd) V ≠ 0%Z) ∧
      prev = None ∧ length (heap s') = S (length (heap s)))
     ∨
     (∃ p nd, heap s !! p = Some nd ∧ Compare s (val nd) V = 0%Z ∧
        prev = val nd ∧
        heap s' = <[p := Node V (next nd)]> (heap s) ∧
        head s' = head s ∧ rs' = rs)).
Proof.
  intros Hb Hc Hm Hfuel Hrs.
  destruct (built_Inv c m s vs Hb Hc) as (l & HInv & HC & HM & _).
  rewrite <- HC in Hc. rewrite <- HM in Hm.
  destruct (Insert_spec s l V rs fuel HInv Hc Hm Hfuel)
    as [(y & nd & Hy & Hnd & Heq & Hrun)
       |(pre & suf & updates & Hl & Hpre & Hsuf & _ & _
         & [[Hrand _]|(lvl & rs' & t & _ & _ & Hrun & Ht)])].
  - exists (val nd), (set_heap s (<[y := Node V (next nd)]> (heap s))), rs.
    split; [done|]. right. exists y, nd. by split_and!.
  - destruct (randLevel_total s rs Hrs) as [r Hr]. congruence.
  - assert (∀ nd, nd ∈ heap s → Compare s (val nd) V ≠ 0%Z) as Hne.
    { intros nd Hnd Heq.
      assert (val nd ∈ valof s <$> l) as Hv.
      { apply (inv_value_elem s l _ HInv). eauto. }
      apply list_elem_of_fmap in Hv as (y & Hvy & Hy). rewrite Hvy in Heq.
      rewrite Hl, elem_of_app in Hy. destruct Hy as [Hy|Hy].
      - eapply Forall_forall in Hpre; [|done]. unfold lt_elem in Hpre. lia.
      - eapply Forall_forall in Hsuf; [|done]. unfold gt_elem in Hsuf. lia. }
    exists None, t, rs'. split; [done|].
    left. split_and!; try done. by destruct Ht as (_ & _ & ? & _).
Qed.

(** C2, as amended.  With enough fuel and a random source that does not
    fail, [Insert(V)] returns, in one of two ways.  When no node holds a
    value equal to [V] it allocates one node and returns nil.  When a node
    holds an equal value it writes [V] into that node, returns the value
    the node held, and changes nothing else: no node is allocated and no
    forward reference is written.  The two cases exclude each other; and
    in a list that holds no nil value, nil is returned exactly in the
    first. *)
Theorem Insert_fresh_or_update c m s vs V fuel rs :
  built c m s vs → TotalOrder c → (1 ≤ m)%Z → length (heap s) < fuel →
  (∀ k, is_Some (rs k)) →
  ∃ prev s' rs', Insert fuel s V rs = Ret (prev, s', rs') ∧
    (((∀ nd, nd ∈ heap s → Compare s (val nd) V ≠ 0%Z) ∧
      prev = None ∧ length (heap s') = S (length (heap s)))
     ∨
     (∃ p nd, heap s !! p = Some nd ∧ Compare s (val nd) V = 0%Z ∧
        prev = val nd ∧
        heap s' = <[p := Node V (next nd)]> (heap s) ∧
        head s' = head s ∧ rs' = rs)) ∧
    ((∀ nd, nd ∈ heap s → val nd ≠ None) →
     (prev = None ↔ ∀ nd, nd ∈ heap s → Compare s (val nd) V ≠ 0%Z)).
Proof.
  intros Hb Hc Hm Hfuel Hrs.
  destruct (Insert_total c m s vs V fuel rs Hb Hc Hm Hfuel Hrs)
    as (prev & s' & rs' & Hrun & Hcases).
  exists prev, s', rs'. split; [done|]. split; [done|].
  intros Hnn.
  destruct Hcases as [(Hne & -> & _)|(p & nd & Hnd & Heq & -> & _)].
  - done.
  - apply list_elem_of_lookup_2 in Hnd. split.
    + intros Hnil. by destruct (Hnn nd Hnd).
    + intros Hne. by destruct (Hne nd Hnd).
Qed.

(** C10.  When the list holds nil in a node and [V] compares equal to
    nil, [Insert(V)] updates that node and returns nil, the value it
    held; and [Insert(V)] into the empty list of the same configuration,
    a fresh insertion, returns nil as well.  So a nil result does not tell
    a fresh insertion from an update. *)
Theorem Insert_nil_ambiguous c m s vs V fuel rs :
  built c m s vs → TotalOrder c → (1 ≤ m)%Z → length (heap s) < fuel →
  (∀ k, is_Some (rs k)) →
  (∃ nd, nd ∈ heap s ∧ val nd = None ∧ Compare s None V = 0%Z) →
  (∃ s', Insert fuel s V rs = Ret (None, s', rs) ∧
         length (heap s') = length (heap s)) ∧
  (∀ s0, New c m = Ret s0 →
     ∃ s1 rs1, Insert fuel s0 V rs = Ret (None, s1, rs1) ∧
               length (heap s1) = S (length (heap s0))).
Proof.
  intros Hb Hc Hm Hfuel Hrs (nd0 & Hnd0 & Hnil & Heq0). split.
  - destruct (Insert_total c m s vs V fuel rs Hb Hc Hm Hfuel Hrs)
      as (prev & s' & rs' & Hrun & [(Hne & _)|(p & nd & Hnd & Heq & -> & Hh & _ & ->)]).
    + exfalso. apply (Hne nd0 Hnd0). by rewrite Hnil.
    + assert (val nd = None) as Hv.
      { destruct (built_Inv c m s vs Hb Hc) as (l & HInv & HC & _).
        rewrite <- HC in Hc.
        assert (val nd ∈ valof s <$> l) as H1.
        { apply (inv_value_elem s l _ HInv). exists nd. split; [|done].
          by eapply list_elem_of_lookup_2. }
        assert (val nd0 ∈ valof s <$> l) as H2.
        { apply (inv_value_elem s l _ HInv). eauto. }
        apply list_elem_of_fmap in H1 as (y1 & Hv1 & Hy1).
        apply list_elem_of_fmap in H2 as (y2 & Hv2 & Hy2).
        destruct (decide (y1 = y2)) as [->|Hne]; [congruence|].
        exfalso.
        assert (Compare s (valof s y1) (valof s y2) = 0%Z) as H0.
        { rewrite <- Hv1, <- Hv2, Hnil.
          eapply (cmp_eq_trans _ Hc); [exact Heq|].
          by apply (cmp_eq_sym _ Hc). }
        pose proof (inv_sorted s l HInv) as Hs.
        apply list_elem_of_split in Hy1 as (a & b & ->).
        rewrite elem_of_app, elem_of_cons in Hy2.
        destruct Hy2 as [Hy2|[->|Hy2]]; [|done|].
        - apply list_elem_of_split in Hy2 as (a1 & a2 & ->).
          rewrite <- app_assoc in Hs. apply StronglySorted_app_1_r in Hs.
          apply StronglySorted_cons in Hs as [Hs _].
          eapply Forall_forall in Hs.
          2:{ rewrite elem_of_app. right. left. }
          unfold ltp in Hs. apply (cmp_flip _ Hc) in Hs. lia.
        - apply StronglySorted_app_1_r in Hs.
          apply StronglySorted_cons in Hs as [Hs _].
          eapply Forall_forall in Hs; [|done]. unfold ltp in Hs. lia. }
      exists s'. rewrite Hv in Hrun. split; [done|].
      rewrite Hh. by rewrite length_insert.
  - intros s0 Hnew.
    destruct (Insert_total c m s0 [] V fuel rs)
      as (prev & s1 & rs1 & Hrun & [(_ & -> & Hlen)|(p & nd & Hnd & _)]);
      try done.
    + by constructor.
    + apply New_Inv in Hnew as (_ & _ & _ & -> & _). simpl. lia.
    + exists s1, rs1. by split.
    + apply New_Inv in Hnew as (_ & _ & _ & Hh & _).
      by rewrite Hh in Hnd.
Qed.

Lemma StronglySorted_filter {A} (R : A → A → Prop) (P : A → Prop)
    `{∀ x, Decision (P x)} (l : list A) :
  StronglySorted R l → StronglySorted R (filter P l).
Proof.
  induction 1 as [|x l _ IH Hx]; [constructor|].
  rewrite filter_cons. case_decide; [|done].
  constructor; [done|]. apply Forall_forall.
  intros y [_ Hy]%list_elem_of_filter. by eapply Forall_forall in Hx.
Qed.

(** C3.  After [New] and the insertion of values no two of which are
    equal for the comparator, [ForEach] calls the callback on exactly
    these values, each once, in strictly ascending order: whatever the
    callback, it is run over one list [out], a permutation of the
    inserted values that is strictly sorted, and a callback that records
    its arguments and never fails ends with [out] and no error. *)
Theorem ForEach_distinct_sorted {Err : Type} c m s vs fuel :
  built c m s vs → TotalOrder c → (1 ≤ m)%Z → distinct c vs →
  length vs ≤ fuel →
  ∃ out, out ≡ₚ vs ∧ StronglySorted (λ a b, c a b = (-1)%Z) out ∧
    (∀ (CS : Type) (cb : CS → @value E → CS * option Err) st,
       ForEach fuel s cb st = Ret (foreach_values cb st out)) ∧
    ForEach fuel s (traced (λ _, @None Err)) [] = Ret (out, None).
Proof.
  intros Hb Hc Hm Hd Hfuel.
  destruct (built_Inv c m s vs Hb Hc)
    as (l & HInv & HC & HM & _ & _ & Hperm).
  specialize (Hperm Hd). rewrite <- HM in Hm.
  destruct (inv_chain0 s l HInv Hm) as (n & Hn & Hch).
  assert (length l ≤ fuel) as Hlen.
  { rewrite <- (length_fmap (valof s)), Hperm. done. }
  exists (valof s <$> l). split_and!.
  - done.
  - eapply StronglySorted_fmap; [|apply (inv_sorted s l HInv)].
    intros x y. unfold ltp. by rewrite HC.
  - intros CS cb st. by apply (ForEach_chain s cb n l).
  - rewrite (ForEach_chain s _ n l) by done.
    destruct (foreach_values_traced (λ _, @None Err) (valof s <$> l) [])
      as [[_ ->]|(? & ? & ? & ? & _ & _ & ? & _)]; done.
Qed.

(** C5.  In a state built by the public operations, at every level [L]
    below [maxLevel], following [next[L]] from the header reaches nil
    along one sequence of nodes, and their values are strictly increasing
    for the comparator. *)
Theorem levels_strictly_increasing c m s vs L :
  built c m s vs → TotalOrder c → L < levels s →
  ∃ n ch, head s !! L = Some n ∧ chain s L n ch ∧
    (∀ ch', chain s L n ch' → ch' = ch) ∧
    StronglySorted (λ a b, Compare s a b = (-1)%Z) (valof s <$> ch).
Proof.
  intros Hb Hc HL.
  destruct (built_Inv c m s vs Hb Hc) as (l & HInv & _).
  destruct (inv_chain_head s l L HInv HL) as (n & Hn & Hch).
  exists n, (filter (λ p, L < height s p) l). split_and!; try done.
  - intros ch' Hch'. by apply (chain_unique s L n).
  - eapply StronglySorted_fmap; [|apply StronglySorted_filter,
                                    (inv_sorted s l HInv)].
    done.
Qed.

(** C6.  On a list whose level 0 is the chain [ch], [ForEach] runs the
    callback over the values of [ch] in order.  When the callback first
    fails, on a value [v], the result is that error, with the state of
    the callback as its call on [v] left it: it is called on no later
    value.  When it never fails the result is nil.  For the callback that
    records its arguments: it has seen all the values and the result is
    nil, or it has seen the values up to the first that fails and the
    result is the error of that one. *)
Theorem ForEach_stops_at_failure {CS Err : Type} s
    (cb : CS → @value E → CS * option Err) n ch fuel st :
  head s !! 0 = Some n → chain s 0 n ch → length ch ≤ fuel →
  ForEach fuel s cb st = Ret (foreach_values cb st (valof s <$> ch)) ∧
  (∀ vs1 v vs2 st1 st' e,
     valof s <$> ch = vs1 ++ v :: vs2 →
     foreach_values cb st vs1 = (st1, None) → cb st1 v = (st', Some e) →
     ForEach fuel s cb st = Ret (st', Some e)) ∧
  ((∀ st v, (cb st v).2 = None) →
   ∃ st', ForEach fuel s cb st = Ret (st', None)) ∧
  (∀ f : @value E → option Err,
     ForEach fuel s (traced f) [] = Ret (valof s <$> ch, None) ∧
       Forall (λ v, f v = None) (valof s <$> ch)
     ∨
     ∃ vs1 v vs2 e, valof s <$> ch = vs1 ++ v :: vs2 ∧
       Forall (λ v, f v = None) vs1 ∧ f v = Some e ∧
       ForEach fuel s (traced f) [] = Ret (vs1 ++ [v], Some e)).
Proof.
  intros Hn Hch Hfuel.
  assert (∀ CS' (cb' : CS' → @value E → CS' * option Err) st0,
            ForEach fuel s cb' st0 =
            Ret (foreach_values cb' st0 (valof s <$> ch))) as Hrun.
  { intros CS' cb' st0. by apply (ForEach_chain s cb' n ch). }
  split_and!.
  - apply Hrun.
  - intros vs1 v vs2 st1 st' e Hvs H1 Hv. rewrite Hrun, Hvs.
    f_equal. by eapply foreach_values_stop.
  - intros Hok. rewrite Hrun.
    pose proof (foreach_values_ok cb (valof s <$> ch) st Hok) as H.
    destruct (foreach_values cb st (valof s <$> ch)) as [st' r].
    simpl in H. subst r. by exists st'.
  - intros f. rewrite Hrun.
    destruct (foreach_values_traced f (valof s <$> ch) [])
      as [[Hall ->]|(vs1 & v & vs2 & e & Hvs & Hall & Hv & ->)].
    + by left.
    + right. exists vs1, v, vs2, e. by split_and!.
Qed.

End Claims.

Lemma Contains_iff_member_witness :
  ∃ b, Contains 4 sample_list (Some 7) = Ret b ∧
    (b = true ↔
       ∃ nd, nd ∈ heap sample_list ∧
             Compare sample_list (val nd) (Some 7) = 0%Z) ∧
    (∀ vs', [Some 7; Some 3; Some 5] = Some 7 :: vs' → b = true) ∧
    ((∀ v, v ∈ [Some 7; Some 3; Some 5] → int64_compare v (Some 7) ≠ 0%Z) →
     b = false).
Proof.
  apply (Contains_iff_member int64_compare 3 sample_list
           [Some 7; Some 3; Some 5] (Some 7) 4).
  - exact sample_list_built.
  - exact int64_compare_TotalOrder.
  - lia.
  - simpl. lia.
Defined.

(** * The level generator *)

Section RandLevel.
Local Open Scope nat_scope.

Lemma bit_tail rs k : bit (rand_tail rs) k = bit rs (S k).
Proof. done. Qed.

Lemma leading_ones_le : ∀ k rs, leading_ones k rs ≤ k.
Proof.
  induction k as [|k IH]; intros rs; simpl; [done|].
  destruct (bit rs 0); [|lia]. specialize (IH (rand_tail rs)). lia.
Qed.

Lemma leading_ones_first_zero : ∀ k rs z,
  (∀ j, j < z → bit rs j = true) → bit rs z = false →
  leading_ones k rs = z `min` k.
Proof.
  induction k as [|k IH]; intros rs z Hones Hzero; simpl; [lia|].
  destruct z as [|z].
  - by rewrite Hzero.
  - rewrite (Hones 0) by lia. rewrite (IH (rand_tail rs) z); [lia| |done].
    intros j Hj. rewrite bit_tail. apply Hones. lia.
Qed.

Lemma leading_ones_all : ∀ k rs,
  (∀ j, j < k → bit rs j = true) → leading_ones k rs = k.
Proof.
  induction k as [|k IH]; intros rs Hones; simpl; [done|].
  rewrite (Hones 0) by lia. f_equal. apply IH.
  intros j Hj. rewrite bit_tail. apply Hones. lia.
Qed.

Lemma randLevel_loop_ones : ∀ k level rs,
  (∀ j, j < k → is_Some (rs j)) →
  ∃ rs', randLevel_loop k level rs =
         Ret ((level + Z.of_nat (leading_ones k rs))%Z, rs').
Proof.
  induction k as [|k IH]; intros level rs Hrs; simpl.
  - exists rs. f_equal. f_equal. lia.
  - unfold bit. destruct (Hrs 0) as [b Hb]; [lia|]. rewrite Hb.
    destruct (Z.land b 1 =? 1)%Z.
    + destruct (IH (level + 1)%Z (rand_tail rs)) as [rs' ->].
      { intros j Hj. apply (Hrs (S j)). lia. }
      exists rs'. f_equal. f_equal. lia.
    + exists (rand_tail rs). f_equal. f_equal. lia.
Qed.

(** C7.  With at least one level and a random source that does not fail,
    the level generator returns a height between 1 and [maxLevel]: 1 plus
    the number of 1-bits drawn before the first 0-bit, and [maxLevel] at
    most. *)
Theorem randLevel_height {E : Type} (s : SkipList E) rs :
  (1 ≤ maxLevel s)%Z → (∀ k, k < levels s - 1 → is_Some (rs k)) →
  ∃ lvl rs', randLevel s rs = Ret (lvl, rs') ∧
    (1 ≤ lvl ≤ maxLevel s)%Z ∧
    lvl = (1 + Z.of_nat (leading_ones (levels s - 1) rs))%Z ∧
    (∀ z, (∀ k, k < z → bit rs k = true) → bit rs z = false →
          lvl = Z.min (1 + Z.of_nat z) (maxLevel s)) ∧
    ((∀ k, k < levels s - 1 → bit rs k = true) → lvl = maxLevel s).
Proof.
  intros Hm Hrs. unfold randLevel.
  assert (Z.to_nat (maxLevel s - 1) = levels s - 1) as -> by (unfold levels; lia).
  destruct (randLevel_loop_ones (levels s - 1) 1 rs Hrs) as [rs' Hrun].
  eexists _, rs'. split; [exact Hrun|].
  pose proof (leading_ones_le (levels s - 1) rs) as Hle.
  unfold levels in *. split_and!.
  - lia.
  - lia.
  - done.
  - intros z Hones Hzero.
    rewrite (leading_ones_first_zero _ rs z Hones Hzero). lia.
  - intros Hones. rewrite (leading_ones_all _ rs Hones). lia.
Qed.

End RandLevel.

Lemma randLevel_height_witness :
  ∃ lvl rs', randLevel sample_list (list_source [1; 0; 1]) = Ret (lvl, rs') ∧
    (1 ≤ lvl ≤ maxLevel sample_list)%Z ∧
    lvl = (1 + Z.of_nat (leading_ones (levels sample_list - 1)
                           (list_source [1; 0; 1])))%Z ∧
    (∀ z, (∀ k, (k < z)%nat → bit (list_source [1; 0; 1]) k = true) →
          bit (list_source [1; 0; 1]) z = false →
          lvl = Z.min (1 + Z.of_nat z) (maxLevel sample_list)) ∧
    ((∀ k, (k < levels sample_list - 1)%nat →
           bit (list_source [1; 0; 1]) k = true) →
     lvl = maxLevel sample_list).
Proof.
  apply (randLevel_height sample_list (list_source [1; 0; 1])).
  - simpl. lia.
  - intros k _. by eexists.
Defined.

(** * The shape of a list, without the comparator contract *)

Section SearchSlots.
Context {E : Type}.
Implicit Types (s t : SkipList E) (elem : @value E).
Local Open Scope nat_scope.

(** A search that breaks at level [i] has recorded a slot of a slice. *)
Lemma insert_inner_inl s elem i : ∀ fuel nodes updates nodes' updates',
  insert_inner fuel s elem i nodes updates = Ret (inl (nodes', updates')) →
  ∃ sl, slice s nodes' = Ret sl ∧ i < length sl ∧ i < length updates ∧
        updates' = <[i := Some (nodes', i)]> updates.
Proof.
  induction fuel as [|fuel IH]; intros nodes updates nodes' updates' H;
    [done|].
  simpl in H.
  destruct (slice s nodes) as [sl| |] eqn:Hsl; simpl in H; try done.
  destruct (index sl i) as [n| |] eqn:Hn; simpl in H; try done.
  destruct (cmp s n elem) as [c| |]; simpl in H; try done.
  destruct (c =? -1)%Z.
  { destruct (next_of s n); simpl in H; try done. by eapply IH. }
  destruct (c =? 0)%Z.
  { destruct n as [p|]; [|done].
    destruct (deref s p); simpl in H; try done.
    destruct (write_val s p elem); simpl in H; done. }
  destruct (c =? 1)%Z; [|by eapply IH].
  destruct (index updates i) as [u| |] eqn:Hu; simpl in H; try done.
  injection H as <- <-. exists sl. split_and!; try done.
  - apply index_Ret in Hn. by eapply lookup_lt_Some.
  - apply index_Ret in Hu. by eapply lookup_lt_Some.
Qed.

(** A search that returns has written [elem] into a node. *)
Lemma insert_inner_inr s elem i : ∀ fuel nodes updates prev s',
  insert_inner fuel s elem i nodes updates = Ret (inr (prev, s')) →
  ∃ p nd, heap s !! p = Some nd ∧ prev = val nd ∧
          s' = set_heap s (<[p := Node elem (next nd)]> (heap s)).
Proof.
  induction fuel as [|fuel IH]; intros nodes updates prev s' H; [done|].
  simpl in H.
  destruct (slice s nodes) as [sl| |] eqn:Hsl; simpl in H; try done.
  destruct (index sl i) as [n| |] eqn:Hn; simpl in H; try done.
  destruct (cmp s n elem) as [c| |]; simpl in H; try done.
  destruct (c =? -1)%Z.
  { destruct (next_of s n); simpl in H; try done. by eapply IH. }
  destruct (c =? 0)%Z.
  { destruct n as [p|]; [|done]. unfold write_val in H.
    destruct (deref s p) as [nd| |] eqn:Hnd; simpl in H; try done.
    injection H as <- <-. apply deref_Ret in Hnd. by exists p, nd. }
  destruct (c =? 1)%Z; [|by eapply IH].
  destruct (index updates i); simpl in H; done.
Qed.

Lemma insert_outer_inl s elem : ∀ k fuel nodes updates nodes' updates',
  insert_outer fuel s elem k nodes updates = Ret (inl (nodes', updates')) →
  length updates' = length updates ∧
  (∀ j, j < k → ∃ r sl, updates' !! j = Some (Some (r, j)) ∧
                        slice s r = Ret sl ∧ j < length sl) ∧
  (∀ j, k ≤ j → updates' !! j = updates !! j).
Proof.
  induction k as [|i IH]; intros fuel nodes updates nodes' updates' H.
  - injection H as <- <-. split_and!; [done| |done]. intros j ?. lia.
  - simpl in H.
    destruct (insert_inner fuel s elem i nodes updates)
      as [[[n1 u1]|[]]| |] eqn:Hin; simpl in H; try done.
    apply insert_inner_inl in Hin as (sl & Hsl & Hi & Hiu & ->).
    apply IH in H as (Hlen & Hlow & Hhigh).
    rewrite length_insert in Hlen. split_and!; [done| |].
    + intros j Hj. destruct (decide (j = i)) as [->|Hne].
      * exists n1, sl. split_and!; try done.
        rewrite Hhigh by done. by rewrite list_lookup_insert_eq.
      * apply Hlow. lia.
    + intros j Hj. rewrite Hhigh by lia.
      rewrite list_lookup_insert_ne; [done|lia].
Qed.

Lemma insert_outer_inr s elem : ∀ k fuel nodes updates prev s',
  insert_outer fuel s elem k nodes updates = Ret (inr (prev, s')) →
  ∃ p nd, heap s !! p = Some nd ∧ prev = val nd ∧
          s' = set_heap s (<[p := Node elem (next nd)]> (heap s)).
Proof.
  induction k as [|i IH]; intros fuel nodes updates prev s' H; [done|].
  simpl in H.
  destruct (insert_inner fuel s elem i nodes updates)
    as [[[n1 u1]|[prev1 s1]]| |] eqn:Hin; simpl in H; try done.
  - by eapply IH.
  - injection H as <- <-. by eapply insert_inner_inr.
Qed.

(** Every return of [Insert], in any state: after an update in place, or
    after the loop has linked a new node at the recorded slots. *)
Lemma Insert_Ret_any s elem rs fuel prev s' rs' :
  Insert fuel s elem rs = Ret (prev, s', rs') →
  (∃ p nd, heap s !! p = Some nd ∧ prev = val nd ∧
     s' = set_heap s (<[p := Node elem (next nd)]> (heap s)) ∧ rs' = rs ∧
     insert_outer fuel s elem (levels s) SHead (replicate (levels s) None) =
       Ret (inr (prev, s')))
  ∨
  (∃ nodes updates lvl,
     insert_outer fuel s elem (levels s) SHead (replicate (levels s) None) =
       Ret (inl (nodes, updates)) ∧
     randLevel s rs = Ret (lvl, rs') ∧ (1 ≤ lvl ≤ maxLevel s)%Z ∧
     prev = None ∧
     (∀ j, j < levels s → ∃ r sl, updates !! j = Some (Some (r, j)) ∧
                                  slice s r = Ret sl ∧ j < length sl) ∧
     linked s updates elem (Z.to_nat lvl) (length (heap s)) (Z.to_nat lvl) s').
Proof.
  intros Hrun.
  assert (1 ≤ maxLevel s)%Z as Hm.
  { destruct (decide (levels s = 0)) as [H0|H0].
    - destruct (Insert_no_levels s elem rs fuel H0) as [p Hp]. congruence.
    - unfold levels in H0. lia. }
  unfold Insert in Hrun. destruct (maxLevel s <? 0)%Z; [done|].
  fold (levels s) in Hrun.
  destruct (insert_outer fuel s elem (levels s) SHead
              (replicate (levels s) None))
    as [[[nodes updates]|[prev1 s1]]| |] eqn:Hout; simpl in Hrun; try done.
  - right.
    destruct (randLevel s rs) as [[lvl rs1]| |] eqn:Hrand; simpl in Hrun;
      try done.
    pose proof (randLevel_range s rs lvl rs1 Hm Hrand) as Hlvl.
    apply insert_outer_inl in Hout as Hslots.
    destruct Hslots as (_ & Hslots & _).
    destruct (splice_new s elem (Z.to_nat lvl) updates) as (t & Hsplice & Ht).
    { intros j Hj. apply Hslots. unfold levels. lia. }
    rewrite Hsplice in Hrun. simpl in Hrun. injection Hrun as <- <- <-.
    exists nodes, updates, lvl. split_and!; try done; lia.
  - left. injection Hrun as <- <- <-.
    apply insert_outer_inr in Hout as (p & nd & ? & ? & ?).
    exists p, nd. by split_and!.
Qed.

End SearchSlots.

Section ShapeKept.
Context {E : Type}.
Implicit Types (s t : SkipList E) (elem : @value E) (ch : list ptr).
Local Open Scope nat_scope.

(** A chain stays a chain when the links of its nodes stay. *)
Lemma chain_frame s t L n0 ch :
  chain s L n0 ch →
  (∀ x nd, x ∈ ch → heap s !! x = Some nd →
     ∃ nd', heap t !! x = Some nd' ∧ next nd' !! L = next nd !! L) →
  chain t L n0 ch.
Proof.
  induction 1 as [|p nd n1 c Hnd Hn _ IH]; intros Hframe; [constructor|].
  destruct (Hframe p nd) as (nd' & Hnd' & Hn'); [left|done|].
  eapply chain_cons; [done|by rewrite Hn'|].
  apply IH. intros x ndx Hx. apply Hframe. by right.
Qed.

(** Linking [n] after the node [q] of a chain. *)
Lemma chain_insert_after s t L q n ndq ndq' ndn :
  ∀ (c1 : list ptr) n0 (c2 : list ptr),
  chain s L n0 (c1 ++ q :: c2) → q ∉ c1 → q ∉ c2 →
  (∀ x nd, x ≠ q → x ∈ c1 ++ c2 → heap s !! x = Some nd →
     ∃ nd', heap t !! x = Some nd' ∧ next nd' !! L = next nd !! L) →
  heap s !! q = Some ndq → heap t !! q = Some ndq' →
  next ndq' !! L = Some (Some n) →
  heap t !! n = Some ndn → next ndn !! L = next ndq !! L →
  chain t L n0 (c1 ++ q :: n :: c2).
Proof.
  induction c1 as [|x c1 IH]; intros n0 c2 Hch Hq1 Hq2 Hframe Hq Hq' Hqn Hn Hnn.
  - simpl in *. inversion Hch as [|p nd n1 c Hnd Hn1 Hc]; subst.
    assert (nd = ndq) as -> by congruence.
    eapply chain_cons; [done|done|].
    eapply chain_cons; [done|by rewrite Hnn|].
    eapply chain_frame; [done|]. intros y ndy Hy. apply Hframe; [|done].
    intros ->. done.
  - simpl in *. inversion Hch as [|p nd n1 c Hnd Hn1 Hc]; subst.
    apply not_elem_of_cons in Hq1 as [Hqx Hq1].
    destruct (Hframe x nd) as (nd' & Hnd' & Hn'); [done|left|done|].
    eapply chain_cons; [done|by rewrite Hn'|].
    apply IH; try done. intros y ndy ? Hy. apply Hframe; [done|by right].
Qed.

Lemma update_Shape s ch p nd elem :
  Shape s ch → heap s !! p = Some nd →
  Shape (set_heap s (<[p := Node elem (next nd)]> (heap s))) ch.
Proof.
  intros [Hm Hhd Hht (n0 & Hn0 & Hch) Hperm] Hnd.
  assert (p < length (heap s)) as Hp by by eapply lookup_lt_Some.
  split; try done.
  - intros nd' [x Hx]%list_elem_of_lookup_1. cbn [heap set_heap] in Hx.
    destruct (decide (x = p)) as [->|Hne].
    + rewrite list_lookup_insert_eq in Hx by done. injection Hx as <-.
      cbn [next]. apply Hht. by eapply list_elem_of_lookup_2.
    + rewrite list_lookup_insert_ne in Hx by done.
      apply Hht. by eapply list_elem_of_lookup_2.
  - exists n0. split; [done|]. eapply chain_frame; [done|].
    intros x ndx _ Hx. cbn [heap set_heap].
    destruct (decide (x = p)) as [->|Hne].
    + rewrite list_lookup_insert_eq by done. eexists. split; [done|].
      cbn [next]. congruence.
    + rewrite list_lookup_insert_ne by done. eauto.
  - cbn [heap set_heap]. by rewrite length_insert.
Qed.

Lemma linked_Shape s ch updates elem R t :
  Shape s ch → 1 ≤ R ≤ levels s →
  (∀ j, j < levels s → ∃ r sl, updates !! j = Some (Some (r, j)) ∧
                               slice s r = Ret sl ∧ j < length sl) →
  linked s updates elem R (length (heap s)) R t →
  ∃ ch', Shape t ch'.
Proof.
  intros [Hm Hhd Hht (n0 & Hn0 & Hch) Hperm] HR Hslots.
  intros (HC & HM & Hlen & _ & _ & Hold & (sln & Hsln & Hlenn & Hnew)).
  set (n := length (heap s)) in *.
  assert (levels t = levels s) as Hlev by (unfold levels; congruence).
  destruct (Hslots 0) as (r0 & sl0 & Hu0 & Hsl0 & Hpos0); [lia|].
  destruct (lookup_lt_is_Some_2 sl0 0 Hpos0) as [old Hold0].
  pose proof Hsln as (ndn & Hndn & Hnextn)%slice_Ret.
  assert (next ndn !! 0 = Some old) as Hn_old.
  { rewrite Hnextn, Hnew by lia. rewrite decide_True by lia.
    unfold old_of, read_slot, index. rewrite Hu0. cbn [fst snd].
    rewrite Hsl0. cbn [bind]. by rewrite Hold0. }
  assert (∀ x nd, SNext x ≠ r0 → heap s !! x = Some nd →
            0 < length (next nd) →
            ∃ nd', heap t !! x = Some nd' ∧ next nd' !! 0 = next nd !! 0)
    as Hframe.
  { intros x nd Hx Hnd Hpos.
    destruct (Hold (SNext x) (next nd)) as (sl' & Hsl' & _ & Hent).
    { by apply slice_SNext. }
    apply slice_Ret in Hsl' as (nd' & Hnd' & <-).
    exists nd'. split; [done|]. rewrite Hent by done.
    rewrite decide_False; [done|]. intros [_ Hu]. congruence. }
  assert (∀ x nd, x ∈ ch → heap s !! x = Some nd → 0 < length (next nd))
    as Hpos.
  { intros x nd _ Hnd. apply list_elem_of_lookup_2 in Hnd.
    destruct (Hht nd Hnd). lia. }
  assert (∃ ch', (∃ n0', head t !! 0 = Some n0' ∧ chain t 0 n0' ch') ∧
                 ch' ≡ₚ n :: ch) as (ch' & Hch' & Hperm').
  { destruct r0 as [|q].
    - exists (n :: ch). split; [|done]. exists (Some n). split.
      + destruct (Hold SHead (head s) eq_refl) as (sl' & [= <-] & _ & Hent).
        rewrite Hent by (rewrite Hhd; lia).
        by rewrite decide_True by (split; [lia|done]).
      + injection Hsl0 as <-. rewrite Hn0 in Hold0. injection Hold0 as <-.
        eapply chain_cons; [done|done|].
        eapply chain_frame; [done|]. intros x nd Hx Hnd.
        apply Hframe; [done|done|by eapply Hpos].
    - pose proof Hsl0 as (ndq & Hndq & <-)%slice_Ret.
      assert (q ∈ ch) as Hq.
      { rewrite Hperm, elem_of_seq. apply lookup_lt_Some in Hndq. lia. }
      apply list_elem_of_split in Hq as (c1 & c2 & ->).
      assert (NoDup (c1 ++ q :: c2)) as HND.
      { rewrite Hperm. apply NoDup_seq. }
      apply NoDup_app in HND as (_ & Hq1 & HND).
      apply NoDup_cons in HND as [Hq2 _].
      exists (c1 ++ q :: n :: c2). split.
      + exists n0. split.
        * destruct (Hold SHead (head s) eq_refl) as (sl' & [= <-] & _ & Hent).
          rewrite Hent by (rewrite Hhd; lia).
          rewrite decide_False; [done|]. intros [_ Hu]. congruence.
        * destruct (Hold (SNext q) (next ndq)) as (sl' & Hsl' & _ & Hent).
          { by apply slice_SNext. }
          apply slice_Ret in Hsl' as (ndq' & Hndq' & <-).
          eapply (chain_insert_after s t 0 q n ndq ndq' ndn); try done.
          -- intros Hq1'. apply (Hq1 q Hq1'). left.
          -- intros x nd Hne Hx Hnd. apply Hframe; [congruence|done|].
             eapply Hpos; [|done]. rewrite elem_of_app in Hx.
             rewrite elem_of_app, elem_of_cons. tauto.
          -- rewrite Hent by done.
             by rewrite decide_True by (split; [lia|done]).
          -- congruence.
      + rewrite <- !Permutation_middle. apply perm_swap. }
  exists ch'. split.
  - congruence.
  - destruct (Hold SHead (head s) eq_refl) as (sl' & [= <-] & Hl' & _).
    congruence.
  - intros nd [x Hx]%list_elem_of_lookup_1. rewrite Hlev.
    destruct (decide (x < n)) as [Hlt|Hge].
    + destruct (lookup_lt_is_Some_2 (heap s) x Hlt) as [nd0 Hnd0].
      destruct (Hold (SNext x) (next nd0)) as (sl' & Hsl' & Hl' & _).
      { by apply slice_SNext. }
      apply slice_Ret in Hsl' as (nd' & Hnd' & <-).
      assert (nd' = nd) as -> by congruence. rewrite Hl'.
      apply Hht. by eapply list_elem_of_lookup_2.
    + assert (x = n) as ->.
      { apply lookup_lt_Some in Hx. lia. }
      assert (ndn = nd) as -> by congruence. rewrite Hnextn. lia.
  - done.
  - rewrite Hperm', Hlen, seq_S. simpl. rewrite Hperm.
    by rewrite <- Permutation_cons_append.
Qed.

Lemma Insert_Shape s ch elem rs fuel prev s' rs' :
  Shape s ch → Insert fuel s elem rs = Ret (prev, s', rs') →
  maxLevel s' = maxLevel s ∧ ∃ ch', Shape s' ch'.
Proof.
  intros Hs Hrun.
  destruct (Insert_Ret_any s elem rs fuel prev s' rs' Hrun)
    as [(p & nd & Hnd & _ & -> & _)
       |(nodes & updates & lvl & _ & _ & Hlvl & _ & Hslots & Ht)].
  - split; [done|]. exists ch. by apply update_Shape.
  - split; [by destruct Ht as (_ & ? & _)|].
    eapply (linked_Shape s ch updates elem (Z.to_nat lvl)); try done.
    unfold levels. lia.
Qed.

Lemma New_Shape (c : @value E → @value E → Z) m s :
  New c m = Ret s → (1 ≤ m)%Z → maxLevel s = m ∧ Shape s [].
Proof.
  unfold New. destruct (m <? 0)%Z; [done|]. intros [= <-] Hm.
  split; [done|]. split; try done.
  - cbn [head maxLevel levels]. unfold levels. cbn [maxLevel].
    by rewrite length_replicate.
  - intros nd Hnd. by apply elem_of_nil in Hnd.
  - exists None. split; [|constructor]. cbn [head].
    apply lookup_replicate_2. lia.
Qed.

Lemma built_Shape c m s (vs : list (@value E)) :
  built c m s vs → (1 ≤ m)%Z → maxLevel s = m ∧ ∃ ch, Shape s ch.
Proof.
  intros Hb Hm. induction Hb as [s Hnew|s vs fuel v rs prev s' rs' _ IH Hrun].
  - destruct (New_Shape c m s Hnew Hm). eauto.
  - destruct IH as (HM & ch & Hs).
    destruct (Insert_Shape s ch v rs fuel prev s' rs' Hs Hrun) as (HM' & Hs').
    split; [congruence|done].
Qed.

End ShapeKept.

(** * A comparator that breaks the contract *)

Section InvalidCompare.
Context {E : Type}.
Implicit Types (s : SkipList E) (elem : @value E).
Local Open Scope nat_scope.

(** [Contains] panics on a comparison that is none of -1, 0 and 1. *)
Lemma contains_inner_invalid s elem i nodes sl n c fuel :
  slice s nodes = Ret sl → index sl i = Ret n → cmp s n elem = Ret c →
  c ≠ (-1)%Z → c ≠ 0%Z → c ≠ 1%Z →
  contains_inner (S fuel) s elem i nodes = Panic InvalidCmp.
Proof.
  intros Hsl Hn Hc H1 H2 H3. simpl. rewrite Hsl. simpl. rewrite Hn. simpl.
  rewrite Hc. simpl.
  destruct (c =? -1)%Z eqn:?; [lia|]. destruct (c =? 0)%Z eqn:?; [lia|].
  destruct (c =? 1)%Z eqn:?; [lia|]. done.
Qed.

(** [Insert] does not: its loop makes the same comparison again. *)
Lemma insert_inner_invalid s elem i nodes updates sl n c :
  slice s nodes = Ret sl → index sl i = Ret n → cmp s n elem = Ret c →
  c ≠ (-1)%Z → c ≠ 0%Z → c ≠ 1%Z →
  ∀ fuel, insert_inner fuel s elem i nodes updates = Timeout.
Proof.
  intros Hsl Hn Hc H1 H2 H3. induction fuel as [|fuel IH]; [done|].
  simpl. rewrite Hsl. simpl. rewrite Hn. simpl. rewrite Hc. simpl.
  destruct (c =? -1)%Z eqn:?; [lia|]. destruct (c =? 0)%Z eqn:?; [lia|].
  destruct (c =? 1)%Z eqn:?; [lia|]. done.
Qed.

End InvalidCompare.

(** C4.  The list that holds 4 under the comparator that always answers
    2 is built by [New] and [Insert].  On it [Contains(5)] panics with
    "invalid result code from comparison", and [Insert(5)] does not panic
    and does not return, whatever the fuel: the [switch] of its loop has
    no [default] case. *)
Theorem Insert_spins_on_invalid_compare :
  ∀ fuel rs,
    built bad_compare 1 bad_list [Some 4] ∧
    Contains (S fuel) bad_list (Some 5) = Panic InvalidCmp ∧
    Insert fuel bad_list (Some 5) rs = Timeout.
Proof.
  intros fuel rs. split_and!.
  - exact bad_list_built.
  - unfold Contains. change (Z.to_nat (maxLevel bad_list)) with 1%nat.
    cbn [contains_outer].
    by rewrite (contains_inner_invalid bad_list (Some 5) 0%nat SHead
                  [Some 0%nat] (Some 0%nat) 2 fuel).
  - unfold Insert. change (maxLevel bad_list <? 0) with false.
    change (Z.to_nat (maxLevel bad_list)) with 1%nat.
    cbn [insert_outer replicate].
    by rewrite (insert_inner_invalid bad_list (Some 5) 0%nat SHead [None]
                  [Some 0%nat] (Some 0%nat) 2).
Qed.

(** * The links a fresh insertion writes *)

Section Frame.
Context {E : Type}.
Implicit Types (s t : SkipList E) (V v : @value E) (l : list ptr)
  (vs : list (@value E)).
Local Open Scope nat_scope.

Lemma read_slot_Ret s r j x :
  read_slot s (r, j) = Ret x ↔ ∃ sl, slice s r = Ret sl ∧ sl !! j = Some x.
Proof.
  unfold read_slot. simpl. rewrite bind_Ret. split.
  - intros (sl & ? & ?%index_Ret). eauto.
  - intros (sl & ? & ?%index_Ret). eauto.
Qed.

(** C8.  When the search of [Insert(V)] ends without an equal value, with
    the slots [updates] recorded, and [Insert] returns, it has drawn a
    height [R] and returns nil.  The new node is the one allocated last,
    with value [V] and [R] forward references.  At each level [L] below
    [R] the new node's [next[L]] is what the slot recorded at [L] held
    before the call, and that slot now refers to the new node.  Every
    forward reference at a level [R] or above, of the header or of a node,
    is as it was. *)
Theorem Insert_links_new_node s V fuel rs prev s' rs' nodes updates :
  Insert fuel s V rs = Ret (prev, s', rs') →
  insert_outer fuel s V (levels s) SHead (replicate (levels s) None) =
    Ret (inl (nodes, updates)) →
  ∃ lvl nd,
    randLevel s rs = Ret (lvl, rs') ∧ (1 ≤ lvl ≤ maxLevel s)%Z ∧
    prev = None ∧
    length (heap s') = S (length (heap s)) ∧
    heap s' !! length (heap s) = Some nd ∧ val nd = V ∧
    length (next nd) = Z.to_nat lvl ∧
    (∀ L, L < Z.to_nat lvl →
       ∃ u old, updates !! L = Some (Some u) ∧
         read_slot s u = Ret old ∧ next nd !! L = Some old ∧
         read_slot s' u = Ret (Some (length (heap s)))) ∧
    (∀ r L old, Z.to_nat lvl ≤ L →
       read_slot s (r, L) = Ret old → read_slot s' (r, L) = Ret old).
Proof.
  intros Hrun Hout.
  destruct (Insert_Ret_any s V rs fuel prev s' rs' Hrun)
    as [(_ & _ & _ & _ & _ & _ & Hout')
       |(nodes' & updates' & lvl & Hout' & Hrand & Hlvl & -> & Hslots & Ht)];
    [congruence|].
  assert (updates' = updates) as -> by congruence.
  destruct Ht as (_ & _ & Hlen & _ & Hvnew & Hold & (sln & Hsln & Hlenn & Hnew)).
  pose proof Hsln as (nd & Hnd & Hnext)%slice_Ret.
  exists lvl, nd. split_and!; try done; try lia.
  - by rewrite <- (valof_lookup s' _ nd Hnd).
  - by rewrite Hnext.
  - intros L HL.
    destruct (Hslots L) as (r & sl & Hu & Hsl & HLsl); [unfold levels; lia|].
    destruct (lookup_lt_is_Some_2 sl L HLsl) as [old Hv].
    destruct (Hold r sl Hsl) as (sl' & Hsl' & _ & Hent).
    exists (r, L), old. split_and!.
    + done.
    + apply read_slot_Ret. eauto.
    + rewrite Hnext, Hnew by done. rewrite decide_True by done.
      unfold old_of, read_slot, index. rewrite Hu. cbn [fst snd].
      rewrite Hsl. cbn [bind]. by rewrite Hv.
    + apply read_slot_Ret. exists sl'. split; [done|].
      rewrite Hent by done. by rewrite decide_True.
  - intros r L old HL (sl & Hsl & Hx)%read_slot_Ret.
    destruct (Hold r sl Hsl) as (sl' & Hsl' & _ & Hent).
    apply read_slot_Ret. exists sl'. split; [done|].
    rewrite Hent by by eapply lookup_lt_Some.
    rewrite decide_False; [done|]. intros []. lia.
Qed.

End Frame.

(** * String *)

Section StringSpec.
Context {E : Type}.
Implicit Types (s t : SkipList E) (l pre suf : list ptr)
  (fmt_v : @value E → string).
Local Open Scope nat_scope.

Lemma string_values_chain s fmt_v :
  ∀ n c, chain s 0 n c → ∀ fuel acc, length c ≤ fuel →
  ∃ r, string_values fuel s fmt_v n acc = Ret r ∧
       length r = length acc + length c.
Proof.
  induction 1 as [|p nd n c Hnd Hn _ IH]; intros fuel acc Hfuel.
  - exists acc. split; [by destruct fuel|]. simpl. lia.
  - destruct fuel as [|fuel]; simpl in Hfuel; [lia|].
    simpl. unfold deref. rewrite Hnd. simpl. unfold index. rewrite Hn. simpl.
    edestruct (IH fuel) as (r & -> & Hlen); [lia|].
    exists r. split; [done|]. rewrite Hlen, length_app. simpl. lia.
Qed.

Lemma string_levels_ok : ∀ cnt lvl cur curValue inPtr lines,
  lvl + cnt ≤ length inPtr → lvl + cnt < length lines →
  ∃ inPtr' lines',
    string_levels cnt lvl cur curValue inPtr lines = Ret (inPtr', lines') ∧
    length inPtr' = length inPtr ∧ length lines' = length lines.
Proof.
  induction cnt as [|cnt IH]; intros lvl cur curValue inPtr lines Hin Hlines.
  - by exists inPtr, lines.
  - assert (∀ X Y, length X = length inPtr → length Y = length lines →
              ∃ inPtr' lines',
                string_levels cnt (S lvl) cur curValue X Y =
                  Ret (inPtr', lines') ∧
                length inPtr' = length inPtr ∧
                length lines' = length lines) as Hnext.
    { intros X Y HX HY.
      destruct (IH (S lvl) cur curValue X Y) as (i' & l' & ? & ? & ?);
        [lia|lia|].
      exists i', l'. split_and!; [done|lia|lia]. }
    simpl.
    destruct (index_lt inPtr lvl) as (b & _ & Hb); [lia|].
    destruct (index_lt lines (S lvl)) as (line & _ & Hline); [lia|].
    destruct (length cur <=? lvl) eqn:Hlen.
    + rewrite Hb. simpl. rewrite Hline. simpl.
      apply Hnext; [done|by rewrite length_insert].
    + apply Nat.leb_gt in Hlen.
      destruct (index_lt cur lvl Hlen) as (n & _ & Hn). rewrite Hn. simpl.
      destruct n as [q|]; rewrite Hb; simpl; rewrite Hline; simpl;
        apply Hnext; by rewrite length_insert.
Qed.

Lemma string_march_chain s strValues :
  ∀ n0 ch, chain s 0 n0 ch →
  ∀ r sl fuel i inPtr lines,
  slice s r = Ret sl → sl !! 0 = Some n0 → length ch < fuel →
  (-1 ≤ i)%Z → (i + Z.of_nat (length ch) < Z.of_nat (length strValues))%Z →
  length inPtr = levels s → length lines = S (levels s) →
  ∃ res, string_march fuel s strValues (Some r) i inPtr lines = Ret res.
Proof.
  induction 1 as [|p nd n1 c Hnd Hn1 _ IH];
    intros r sl fuel i inPtr lines Hsl Hn0 Hfuel Hi Hstr Hin Hlines;
    (destruct fuel as [|fuel]; [simpl in Hfuel; lia|]).
  all: assert (∃ cv, (if (i =? -1)%Z
                      then Ret (repeat_string " " minValueLen)
                      else if (i <? 0)%Z then Panic IndexOutOfRange
                           else index strValues (Z.to_nat i))
                     = Ret cv) as [cv Hcv].
  1,3: destruct (i =? -1)%Z eqn:H1; [by eexists|];
       destruct (i <? 0)%Z eqn:H2;
         [apply Z.ltb_lt in H2; apply Z.eqb_neq in H1; lia|];
       destruct (index_lt strValues (Z.to_nat i)) as (cv & _ & ->);
         [lia|by eexists].
  all: destruct (string_levels_ok (levels s) 0 sl cv inPtr lines)
         as (inPtr' & lines' & Hlev & Hin' & Hlines'); [lia|lia|].
  all: cbn [string_march]; rewrite Hsl; cbn [bind]; rewrite Hcv; cbn [bind].
  all: fold (levels s); rewrite Hlev; cbn [bind].
  all: unfold index; rewrite Hn0; cbn [bind].
  - destruct fuel; by eexists.
  - cbn [next_of]. unfold deref. rewrite Hnd. cbn [bind].
    apply (IH (SNext p) (next nd)).
    + by apply slice_SNext.
    + done.
    + simpl in Hfuel. lia.
    + lia.
    + simpl in Hstr. lia.
    + congruence.
    + congruence.
Qed.

Lemma String_chain s fmt_v n0 ch fuel :
  (1 ≤ maxLevel s)%Z → head s !! 0 = Some n0 → chain s 0 n0 ch →
  length ch < fuel →
  ∃ r, String fuel s fmt_v = Ret r.
Proof.
  intros Hm Hn Hch Hfuel.
  destruct (string_values_chain s fmt_v n0 ch Hch fuel
              [repeat_string " " minValueLen]) as (strValues & Hsv & Hlsv);
    [lia|].
  destruct (string_march_chain s strValues n0 ch Hch SHead (head s) fuel (-1)
              (replicate (Z.to_nat (maxLevel s)) false)
              (<[0 := strValues]>
                 (replicate (Z.to_nat (maxLevel s + 1)) ([] : list string))))
    as (lines' & Hmarch); try done.
  - rewrite Hlsv. simpl. lia.
  - by rewrite length_replicate.
  - rewrite length_insert, length_replicate. unfold levels. lia.
  - unfold String, index. rewrite Hn. cbn [bind]. rewrite Hsv. cbn [bind].
    destruct (maxLevel s + 1 <? 0)%Z eqn:H1; [apply Z.ltb_lt in H1; lia|].
    destruct (maxLevel s <? 0)%Z eqn:H2; [apply Z.ltb_lt in H2; lia|].
    rewrite lookup_replicate_2 by lia. cbn [bind].
    rewrite Hmarch. cbn [bind]. by eexists.
Qed.

Lemma string_values_mono s fmt_v : ∀ fuel fuel' cur acc,
  fuel ≤ fuel' → string_values fuel s fmt_v cur acc ≠ Timeout →
  string_values fuel' s fmt_v cur acc = string_values fuel s fmt_v cur acc.
Proof.
  induction fuel as [|fuel IH]; intros [|fuel'] [p|] acc Hle H;
    try done; try lia.
  simpl in *.
  destruct (deref s p) as [nd| |]; simpl in *; try done.
  destruct (index (next nd) 0) as [n'| |]; simpl in *; try done.
  apply IH; [lia|done].
Qed.

Lemma string_march_mono s strValues : ∀ fuel fuel' cur i inPtr lines,
  fuel ≤ fuel' → string_march fuel s strValues cur i inPtr lines ≠ Timeout →
  string_march fuel' s strValues cur i inPtr lines =
  string_march fuel s strValues cur i inPtr lines.
Proof.
  induction fuel as [|fuel IH]; intros [|fuel'] [r|] i inPtr lines Hle H;
    try done; try lia.
  cbn [string_march] in *.
  destruct (slice s r) as [sl| |]; cbn [bind] in *; try done.
  match goal with
  | |- bind ?m _ = _ => destruct m as [cv| |]; cbn [bind] in *; try done
  end.
  destruct (string_levels _ 0 sl cv inPtr lines) as [[inPtr' lines']| |];
    cbn [bind] in *; try done.
  destruct (index sl 0) as [n| |]; cbn [bind] in *; try done.
  match goal with
  | |- bind ?m _ = _ => destruct m as [cur'| |]; cbn [bind] in *; try done
  end.
  apply IH; [lia|done].
Qed.

Lemma String_mono s fmt_v fuel fuel' :
  fuel ≤ fuel' → String fuel s fmt_v ≠ Timeout →
  String fuel' s fmt_v = String fuel s fmt_v.
Proof.
  intros Hle H. unfold String in *.
  destruct (index (head s) 0) as [n| |]; cbn [bind] in *; try done.
  rewrite (string_values_mono s fmt_v fuel fuel') by
    (try done; by eapply bind_not_Timeout).
  destruct (string_values fuel s fmt_v n _) as [strValues| |];
    cbn [bind] in *; try done.
  destruct (maxLevel s + 1 <? 0)%Z; [done|].
  destruct (index _ 0) as [?| |]; cbn [bind] in *; try done.
  destruct (maxLevel s <? 0)%Z; [done|].
  rewrite (string_march_mono s strValues fuel fuel') by
    (try done; by eapply bind_not_Timeout).
  done.
Qed.

End StringSpec.

Section Bounds.
Context {E : Type}.
Implicit Types (s t : SkipList E) (l : list ptr) (vs : list (@value E)).
Local Open Scope nat_scope.

(** C9.  In a list built with at least one level, every node has between
    1 and [maxLevel] forward references, and every node is on the chain of
    level 0.  [ForEach] and [String], which read [head[0]] and [next[0]],
    return when given fuel for all the nodes, and do not panic whatever
    the fuel. *)
Theorem level0_in_bounds c m s vs :
  built c m s vs → (1 ≤ m)%Z →
  (∀ nd, nd ∈ heap s → 1 ≤ length (next nd) ≤ levels s) ∧
  (∃ n ch, head s !! 0 = Some n ∧ chain s 0 n ch ∧
           ch ≡ₚ seq 0 (length (heap s))) ∧
  (∀ fuel, length (heap s) < fuel →
     (∀ (CS Err : Type) (cb : CS → @value E → CS * option Err) st,
        ∃ r, ForEach fuel s cb st = Ret r) ∧
     (∀ fmt_v, ∃ r, String fuel s fmt_v = Ret r)) ∧
  (∀ fuel p,
     (∀ (CS Err : Type) (cb : CS → @value E → CS * option Err) st,
        ForEach fuel s cb st ≠ Panic p) ∧
     (∀ fmt_v, String fuel s fmt_v ≠ Panic p)).
Proof.
  intros Hb Hm.
  destruct (built_Shape c m s vs Hb Hm)
    as (_ & ch & [Hmax Hhd Hht (n & Hn & Hch) Hperm]).
  assert (length ch = length (heap s)) as Hlen.
  { rewrite Hperm. apply length_seq. }
  assert (∀ fuel, length (heap s) < fuel →
            (∀ (CS Err : Type) (cb : CS → @value E → CS * option Err) st,
               ∃ r, ForEach fuel s cb st = Ret r) ∧
            (∀ fmt_v, ∃ r, String fuel s fmt_v = Ret r)) as Hret.
  { intros fuel Hfuel. split.
    - intros CS Err cb st. eexists.
      apply (ForEach_chain s cb n ch); [done..|lia].
    - intros fmt_v. apply (String_chain s fmt_v n ch); [done..|lia]. }
  split_and!.
  - done.
  - by exists n, ch.
  - done.
  - intros fuel p.
    set (big := fuel `max` S (length (heap s))).
    destruct (Hret big) as [Hfe Hstr]; [lia|]. split.
    + intros CS Err cb st Hp. destruct (Hfe CS Err cb st) as [r Hr].
      rewrite (ForEach_mono s cb fuel big) in Hr; [congruence|lia|].
      by rewrite Hp.
    + intros fmt_v Hp. destruct (Hstr fmt_v) as [r Hr].
      rewrite (String_mono s fmt_v fuel big) in Hr; [congruence|lia|].
      by rewrite Hp.
Qed.

End Bounds.

(** * The claims on concrete lists *)

Lemma Insert_returns_nil_on_update :
  built int64_compare 1 nil_list [None] ∧
  Insert 2 nil_list None (const_source 0) =
    Ret (None, nil_list, const_source 0) ∧
  ∃ nd, nd ∈ heap nil_list ∧ Compare nil_list (val nd) None = 0.
Proof.
  split; [exact nil_list_built|]. split; [reflexivity|].
  exists (Node None [None]). split; [left|reflexivity].
Qed.

Lemma Insert_fresh_or_update_witness :
  ∃ prev s' rs',
    Insert 4 sample_list (Some 4) (const_source 0) = Ret (prev, s', rs') ∧
    (((∀ nd, nd ∈ heap sample_list →
             Compare sample_list (val nd) (Some 4) ≠ 0) ∧
      prev = None ∧ length (heap s') = S (length (heap sample_list)))
     ∨
     (∃ p nd, heap sample_list !! p = Some nd ∧
        Compare sample_list (val nd) (Some 4) = 0 ∧
        prev = val nd ∧
        heap s' = <[p := Node (Some 4) (next nd)]> (heap sample_list) ∧
        head s' = head sample_list ∧ rs' = const_source 0)) ∧
    ((∀ nd, nd ∈ heap sample_list → val nd ≠ None) →
     (prev = None ↔
      ∀ nd, nd ∈ heap sample_list →
            Compare sample_list (val nd) (Some 4) ≠ 0)).
Proof.
  apply (Insert_fresh_or_update int64_compare 3 sample_list
           [Some 7; Some 3; Some 5] (Some 4) 4 (const_source 0)).
  - exact sample_list_built.
  - exact int64_compare_TotalOrder.
  - lia.
  - simpl. lia.
  - intros k. by eexists.
Defined.

Lemma Insert_nil_ambiguous_witness :
  (∃ s', Insert 2 nil_list None (const_source 0) =
           Ret (None, s', const_source 0) ∧
         length (heap s') = length (heap nil_list)) ∧
  (∀ s0, New int64_compare 1 = Ret s0 →
     ∃ s1 rs1, Insert 2 s0 None (const_source 0) = Ret (None, s1, rs1) ∧
               length (heap s1) = S (length (heap s0))).
Proof.
  apply (Insert_nil_ambiguous int64_compare 1 nil_list [None] None 2
           (const_source 0)).
  - exact nil_list_built.
  - exact int64_compare_TotalOrder.
  - lia.
  - simpl. lia.
  - intros k. by eexists.
  - exists (Node None [None]). split; [left|]. split; reflexivity.
Defined.

Lemma ForEach_distinct_sorted_witness :
  ∃ out, out ≡ₚ [Some 7; Some 3; Some 5] ∧
    StronglySorted (λ a b, int64_compare a b = -1) out ∧
    (∀ (CS : Type) (cb : CS → @value Z → CS * option failure) st,
       ForEach 3 sample_list cb st = Ret (foreach_values cb st out)) ∧
    ForEach 3 sample_list (traced (λ _, @None failure)) [] = Ret (out, None).
Proof.
  apply (ForEach_distinct_sorted int64_compare 3 sample_list
           [Some 7; Some 3; Some 5] 3).
  - exact sample_list_built.
  - exact int64_compare_TotalOrder.
  - lia.
  - simpl. split_and!; repeat constructor; done.
  - simpl. lia.
Defined.

Lemma levels_strictly_increasing_witness :
  ∃ n ch, head sample_list !! 1%nat = Some n ∧ chain sample_list 1 n ch ∧
    (∀ ch', chain sample_list 1 n ch' → ch' = ch) ∧
    StronglySorted (λ a b, Compare sample_list a b = -1)
      (valof sample_list <$> ch).
Proof.
  apply (levels_strictly_increasing int64_compare 3 sample_list
           [Some 7; Some 3; Some 5] 1).
  - exact sample_list_built.
  - exact int64_compare_TotalOrder.
  - unfold levels. simpl. lia.
Defined.

Lemma sample_list_chain0 :
  chain sample_list 0 (Some 1%nat) [1%nat; 0%nat; 2%nat].
Proof. repeat (econstructor; [reflexivity|reflexivity|]). constructor. Qed.

Lemma ForEach_stops_at_failure_witness :
  ForEach 3 sample_list (traced fails_on_5) [] =
    Ret (foreach_values (traced fails_on_5) []
           (valof sample_list <$> [1%nat; 0%nat; 2%nat])) ∧
  (∀ vs1 v vs2 st1 st' e,
     valof sample_list <$> [1%nat; 0%nat; 2%nat] = vs1 ++ v :: vs2 →
     foreach_values (traced fails_on_5) [] vs1 = (st1, None) →
     traced fails_on_5 st1 v = (st', Some e) →
     ForEach 3 sample_list (traced fails_on_5) [] = Ret (st', Some e)) ∧
  ((∀ st v, (traced fails_on_5 st v).2 = None) →
   ∃ st', ForEach 3 sample_list (traced fails_on_5) [] = Ret (st', None)) ∧
  (∀ f : @value Z → option failure,
     ForEach 3 sample_list (traced f) [] =
       Ret (valof sample_list <$> [1%nat; 0%nat; 2%nat], None) ∧
       Forall (λ v, f v = None) (valof sample_list <$> [1%nat; 0%nat; 2%nat])
     ∨
     ∃ vs1 v vs2 e,
       valof sample_list <$> [1%nat; 0%nat; 2%nat] = vs1 ++ v :: vs2 ∧
       Forall (λ v, f v = None) vs1 ∧ f v = Some e ∧
       ForEach 3 sample_list (traced f) [] = Ret (vs1 ++ [v], Some e)).
Proof.
  apply (ForEach_stops_at_failure sample_list (traced fails_on_5)
           (Some 1%nat) [1%nat; 0%nat; 2%nat] 3 []).
  - reflexivity.
  - exact sample_list_chain0.
  - simpl. lia.
Defined.

Lemma Insert_links_new_node_witness :
  ∃ lvl nd,
    randLevel sample_list (list_source [1; 0]) =
      Ret (lvl, rand_tail (rand_tail (list_source [1; 0]))) ∧
    (1 ≤ lvl ≤ maxLevel sample_list) ∧
    @None Z = None ∧
    length (heap sample_list_4) = S (length (heap sample_list)) ∧
    heap sample_list_4 !! length (heap sample_list) = Some nd ∧
    val nd = Some 4 ∧
    length (next nd) = Z.to_nat lvl ∧
    (∀ L, (L < Z.to_nat lvl)%nat →
       ∃ u old,
         [Some (SNext 1, 0%nat); Some (SHead, 1%nat); Some (SHead, 2%nat)]
           !! L = Some (Some u) ∧
         read_slot sample_list u = Ret old ∧ next nd !! L = Some old ∧
         read_slot sample_list_4 u = Ret (Some (length (heap sample_list)))) ∧
    (∀ r L old, (Z.to_nat lvl ≤ L)%nat →
       read_slot sample_list (r, L) = Ret old →
       read_slot sample_list_4 (r, L) = Ret old).
Proof.
  apply (Insert_links_new_node sample_list (Some 4) 4 (list_source [1; 0])
           None sample_list_4 (rand_tail (rand_tail (list_source [1; 0])))
           (SNext 1)
           [Some (SNext 1, 0%nat); Some (SHead, 1%nat); Some (SHead, 2%nat)]).
  - reflexivity.
  - reflexivity.
Defined.

Lemma level0_in_bounds_witness :
  (∀ nd, nd ∈ heap sample_list →
         (1 ≤ length (next nd) ≤ levels sample_list)%nat) ∧
  (∃ n ch, head sample_list !! 0%nat = Some n ∧ chain sample_list 0 n ch ∧
           ch ≡ₚ seq 0 (length (heap sample_list))) ∧
  (∀ fuel, (length (heap sample_list) < fuel)%nat →
     (∀ (CS Err : Type) (cb : CS → @value Z → CS * option Err) st,
        ∃ r, ForEach fuel sample_list cb st = Ret r) ∧
     (∀ fmt_v, ∃ r, String fuel sample_list fmt_v = Ret r)) ∧
  (∀ fuel p,
     (∀ (CS Err : Type) (cb : CS → @value Z → CS * option Err) st,
        ForEach fuel sample_list cb st ≠ Panic p) ∧
     (∀ fmt_v, String fuel sample_list fmt_v ≠ Panic p)).
Proof.
  apply (level0_in_bounds int64_compare 3 sample_list [Some 7; Some 3; Some 5]).
  - exact sample_list_built.
  - lia.
Defined.

(** The scenario of the tests, with heights drawn from the bytes 1, 0, 0,
    1, 1, 0, 1, 0: the second [Insert(5)] returns 5, and the traversal is
    in ascending order. *)
Example scenario_result :
  scenario 10 (list_source [1; 0; 0; 1; 1; 0; 1; 0]) =
  Ret ([None; None; Some 5; None; None], false, true,
       ([Some (-2); Some 3; Some 5; Some 7], None)).
Proof. reflexivity. Qed.

(** * The list as a sorted sequence: helper lemmas *)

Section Refine.
Context {E : Type}.
Implicit Types (s t : SkipList E) (elem v : @value E) (l : list ptr)
  (vs : list (@value E)).
Local Open Scope nat_scope.

Lemma sorted_insert_update c v (a b : list (@value E)) p :
  Forall (λ w, c w v = (-1)%Z) a → c p v = 0%Z →
  sorted_insert c v (a ++ p :: b) = a ++ v :: b.
Proof.
  intros Ha Hp. induction Ha as [|w a Hw _ IH]; simpl.
  - by rewrite Hp.
  - by rewrite Hw, IH.
Qed.

Lemma sorted_insert_fresh c v (pre suf : list (@value E)) :
  Forall (λ w, c w v = (-1)%Z) pre → Forall (λ w, c w v = 1%Z) suf →
  sorted_insert c v (pre ++ suf) = pre ++ v :: suf.
Proof.
  intros Hpre Hsuf. induction Hpre as [|w pre Hw _ IH]; simpl.
  - destruct Hsuf as [|w suf Hw _]; [done|]. simpl. by rewrite Hw.
  - by rewrite Hw, IH.
Qed.

(** The values before an equal one are less than the new value. *)
Lemma sorted_prefix_lt c (a b : list (@value E)) p v :
  TotalOrder c →
  StronglySorted (λ x y, c x y = (-1)%Z) (a ++ p :: b) → c p v = 0%Z →
  Forall (λ w, c w v = (-1)%Z) a.
Proof.
  intros Hc Hs Hp. induction a as [|w a IH]; [constructor|].
  simpl in Hs. apply StronglySorted_inv in Hs as [Hs Hw].
  constructor; [|by apply IH].
  rewrite Forall_app, Forall_cons in Hw. destruct Hw as (_ & Hw & _).
  apply (cmp_lt_le_trans c Hc w p v); [done|lia].
Qed.

Lemma inv_values_sorted s l :
  Inv s l → StronglySorted (λ x y, Compare s x y = (-1)%Z) (valof s <$> l).
Proof.
  intros HInv. eapply StronglySorted_fmap; [|apply (inv_sorted s l HInv)].
  done.
Qed.

(** The values along level 0 are those of the sorted sequence. *)
Lemma built_values c m s vs :
  built c m s vs → TotalOrder c →
  ∃ l, Inv s l ∧ Compare s = c ∧ maxLevel s = m ∧
       valof s <$> l = values_of c vs.
Proof.
  intros Hb Hc. induction Hb as [s Hnew|s vs fuel v rs prev s' rs' Hb IH Hrun].
  - apply New_Inv in Hnew as (HInv & HC & HM & _).
    exists []. by split_and!.
  - destruct IH as (l & HInv & HC & HM & Hvals).
    rewrite <- HC in Hc.
    destruct (Insert_Inv s l v rs fuel prev s' rs' HInv Hc Hrun)
      as (HC' & HM' & _ & [(a & b & HInv' & _ & Hv & Heq & Hv')
                          |(pre & suf & Hl & -> & HInv' & _ & Hpre & Hsuf
                            & Hv')]).
    + exists l. split_and!; try congruence.
      rewrite Hv'. simpl. rewrite <- Hvals, Hv, <- HC.
      symmetry. apply sorted_insert_update; [|done].
      apply (sorted_prefix_lt (Compare s) a b prev v Hc); [|done].
      rewrite <- Hv. by apply inv_values_sorted.
    + eexists. split; [exact HInv'|]. split_and!; try congruence.
      rewrite Hv'. simpl. rewrite <- Hvals, Hl, fmap_app, <- HC.
      symmetry. by apply sorted_insert_fresh.
Qed.

End Refine.
Section Refine2.
Context {E : Type}.
Implicit Types (s t : SkipList E) (elem v : @value E) (l : list ptr)
  (vs : list (@value E)).
Local Open Scope nat_scope.

Lemma sorted_equal_unique c (l : list (@value E)) x y V :
  TotalOrder c → StronglySorted (λ x y, c x y = (-1)%Z) l →
  x ∈ l → y ∈ l → c x V = 0%Z → c y V = 0%Z → x = y.
Proof.
  intros Hc Hs Hx Hy HxV HyV.
  assert (c x y = 0%Z) as Hxy.
  { eapply (cmp_eq_trans c Hc); [exact HxV|]. by apply (cmp_eq_sym c Hc). }
  assert (c y x = 0%Z) as Hyx by by apply (cmp_eq_sym c Hc).
  induction Hs as [|w l Hs IH Hw]; [by apply elem_of_nil in Hx|].
  rewrite Forall_forall in Hw.
  apply elem_of_cons in Hx as [->|Hx]; apply elem_of_cons in Hy as [->|Hy].
  - done.
  - specialize (Hw y Hy). lia.
  - specialize (Hw x Hx). lia.
  - by apply IH.
Qed.

Lemma lookup_equal_Some c V (l : list (@value E)) x :
  lookup_equal c V l = Some x → x ∈ l ∧ c x V = 0%Z.
Proof.
  induction l as [|w l IH]; simpl; [done|].
  destruct (c w V =? 0)%Z eqn:Hw.
  - intros [= <-]. split; [left|lia].
  - intros [? ?]%IH. split; [by right|done].
Qed.

Lemma lookup_equal_None c V (l : list (@value E)) :
  lookup_equal c V l = None → Forall (λ w, c w V ≠ 0%Z) l.
Proof.
  induction l as [|w l IH]; simpl; [constructor|].
  destruct (c w V =? 0)%Z eqn:Hw; [done|].
  intros H. constructor; [lia|by apply IH].
Qed.

(** The value a built list holds that is equal to [V] is the one
    inserted last among the values equal to [V]. *)
Lemma built_latest c m s vs V :
  built c m s vs → TotalOrder c →
  ∃ l, Inv s l ∧ Compare s = c ∧ maxLevel s = m ∧
    (∀ x, x ∈ valof s <$> l → c x V = 0%Z → lookup_equal c V vs = Some x) ∧
    (Forall (λ x, c x V ≠ 0%Z) (valof s <$> l) → lookup_equal c V vs = None).
Proof.
  intros Hb Hc. induction Hb as [s Hnew|s vs fuel v rs prev s' rs' Hb IH Hrun].
  - apply New_Inv in Hnew as (HInv & HC & HM & _).
    exists []. split_and!; try done. intros x Hx. by apply elem_of_nil in Hx.
  - destruct IH as (l & HInv & HC & HM & Hsome & Hnone).
    pose proof Hc as Hc'. rewrite <- HC in Hc'.
    destruct (Insert_Inv s l v rs fuel prev s' rs' HInv Hc' Hrun)
      as (HC' & HM' & _ & Hcases).
    assert (∃ l' a b, Inv s' l' ∧ valof s' <$> l' = a ++ v :: b ∧
              (∀ x, x ∈ a ++ b → x ∈ valof s <$> l) ∧
              (∀ x, x ∈ valof s <$> l → c x v ≠ 0%Z → x ∈ a ++ b))
      as (l' & a & b & HInv' & Hv' & Hsub & Hsup).
    { destruct Hcases as [(a & b & HInv' & _ & Hv & Heq & Hv')
                         |(pre & suf & Hl & -> & HInv' & _ & Hpre & Hsuf
                           & Hv')].
      - exists l, a, b. split_and!; try done.
        + intros x. rewrite Hv, !elem_of_app, elem_of_cons. tauto.
        + intros x. rewrite Hv, !elem_of_app, elem_of_cons.
          intros [?|[->|?]] Hne; auto. by rewrite HC in Heq.
      - eexists _, _, _. split_and!; [exact HInv'|exact Hv'|..].
        + intros x. by rewrite Hl, fmap_app.
        + intros x. by rewrite Hl, fmap_app. }
    exists l'. split_and!; try congruence.
    + intros x Hx HxV. simpl. destruct (c v V =? 0)%Z eqn:HvV.
      * f_equal. apply (sorted_equal_unique c (valof s' <$> l') v x V);
          try done; try lia.
        -- rewrite <- HC, <- HC'. by apply inv_values_sorted.
        -- rewrite Hv', elem_of_app, elem_of_cons. auto.
      * apply Hsome; [|done]. apply Hsub.
        rewrite Hv', !elem_of_app, elem_of_cons in Hx.
        rewrite elem_of_app. destruct Hx as [?|[->|?]]; auto. lia.
    + rewrite Hv'. intros Hall. simpl.
      rewrite Forall_app, Forall_cons in Hall. destruct Hall as (Ha & Hv & Hb').
      destruct (c v V =? 0)%Z eqn:HvV; [lia|].
      apply Hnone. apply Forall_forall. intros x Hx Hx0.
      assert (c x v ≠ 0%Z) as Hxv.
      { intros Hxv. apply Hv. eapply (cmp_eq_trans c Hc); [|exact Hx0].
        by apply (cmp_eq_sym c Hc). }
      specialize (Hsup x Hx Hxv). rewrite elem_of_app in Hsup.
      rewrite Forall_forall in Ha, Hb'. destruct Hsup as [Hin|Hin]; [exact (Ha x Hin Hx0)|exact (Hb' x Hin Hx0)].
Qed.

End Refine2.

Lemma built_Insert_prev {E : Type} (c : @value E → @value E → Z) m s vs V
    fuel rs prev s' rs' :
  built c m s vs → TotalOrder c →
  Insert fuel s V rs = Ret (prev, s', rs') →
  prev = default None (lookup_equal c V vs).
Proof.
  intros Hb Hc Hrun.
  destruct (built_latest c m s vs V Hb Hc)
    as (l & HInv & HC & HM & Hsome & Hnone).
  pose proof Hc as Hc'. rewrite <- HC in Hc'.
  destruct (Insert_Inv s l V rs fuel prev s' rs' HInv Hc' Hrun)
    as (_ & _ & _ & [(a & b & _ & Hlen & Hv & Heq & _)
                    |(pre & suf & Hl & -> & _ & Hlen & Hpre & Hsuf & _)]).
  - rewrite HC in Heq. rewrite (Hsome prev); [done| |done].
    rewrite Hv, elem_of_app, elem_of_cons. auto.
  - rewrite Hnone; [done|].
    rewrite Hl, fmap_app, Forall_app. rewrite HC in Hpre, Hsuf.
    split; eapply Forall_impl; try done; simpl; intros; lia.
Qed.

(** * The list and the sequence of the values inserted *)

Section Sequence.
Context {E : Type}.
Implicit Types (s t : SkipList E) (V v : @value E) (l : list ptr)
  (vs : list (@value E)).
Local Open Scope nat_scope.

(** A built list has at most one node for each call of [Insert]. *)
Lemma built_heap_le c m s vs : built c m s vs → length (heap s) ≤ length vs.
Proof.
  induction 1 as [s Hnew|s vs fuel v rs prev s' rs' Hb IH Hrun].
  - unfold New in Hnew. destruct (m <? 0)%Z; [done|]. by injection Hnew as <-.
  - simpl.
    destruct (Insert_Ret_any s v rs fuel prev s' rs' Hrun)
      as [(p & nd & _ & _ & -> & _)
         |(nodes & updates & lvl & _ & _ & _ & _ & _ & Hlinked)].
    + cbn [heap set_heap]. rewrite length_insert. lia.
    + destruct Hlinked as (_ & _ & -> & _). lia.
Qed.

(** X1.  A list built by [Insert]s under the comparator contract is, for
    [ForEach], the sorted sequence of the values inserted: the callback runs
    over [values_of c vs], where each value was put after the smaller
    ones, or in the place of the equal one.  The heights drawn play no
    part; and the list has one node for each value of this sequence. *)
Theorem ForEach_sorted_sequence {CS Err : Type} c m s vs fuel
    (cb : CS → @value E → CS * option Err) st :
  built c m s vs → TotalOrder c → (1 ≤ m)%Z → length vs ≤ fuel →
  ForEach fuel s cb st = Ret (foreach_values cb st (values_of c vs)) ∧
  length (heap s) = length (values_of c vs).
Proof.
  intros Hb Hc Hm Hfuel.
  destruct (built_values c m s vs Hb Hc) as (l & HInv & HC & HM & Hvals).
  rewrite <- HM in Hm.
  destruct (inv_chain0 s l HInv Hm) as (n & Hn & Hch).
  pose proof (inv_length s l HInv) as Hlen.
  pose proof (built_heap_le c m s vs Hb) as Hle.
  split.
  - rewrite <- Hvals. apply (ForEach_chain s cb n l); [done|done|lia].
  - by rewrite <- Hvals, length_fmap.
Qed.

(** X2.  In a list built under the comparator contract, [Contains(V)] is
    true exactly when some value handed to [Insert] so far is equal to
    [V]: no value is lost by later insertions. *)
Theorem Contains_iff_inserted c m s vs V fuel :
  built c m s vs → TotalOrder c → (1 ≤ m)%Z → length vs < fuel →
  ∃ b, Contains fuel s V = Ret b ∧
       (b = true ↔ ∃ v, v ∈ vs ∧ c v V = 0%Z).
Proof.
  intros Hb Hc Hm Hfuel.
  destruct (built_Inv c m s vs Hb Hc)
    as (l & HInv & HC & HM & Hsub & Hsup & _).
  pose proof (built_heap_le c m s vs Hb) as Hle.
  pose proof Hc as Hc'. rewrite <- HC in Hc'. rewrite <- HM in Hm.
  destruct (Contains_spec s l V fuel HInv Hc' Hm) as (b & Hrun & Hiff); [lia|].
  exists b. split; [done|]. rewrite Hiff, HC. split.
  - intros (x & Hx & HxV). exists x. split; [by apply Hsub|done].
  - intros (v & Hv & HvV). destruct (Hsup v Hv) as (x & Hx & Hxv).
    exists x. split; [done|]. by apply (cmp_eq_trans c Hc x v V).
Qed.


End Sequence.

Lemma ForEach_sorted_sequence_witness :
  ForEach 3 sample_list (traced (λ _, @None failure)) [] =
    Ret (foreach_values (traced (λ _, @None failure)) []
           (values_of int64_compare [Some 7; Some 3; Some 5])) ∧
  length (heap sample_list) =
    length (values_of int64_compare [Some 7; Some 3; Some 5]).
Proof.
  apply (ForEach_sorted_sequence int64_compare 3 sample_list
           [Some 7; Some 3; Some 5] 3).
  - exact sample_list_built.
  - exact int64_compare_TotalOrder.
  - lia.
  - simpl. lia.
Defined.

Lemma Contains_iff_inserted_witness :
  ∃ b, Contains 4 sample_list (Some 3) = Ret b ∧
       (b = true ↔
        ∃ v, v ∈ [Some 7; Some 3; Some 5] ∧ int64_compare v (Some 3) = 0).
Proof.
  apply (Contains_iff_inserted int64_compare 3 sample_list
           [Some 7; Some 3; Some 5] (Some 3) 4).
  - exact sample_list_built.
  - exact int64_compare_TotalOrder.
  - lia.
  - simpl. lia.
Defined.


(** * The structure of a built list *)

Section Structure.
Context {E : Type}.
Implicit Types (s t : SkipList E) (V v : @value E) (l : list ptr)
  (vs : list (@value E)).
Local Open Scope nat_scope.

Lemma Contains_mono s V fuel fuel' :
  fuel ≤ fuel' → Contains fuel s V ≠ Timeout →
  Contains fuel' s V = Contains fuel s V.
Proof.
  intros Hle H. unfold Contains in *.
  rewrite (contains_outer_mono s V _ fuel fuel') by
    (try done; by eapply bind_not_Timeout).
  done.
Qed.

Lemma filter_sublist_impl {A} (P Q : A → Prop)
    `{∀ x, Decision (P x)} `{∀ x, Decision (Q x)} (l : list A) :
  (∀ x, P x → Q x) → filter P l `sublist_of` filter Q l.
Proof.
  intros HPQ. induction l as [|x l IH]; [done|].
  rewrite !filter_cons. destruct (decide (P x)) as [HP|HP].
  - rewrite decide_True by auto. by constructor.
  - destruct (decide (Q x)); [by constructor|done].
Qed.

(** X4.  In a list built under the comparator contract, the chain of
    level [L] holds exactly the nodes with more than [L] forward
    references, and it is a sub-list of the chain of every lower level:
    a higher level skips nodes of the lower ones, and never reorders
    them. *)
Theorem levels_nest c m s vs L :
  built c m s vs → TotalOrder c → L < levels s →
  ∃ n ch, head s !! L = Some n ∧ chain s L n ch ∧
    (∀ p, p ∈ ch ↔ ∃ nd, heap s !! p = Some nd ∧ L < length (next nd)) ∧
    (∀ L' n' ch', L' ≤ L → head s !! L' = Some n' → chain s L' n' ch' →
       ch `sublist_of` ch').
Proof.
  intros Hb Hc HL.
  destruct (built_Inv c m s vs Hb Hc) as (l & HInv & _).
  destruct (inv_chain_head s l L HInv HL) as (n & Hn & Hch).
  exists n, (filter (λ p, L < height s p) l). split_and!; try done.
  - intros p. rewrite list_elem_of_filter, (inv_elem s l p HInv). split.
    + intros [Hh Hp]. apply lookup_lt_is_Some in Hp as [nd Hnd].
      exists nd. split; [done|]. by rewrite (height_lookup s p nd Hnd) in Hh.
    + intros (nd & Hnd & Hh). split.
      * by rewrite (height_lookup s p nd Hnd).
      * by eapply lookup_lt_Some.
  - intros L' n' ch' HL' Hn' Hch'.
    destruct (inv_chain_head s l L' HInv) as (n1 & Hn1 & Hch1); [lia|].
    assert (n1 = n') as -> by congruence.
    rewrite (chain_unique s L' n' ch' _ Hch' Hch1).
    apply filter_sublist_impl. intros p. lia.
Qed.

(** X5.  Whatever the comparator and the state, a call of [Insert] that
    returns keeps the comparator, [maxLevel] and the number of levels of
    the header; it removes no node and adds at most one; and every node
    that was there keeps its number of forward references, and its value
    unless it is the node updated, which then holds the new value. *)
Theorem Insert_keeps_nodes s V fuel rs prev s' rs' :
  Insert fuel s V rs = Ret (prev, s', rs') →
  Compare s' = Compare s ∧ maxLevel s' = maxLevel s ∧
  length (head s') = length (head s) ∧
  length (heap s) ≤ length (heap s') ≤ S (length (heap s)) ∧
  ∀ p nd, heap s !! p = Some nd →
    ∃ nd', heap s' !! p = Some nd' ∧
      length (next nd') = length (next nd) ∧
      (val nd' = val nd ∨ (val nd' = V ∧ prev = val nd)).
Proof.
  intros Hrun.
  destruct (Insert_Ret_any s V rs fuel prev s' rs' Hrun)
    as [(y & ndy & Hy & -> & -> & _)
       |(nodes & updates & lvl & _ & _ & _ & _ & _ & Hlinked)].
  - cbn [Compare maxLevel head heap set_heap]. rewrite length_insert.
    split_and!; try done; try lia.
    intros p nd Hnd. destruct (decide (p = y)) as [->|Hne].
    + exists (Node V (next ndy)). assert (nd = ndy) as -> by congruence.
      split_and!; [|done|by right].
      apply list_lookup_insert_eq. by eapply lookup_lt_Some.
    + exists nd. split_and!; [|done|by left].
      by rewrite list_lookup_insert_ne.
  - destruct Hlinked as (HC & HM & Hlen & Hvals & _ & Hsl & _).
    split_and!; try done; try lia.
    + destruct (Hsl SHead (head s) eq_refl) as (sl' & Hsl' & Hl & _).
      simpl in Hsl'. by injection Hsl' as <-.
    + intros p nd Hnd.
      destruct (Hsl (SNext p) (next nd)) as (sl' & Hsl' & Hl & _).
      { by apply slice_SNext. }
      simpl in Hsl'. unfold deref in Hsl'.
      destruct (heap s' !! p) as [nd'|] eqn:Hnd'; [|done].
      simpl in Hsl'. injection Hsl' as <-.
      exists nd'. split_and!; [done|done|left].
      specialize (Hvals p). unfold valof in Hvals.
      rewrite Hnd, Hnd' in Hvals. apply Hvals. by eapply lookup_lt_Some.
Qed.

(** X6.  On a list built under the comparator contract with at least one
    level, [Contains] never panics, and [Insert] panics only when the
    random source fails, whatever the fuel: no nil pointer is
    dereferenced and no index is out of range. *)
Theorem search_never_panics c m s vs V fuel rs p :
  built c m s vs → TotalOrder c → (1 ≤ m)%Z →
  Contains fuel s V ≠ Panic p ∧
  (Insert fuel s V rs = Panic p → p = RandFailure).
Proof.
  intros Hb Hc Hm.
  destruct (built_Inv c m s vs Hb Hc) as (l & HInv & HC & HM & _).
  rewrite <- HC in Hc. rewrite <- HM in Hm.
  set (fuel' := fuel `max` S (length (heap s))). split.
  - intros Hrun.
    destruct (Contains_spec s l V fuel' HInv Hc Hm) as (b & Hb' & _); [lia|].
    rewrite (Contains_mono s V fuel fuel') in Hb'; [congruence|lia|].
    by rewrite Hrun.
  - intros Hrun.
    assert (Insert fuel' s V rs = Panic p) as Hrun'.
    { rewrite (Insert_mono s V rs fuel fuel'); [done|lia|by rewrite Hrun]. }
    destruct (Insert_spec s l V rs fuel' HInv Hc Hm)
      as [(y & nd & _ & _ & _ & Hr)
         |(pre & suf & updates & _ & _ & _ & _ & _
           & [[_ Hr]|(lvl & rs1 & t & _ & _ & Hr & _)])]; [lia|..];
      congruence.
Qed.

End Structure.

Lemma levels_nest_witness :
  ∃ n ch, head sample_list !! 1%nat = Some n ∧ chain sample_list 1 n ch ∧
    (∀ p, p ∈ ch ↔ ∃ nd, heap sample_list !! p = Some nd ∧
                         (1 < length (next nd))%nat) ∧
    (∀ L' n' ch', (L' ≤ 1)%nat → head sample_list !! L' = Some n' →
       chain sample_list L' n' ch' → ch `sublist_of` ch').
Proof.
  apply (levels_nest int64_compare 3 sample_list [Some 7; Some 3; Some 5] 1).
  - exact sample_list_built.
  - exact int64_compare_TotalOrder.
  - unfold levels. simpl. lia.
Defined.

Lemma Insert_keeps_nodes_witness :
  Compare sample_list_4 = Compare sample_list ∧
  maxLevel sample_list_4 = maxLevel sample_list ∧
  length (head sample_list_4) = length (head sample_list) ∧
  (length (heap sample_list) ≤ length (heap sample_list_4)
     ≤ S (length (heap sample_list)))%nat ∧
  ∀ p nd, heap sample_list !! p = Some nd →
    ∃ nd', heap sample_list_4 !! p = Some nd' ∧
      length (next nd') = length (next nd) ∧
      (val nd' = val nd ∨ (val nd' = Some 4 ∧ None = val nd)).
Proof.
  apply (Insert_keeps_nodes sample_list (Some 4) 4 (list_source [1; 0])
           None sample_list_4 (rand_tail (rand_tail (list_source [1; 0])))).
  reflexivity.
Defined.

Lemma search_never_panics_witness :
  Contains 4 sample_list (Some 4) ≠ Panic RandFailure ∧
  (Insert 4 sample_list (Some 4) failing_source = Panic RandFailure →
   RandFailure = RandFailure).
Proof.
  apply (search_never_panics int64_compare 3 sample_list
           [Some 7; Some 3; Some 5] (Some 4) 4 failing_source RandFailure).
  - exact sample_list_built.
  - exact int64_compare_TotalOrder.
  - lia.
Defined.

(** * The random source *)

Section Random.
Context {E : Type}.
Implicit Types (s t : SkipList E) (V v : @value E) (l : list ptr)
  (vs : list (@value E)).
Local Open Scope nat_scope.

(** The bytes [randLevel_loop] reads: one for each level it adds, and one
    more when it stops below the last level. *)
Lemma randLevel_loop_reads : ∀ k level rs lvl rs',
  randLevel_loop k level rs = Ret (lvl, rs') →
  ∃ d, (∀ j, rs' j = rs (j + d)) ∧
       Z.of_nat d = (if (lvl <? level + Z.of_nat k)%Z
                     then lvl - level + 1 else lvl - level)%Z.
Proof.
  induction k as [|k IH]; intros level rs lvl rs' H; simpl in H.
  - injection H as <- <-. exists 0. split.
    + intros j. by rewrite Nat.add_0_r.
    + destruct (_ <? _)%Z eqn:Hlt; [|lia].
      apply Z.ltb_lt in Hlt. lia.
  - destruct (rs 0) as [b|] eqn:Hb; [|done].
    destruct (Z.land b 1 =? 1)%Z.
    + destruct (IH _ _ _ _ H) as (d & Hd & Hlen). exists (S d). split.
      * intros j. rewrite Hd. unfold rand_tail. f_equal. lia.
      * replace (level + 1 + Z.of_nat k)%Z with (level + Z.of_nat (S k))%Z
          in Hlen by lia.
        destruct (_ <? _)%Z; lia.
    + injection H as <- <-. exists 1. split.
      * intros j. unfold rand_tail. f_equal. lia.
      * destruct (_ <? _)%Z eqn:Hlt; [lia|].
        apply Z.ltb_ge in Hlt. lia.
Qed.

(** X9.  The level generator reads the random source one byte at a time:
    as many bytes as the height it returns when this is below
    [maxLevel], one fewer when it is [maxLevel]; the rest of the source
    is left for the next call. *)
Theorem randLevel_reads s rs lvl rs' :
  (1 ≤ maxLevel s)%Z → randLevel s rs = Ret (lvl, rs') →
  ∃ d, (∀ j, rs' j = rs (j + d)) ∧ d ≤ levels s - 1 ∧
       Z.of_nat d = (if (lvl <? maxLevel s)%Z then lvl else lvl - 1)%Z.
Proof.
  intros Hm Hrun. pose proof (randLevel_range s rs lvl rs' Hm Hrun) as Hlvl.
  destruct (randLevel_loop_reads _ _ _ _ _ Hrun) as (d & Hd & Hlen).
  replace (1 + Z.of_nat (Z.to_nat (maxLevel s - 1)))%Z with (maxLevel s)
    in Hlen by lia.
  exists d. split_and!; [done| |].
  - unfold levels. destruct (lvl <? maxLevel s)%Z eqn:Hlt; [|lia].
    apply Z.ltb_lt in Hlt. lia.
  - destruct (lvl <? maxLevel s)%Z; lia.
Qed.

(** X7.  A list of one level reads no random byte: on a list built with
    [maxLevel] 1 under the comparator contract, [Insert] returns even
    when the random source fails, and leaves the source as it was; every
    node of the result has one forward reference. *)
Theorem Insert_one_level c s vs V fuel rs :
  built c 1 s vs → TotalOrder c → length (heap s) < fuel →
  ∃ prev s', Insert fuel s V rs = Ret (prev, s', rs) ∧
    ∀ nd, nd ∈ heap s' → length (next nd) = 1.
Proof.
  intros Hb Hc Hfuel.
  destruct (built_Inv c 1 s vs Hb Hc) as (l & HInv & HC & HM & _).
  pose proof Hc as Hc'. rewrite <- HC in Hc'.
  assert (randLevel s rs = Ret (1%Z, rs)) as Hrand.
  { unfold randLevel. by rewrite HM. }
  assert (∃ prev s', Insert fuel s V rs = Ret (prev, s', rs))
    as (prev & s' & Hrun).
  { destruct (Insert_spec s l V rs fuel HInv Hc')
      as [(y & nd & _ & _ & _ & Hr)
         |(pre & suf & updates & _ & _ & _ & _ & _
           & [[Hp _]|(lvl & rs1 & t & Hr1 & _ & Hr & _)])]; [lia|done|..].
    - by eexists _, _.
    - congruence.
    - rewrite Hrand in Hr1. injection Hr1 as <- <-. by eexists _, _. }
  exists prev, s'. split; [done|].
  assert (built c 1 s' (V :: vs)) as Hb' by by econstructor.
  destruct (built_Shape c 1 s' (V :: vs) Hb') as (HM' & ch & HS); [lia|].
  intros nd Hnd. pose proof (shape_heights s' ch HS nd Hnd) as Hh.
  unfold levels in Hh. rewrite HM' in Hh. lia.
Qed.

(** X8.  With two levels or more and a random source that fails at its
    first byte, [Insert(V)] into a list built under the comparator
    contract panics when no value inserted before is equal to [V]; when
    one is, it returns that value as always, the source not being
    read. *)
Theorem Insert_random_failure c m s vs V fuel rs :
  built c m s vs → TotalOrder c → (2 ≤ m)%Z → length (heap s) < fuel →
  rs 0 = None →
  match lookup_equal c V vs with
  | Some x => ∃ s', Insert fuel s V rs = Ret (x, s', rs)
  | None => Insert fuel s V rs = Panic RandFailure
  end.
Proof.
  intros Hb Hc Hm Hfuel Hrs.
  destruct (built_latest c m s vs V Hb Hc)
    as (l & HInv & HC & HM & Hsome & Hnone).
  pose proof Hc as Hc'. rewrite <- HC in Hc'.
  assert (randLevel s rs = Panic RandFailure) as Hrand.
  { unfold randLevel. rewrite HM.
    destruct (Z.to_nat (m - 1)) as [|k] eqn:Hk; [lia|]. simpl.
    by rewrite Hrs. }
  destruct (Insert_spec s l V rs fuel HInv Hc')
    as [(y & nd & Hy & Hnd & Heq & Hr)
       |(pre & suf & updates & Hl & Hpre & Hsuf & _ & _
         & [[_ Hr]|(lvl & rs1 & t & Hr1 & _)])]; [lia|done|..].
  - rewrite (Hsome (val nd)).
    + by eexists.
    + rewrite <- (valof_lookup s y nd Hnd). by apply list_elem_of_fmap_2.
    + by rewrite <- HC.
  - rewrite Hnone; [done|].
    rewrite Hl, fmap_app, Forall_app.
    split; apply Forall_fmap; eapply Forall_impl; try done;
      unfold lt_elem, gt_elem; simpl; intros q Hq; rewrite <- HC; lia.
  - congruence.
Qed.

End Random.

Lemma randLevel_reads_witness :
  ∃ d, (∀ j, rand_tail (rand_tail (list_source [1; 0])) j =
             list_source [1; 0] (j + d)%nat) ∧
       (d ≤ levels sample_list - 1)%nat ∧
       Z.of_nat d = (if 2 <? maxLevel sample_list then 2 else 2 - 1).
Proof.
  apply (randLevel_reads sample_list (list_source [1; 0]) 2
           (rand_tail (rand_tail (list_source [1; 0])))).
  - simpl. lia.
  - reflexivity.
Defined.

Lemma Insert_one_level_witness :
  ∃ prev s', Insert 2 nil_list (Some 1) failing_source =
               Ret (prev, s', failing_source) ∧
    ∀ nd, nd ∈ heap s' → length (next nd) = 1%nat.
Proof.
  apply (Insert_one_level int64_compare nil_list [None] (Some 1) 2
           failing_source).
  - exact nil_list_built.
  - exact int64_compare_TotalOrder.
  - simpl. lia.
Defined.

Lemma Insert_random_failure_witness :
  match lookup_equal int64_compare (Some 4) [Some 7; Some 3; Some 5] with
  | Some x => ∃ s', Insert 4 sample_list (Some 4) failing_source =
                      Ret (x, s', failing_source)
  | None => Insert 4 sample_list (Some 4) failing_source = Panic RandFailure
  end.
Proof.
  apply (Insert_random_failure int64_compare 3 sample_list
           [Some 7; Some 3; Some 5] (Some 4) 4 failing_source).
  - exact sample_list_built.
  - exact int64_compare_TotalOrder.
  - lia.
  - simpl. lia.
  - reflexivity.
Defined.

(** * The list without nodes, and without levels *)

Section Empty.
Context {E : Type}.
Implicit Types (s t : SkipList E) (V v : @value E) (l : list ptr)
  (vs : list (@value E)).
Local Open Scope nat_scope.

(** X10.  A list needs a level: for a negative [maxLevel], [New] panics
    in [make]; for [maxLevel] 0 it returns a list on which [Contains],
    [Insert], [ForEach] and [String] all panic, with an index out of
    range. *)
Theorem no_level_no_list {CS Err : Type} (c : @value E → @value E → Z) m
    fuel V rs (cb : CS → @value E → CS * option Err) st
    (fmt_v : @value E → string) :
  (m ≤ 0)%Z →
  match New c m with
  | Ret s0 =>
      m = 0%Z ∧
      Contains fuel s0 V = Panic IndexOutOfRange ∧
      Insert fuel s0 V rs = Panic IndexOutOfRange ∧
      ForEach fuel s0 cb st = Panic IndexOutOfRange ∧
      String fuel s0 fmt_v = Panic IndexOutOfRange
  | Panic p => (m < 0)%Z ∧ p = NegativeLen
  | Timeout => False
  end.
Proof.
  intros Hm. unfold New. destruct (m <? 0)%Z eqn:Hneg.
  - split; [lia|done].
  - assert (m = 0%Z) as -> by lia. by split_and!.
Qed.

(** The searches on a header that holds nil at every level: the
    comparator is not called. *)
Lemma contains_outer_empty (c : @value E → @value E → Z) m V fuel : ∀ k,
  k ≤ Z.to_nat m →
  contains_outer (S fuel) (Mk c m (replicate (Z.to_nat m) None) []) V k SHead
  = Ret (inl SHead).
Proof.
  induction k as [|i IH]; intros Hk; [done|].
  cbn [contains_outer contains_inner slice head bind].
  unfold index. rewrite lookup_replicate_2 by lia. cbn [bind cmp].
  apply IH. lia.
Qed.

Lemma insert_outer_empty (c : @value E → @value E → Z) m V fuel : ∀ k updates,
  k ≤ Z.to_nat m → k ≤ length updates →
  ∃ updates',
    insert_outer (S fuel) (Mk c m (replicate (Z.to_nat m) None) []) V k
      SHead updates = Ret (inl (SHead, updates')) ∧
    length updates' = length updates ∧
    (∀ j, j < k → updates' !! j = Some (Some (SHead, j))) ∧
    (∀ j, k ≤ j → updates' !! j = updates !! j).
Proof.
  induction k as [|i IH]; intros updates Hk Hlen.
  - exists updates. split_and!; try done. lia.
  - cbn [insert_outer insert_inner slice head bind].
    unfold index at 1. rewrite lookup_replicate_2 by lia. cbn [bind cmp].
    destruct (index_lt updates i) as (u & _ & ->); [lia|]. cbn [bind].
    change (1 =? -1)%Z with false. change (1 =? 0)%Z with false.
    change (1 =? 1)%Z with true. cbn [bind].
    destruct (IH (<[i := Some (SHead, i)]> updates))
      as (upd & -> & Hl & Hlow & Hhigh); [lia|rewrite length_insert; lia|].
    exists upd. rewrite length_insert in Hl. split_and!; try done.
    + intros j Hj. destruct (decide (j = i)) as [->|Hne]; [|apply Hlow; lia].
      rewrite Hhigh by lia. apply list_lookup_insert_eq. lia.
    + intros j Hj. rewrite Hhigh by lia. apply list_lookup_insert_ne. lia.
Qed.

(** X11.  On the list [New] returns, for one level or more and whatever
    the comparator, [Contains] answers false and [ForEach] returns nil
    without a call of the callback; the comparator is not called. *)
Theorem empty_list {CS Err : Type} (c : @value E → @value E → Z) m fuel V
    (cb : CS → @value E → CS * option Err) st :
  (1 ≤ m)%Z →
  ∃ s0, New c m = Ret s0 ∧ heap s0 = [] ∧
    Contains (S fuel) s0 V = Ret false ∧
    ForEach fuel s0 cb st = Ret (st, None).
Proof.
  intros Hm. unfold New. destruct (m <? 0)%Z eqn:Hneg; [lia|].
  eexists. split; [done|]. split; [done|]. split.
  - unfold Contains. cbn [maxLevel].
    rewrite (contains_outer_empty c m V fuel (Z.to_nat m)) by done.
    cbn [bind slice head]. unfold index.
    rewrite lookup_replicate_2 by lia. done.
  - unfold ForEach, index. cbn [head].
    rewrite lookup_replicate_2 by lia. by destruct fuel.
Qed.

(** The loop at the end of [Insert], when every recorded slot is one of
    the header and the new node is the only one. *)
Lemma splice_empty (c : @value E → @value E → Z) m V R updates :
  (∀ j, j < Z.to_nat m → updates !! j = Some (Some (SHead, j))) →
  R ≤ Z.to_nat m →
  ∀ cnt i, i + cnt = R →
  splice (Mk c m (replicate i (Some 0) ++ replicate (Z.to_nat m - i) None)
            [Node V (replicate R None)]) 0 updates i cnt
  = Ret (Mk c m (replicate R (Some 0) ++ replicate (Z.to_nat m - R) None)
           [Node V (replicate R None)]).
Proof.
  intros Hupd HR. induction cnt as [|cnt IH]; intros i Hi.
  - simpl. by replace i with R by lia.
  - cbn [splice]. unfold index at 1. rewrite Hupd by lia. cbn [bind].
    unfold read_slot. cbn [fst snd slice head bind]. unfold index at 1.
    rewrite lookup_app_r by (rewrite length_replicate; lia).
    rewrite length_replicate, Nat.sub_diag.
    rewrite lookup_replicate_2 by lia. cbn [bind].
    set (s0 := Mk c m (replicate i (Some 0) ++ replicate (Z.to_nat m - i) None)
                 [Node V (replicate R None)]).
    assert (write_slot s0 (SNext 0, i) None = Ret s0) as ->.
    { unfold write_slot, deref, index. simpl.
      rewrite lookup_replicate_2 by lia. simpl.
      by rewrite insert_replicate. }
    cbn [bind].
    assert (write_slot s0 (SHead, i) (Some 0) =
            Ret (Mk c m (replicate (S i) (Some 0) ++
                         replicate (Z.to_nat m - S i) None)
                   [Node V (replicate R None)])) as ->.
    { unfold write_slot, index, set_head. simpl.
      rewrite lookup_app_r by (rewrite length_replicate; lia).
      rewrite length_replicate, Nat.sub_diag.
      rewrite lookup_replicate_2 by lia. simpl. do 2 f_equal.
      rewrite insert_app_r_alt by (rewrite length_replicate; lia).
      rewrite length_replicate, Nat.sub_diag.
      replace (Z.to_nat m - i) with (S (Z.to_nat m - S i)) by lia.
      simpl. rewrite cons_middle, app_assoc. f_equal.
      by rewrite <- replicate_S_end. }
    cbn [bind]. apply IH. lia.
Qed.

(** X12.  The first [Insert] does not call the comparator: into the list
    [New] returns, whatever the comparator, it returns nil and leaves one
    node, of the height drawn, to which the header refers at the levels
    below that height and at no other. *)
Theorem Insert_first (c : @value E → @value E → Z) m s0 V fuel rs lvl rs' :
  New c m = Ret s0 → (1 ≤ m)%Z → randLevel s0 rs = Ret (lvl, rs') →
  Insert (S fuel) s0 V rs =
    Ret (None,
         Mk c m (replicate (Z.to_nat lvl) (Some 0) ++
                 replicate (Z.to_nat m - Z.to_nat lvl) None)
           [Node V (replicate (Z.to_nat lvl) None)],
         rs').
Proof.
  intros Hnew Hm Hrand. unfold New in Hnew.
  destruct (m <? 0)%Z eqn:Hneg; [done|]. injection Hnew as <-.
  pose proof (randLevel_range (Mk c m (replicate (Z.to_nat m) None) [])
                rs lvl rs' Hm Hrand) as Hlvl.
  cbn [maxLevel] in Hlvl.
  unfold Insert. cbn [maxLevel]. rewrite Hneg.
  destruct (insert_outer_empty c m V fuel (Z.to_nat m)
              (replicate (Z.to_nat m) None))
    as (updates & -> & _ & Hupd & _); [done|by rewrite length_replicate|].
  cbn [bind]. rewrite Hrand. cbn [bind]. unfold alloc. cbn [heap length].
  unfold set_heap. cbn [Compare maxLevel head heap app].
  pose proof (splice_empty c m V (Z.to_nat lvl) updates Hupd) as Hs.
  specialize (Hs ltac:(lia) (Z.to_nat lvl) 0 eq_refl).
  rewrite Nat.sub_0_r in Hs. cbn [replicate app] in Hs.
  by rewrite Hs.
Qed.

Lemma append_nil_r (a : string) : a +:+ "" = a.
Proof.
  induction a as [|x a IH]; [done|].
  change (String.String x a +:+ "") with (String.String x (a +:+ "")). by rewrite IH.
Qed.

Lemma append_assoc (a b d : string) : (a +:+ b) +:+ d = a +:+ (b +:+ d).
Proof.
  induction a as [|x a IH]; [done|].
  change (String.String x ((a +:+ b) +:+ d) = String.String x (a +:+ (b +:+ d))).
  by rewrite IH.
Qed.

Lemma join_cons (a : string) (l : list string) : join (a :: l) = a +:+ join l.
Proof.
  unfold join. destruct l as [|b l]; [|done].
  cbn [String.concat]. by rewrite append_nil_r.
Qed.

Lemma join_app (l1 l2 : list string) : join (l1 ++ l2) = join l1 +:+ join l2.
Proof.
  induction l1 as [|a l1 IH]; [done|].
  by rewrite <- app_comm_cons, !join_cons, IH, append_assoc.
Qed.

(** The rows of the header on the empty list. *)
Lemma string_levels_empty (M : nat) (hd : list string) : ∀ cnt lvl,
  lvl + cnt = M →
  string_levels cnt lvl (replicate M None) (repeat_string " " minValueLen)
    (replicate M false)
    (hd :: replicate lvl [" |nil "] ++ replicate (M - lvl) [])
  = Ret (replicate M false, hd :: replicate M [" |nil "]).
Proof.
  induction cnt as [|cnt IH]; intros lvl Hl.
  - simpl. replace lvl with M by lia. rewrite Nat.sub_diag. simpl.
    by rewrite app_nil_r.
  - cbn [string_levels]. rewrite length_replicate.
    destruct (M <=? lvl) eqn:Hle; [apply Nat.leb_le in Hle; lia|].
    assert (index (replicate M (@None ptr)) lvl = Ret None) as ->.
    { unfold index. by rewrite lookup_replicate_2 by lia. }
    cbn [bind].
    assert (index (replicate M false) lvl = Ret false) as ->.
    { unfold index. by rewrite lookup_replicate_2 by lia. }
    cbn [bind]. rewrite insert_replicate.
    change (String.length " |nil " <?
            String.length (repeat_string " " minValueLen)) with false.
    cbn iota.
    replace (M - lvl) with (S (M - S lvl)) by lia.
    assert (index (hd :: replicate lvl [" |nil "] ++
                   replicate (S (M - S lvl)) ([] : list string)) (S lvl)
            = Ret []) as ->.
    { unfold index. rewrite lookup_cons.
      rewrite lookup_app_r by (rewrite length_replicate; lia).
      by rewrite length_replicate, Nat.sub_diag. }
    cbn [bind app].
    assert (<[S lvl := [" |nil "]]>
              (hd :: replicate lvl [" |nil "] ++
               replicate (S (M - S lvl)) ([] : list string)) =
            hd :: replicate (S lvl) [" |nil "] ++ replicate (M - S lvl) [])
      as ->.
    { change (hd :: <[lvl := [" |nil "]]>
                      (replicate lvl [" |nil "] ++
                       replicate (S (M - S lvl)) ([] : list string)) =
              hd :: replicate (S lvl) [" |nil "] ++ replicate (M - S lvl) []).
      f_equal.
      rewrite insert_app_r_alt by (rewrite length_replicate; lia).
      rewrite length_replicate, Nat.sub_diag.
      change (replicate lvl [" |nil "] ++ [" |nil "] :: replicate (M - S lvl) [] =
              replicate (S lvl) [" |nil "] ++ replicate (M - S lvl) []).
      by rewrite cons_middle, app_assoc, <- replicate_S_end. }
    apply (IH (S lvl)). lia.
Qed.

Lemma flat_map_replicate {A B} (f : A → list B) (x : A) (n : nat) :
  flat_map f (replicate n x) = mjoin (replicate n (f x)).
Proof. induction n as [|n IH]; simpl; [done|]. by rewrite IH. Qed.

(** X13.  [String] on the list [New] returns, for one level or more: the
    first line with [maxLevel], an empty line where the values go, one
    line " |nil" for each level, and the closing brace. *)
Theorem String_empty (c : @value E → @value E → Z) m s0 fuel
    (fmt_v : @value E → string) :
  New c m = Ret s0 → (1 ≤ m)%Z →
  String (S fuel) s0 fmt_v =
    Ret ("{maxLevel: " +:+ pretty m +:+ ", nodes:" +:+ newline +:+
         newline +:+
         repeat_string (" |nil" +:+ newline) (Z.to_nat m) +:+ "}").
Proof.
  intros Hnew Hm. unfold New in Hnew.
  destruct (m <? 0)%Z eqn:Hneg; [done|]. injection Hnew as <-.
  unfold String. cbn [head maxLevel]. unfold index at 1.
  rewrite lookup_replicate_2 by lia. cbn [bind string_values].
  destruct (m + 1 <? 0)%Z eqn:H1; [lia|]. rewrite Hneg.
  unfold index at 1. rewrite lookup_replicate_2 by lia. cbn [bind].
  replace (Z.to_nat (m + 1)) with (S (Z.to_nat m)) by lia.
  cbn [replicate list_insert insert].
  cbn [string_march slice head bind maxLevel].
  change (-1 =? -1)%Z with true. cbn iota. cbn [bind].
  pose proof (string_levels_empty (Z.to_nat m)
                [repeat_string " " minValueLen] (Z.to_nat m) 0 eq_refl) as Hl.
  rewrite Nat.sub_0_r in Hl. cbn [replicate app] in Hl. rewrite Hl.
  cbn [bind]. unfold index at 1. rewrite lookup_replicate_2 by lia.
  cbn [bind].
  assert (∀ i inPtr lines,
            string_march fuel
              (Mk c m (replicate (Z.to_nat m) None) [])
              [repeat_string " " minValueLen] None i inPtr lines = Ret lines)
    as -> by (intros; by destruct fuel).
  cbn [bind]. f_equal.
  cbn [flat_map app]. rewrite flat_map_replicate.
  rewrite !join_cons, join_app.
  assert (∀ (n : nat) (a b : string),
            join (mjoin (replicate n [a; b])) = repeat_string (a +:+ b) n)
    as ->.
  { induction n as [|n IH]; intros a b; [done|].
    cbn [replicate mjoin list_join repeat_string app].
    by rewrite !join_cons, IH, append_assoc. }
  change (trim_right (repeat_string " " minValueLen +:+ "")) with EmptyString.
  change (trim_right (" |nil " +:+ "")) with " |nil".
  by rewrite !append_assoc.
Qed.

End Empty.

Lemma no_level_no_list_witness :
  match New int64_compare 0 with
  | Ret s0 =>
      0 = 0 ∧
      Contains 3 s0 (Some 4) = Panic IndexOutOfRange ∧
      Insert 3 s0 (Some 4) (const_source 0) = Panic IndexOutOfRange ∧
      ForEach 3 s0 (traced (λ _, @None failure)) [] = Panic IndexOutOfRange ∧
      String 3 s0 (λ _, "v") = Panic IndexOutOfRange
  | Panic p => 0 < 0 ∧ p = NegativeLen
  | Timeout => False
  end.
Proof.
  apply (no_level_no_list int64_compare 0 3 (Some 4) (const_source 0)
           (traced (λ _, @None failure)) [] (λ _, "v")).
  lia.
Defined.

Lemma empty_list_witness :
  ∃ s0, New bad_compare 10 = Ret s0 ∧ heap s0 = [] ∧
    Contains 1 s0 (Some 4) = Ret false ∧
    ForEach 0 s0 (traced (λ _, @None failure)) [] = Ret ([], None).
Proof.
  apply (empty_list bad_compare 10 0 (Some 4) (traced (λ _, @None failure)) []).
  lia.
Defined.

Lemma Insert_first_witness :
  Insert 1 (Mk bad_compare 3 [None; None; None] []) (Some 4)
    (list_source [1; 0]) =
  Ret (None,
       Mk bad_compare 3
         (replicate (Z.to_nat 2) (Some 0%nat) ++
          replicate (Z.to_nat 3 - Z.to_nat 2) None)
         [Node (Some 4) (replicate (Z.to_nat 2) None)],
       rand_tail (rand_tail (list_source [1; 0]))).
Proof.
  apply (Insert_first bad_compare 3 (Mk bad_compare 3 [None; None; None] [])
           (Some 4) 0 (list_source [1; 0]) 2
           (rand_tail (rand_tail (list_source [1; 0])))).
  - reflexivity.
  - lia.
  - reflexivity.
Defined.

Lemma String_empty_witness :
  String 1 (Mk int64_compare 2 [None; None] []) (λ _, "v") =
  Ret ("{maxLevel: " +:+ pretty 2 +:+ ", nodes:" +:+ newline +:+
       newline +:+
       repeat_string (" |nil" +:+ newline) (Z.to_nat 2) +:+ "}").
Proof.
  apply (String_empty int64_compare 2 (Mk int64_compare 2 [None; None] []) 0
           (λ _, "v")).
  - reflexivity.
  - lia.
Defined.

(** * The picture String draws *)

Section Picture.
Context {E : Type}.
Implicit Types (s t : SkipList E) (V v : @value E) (l a b : list ptr)
  (vs : list (@value E)) (fmt_v : @value E → string).
Local Open Scope nat_scope.

(** The first loop of [String] collects the cells of the values. *)
Lemma string_values_cells s fmt_v :
  ∀ n c, chain s 0 n c → ∀ fuel acc, length c ≤ fuel →
  string_values fuel s fmt_v n acc =
    Ret (acc ++ (value_cell fmt_v <$> (valof s <$> c))).
Proof.
  induction 1 as [|p nd n c Hnd Hn _ IH]; intros fuel acc Hfuel.
  - simpl. rewrite app_nil_r. by destruct fuel.
  - destruct fuel as [|fuel]; simpl in Hfuel; [lia|].
    cbn [string_values]. unfold deref. rewrite Hnd. cbn [bind].
    unfold index. rewrite Hn. cbn [bind].
    rewrite IH by lia. rewrite !fmap_cons, <- app_assoc.
    by rewrite (valof_lookup s p nd Hnd).
Qed.

(** One turn of the march, on the slice [sl] of a column: each row gets
    the cell of its level, and [inPtr] tells for each level whether a
    reference leaves the column or crosses it. *)
Lemma string_levels_cells (M : nat) (sl : list (option ptr)) (cv : string)
    (inc target : nat → bool) (acc : nat → list string) (row0 : list string) :
  (∀ L, L < length sl →
     ∃ n, sl !! L = Some n ∧
          target L = match n with Some _ => true | None => false end) →
  ∀ cnt lvl inPtr lines,
  lvl + cnt = M → length inPtr = M → length lines = S M →
  (∀ L, L < M →
     inPtr !! L = Some (if decide (L < lvl)
                        then (if L <? length sl then target L else inc L)
                        else inc L)) →
  (∀ L, L < M →
     lines !! S L =
       Some (if decide (L < lvl)
             then acc L ++ [level_cell (L <? length sl) (target L) (inc L) cv]
             else acc L)) →
  lines !! 0 = Some row0 →
  ∃ inPtr' lines',
    string_levels cnt lvl sl cv inPtr lines = Ret (inPtr', lines') ∧
    length inPtr' = M ∧ length lines' = S M ∧
    (∀ L, L < M →
       inPtr' !! L = Some (if L <? length sl then target L else inc L)) ∧
    (∀ L, L < M →
       lines' !! S L =
         Some (acc L ++ [level_cell (L <? length sl) (target L) (inc L) cv])) ∧
    lines' !! 0 = Some row0.
Proof.
  intros Hsl. induction cnt as [|cnt IH];
    intros lvl inPtr lines HM Hlin Hllen Hin Hlines H0.
  - exists inPtr, lines. split_and!; try done.
    + intros L HL. rewrite (Hin L HL). by rewrite decide_True by lia.
    + intros L HL. rewrite (Hlines L HL). by rewrite decide_True by lia.
  - assert (lvl < M) as Hlvl by lia.
    pose proof (Hin lvl Hlvl) as Hb. rewrite decide_False in Hb by lia.
    pose proof (Hlines lvl Hlvl) as Hline. rewrite decide_False in Hline by lia.
    assert (∀ (X : list bool) (seg : string),
              length X = M →
              (∀ L, L < M → L ≠ lvl → X !! L = inPtr !! L) →
              X !! lvl = Some (if lvl <? length sl then target lvl
                               else inc lvl) →
              seg = level_cell (lvl <? length sl) (target lvl) (inc lvl) cv →
              ∃ inPtr' lines',
                string_levels cnt (S lvl) sl cv X
                  (<[S lvl := acc lvl ++ [seg]]> lines) = Ret (inPtr', lines') ∧
                length inPtr' = M ∧ length lines' = S M ∧
                (∀ L, L < M →
                   inPtr' !! L =
                     Some (if L <? length sl then target L else inc L)) ∧
                (∀ L, L < M →
                   lines' !! S L =
                     Some (acc L ++
                           [level_cell (L <? length sl) (target L) (inc L) cv])) ∧
                lines' !! 0 = Some row0) as Hnext.
    { intros X seg HX Hsame Hnew ->.
      apply IH; try done.
      - lia.
      - by rewrite length_insert.
      - intros L HL. destruct (decide (L = lvl)) as [->|Hne].
        + by rewrite decide_True by lia.
        + rewrite (Hsame L HL Hne), (Hin L HL).
          destruct (decide (L < lvl)).
          * by rewrite decide_True by lia.
          * by rewrite decide_False by lia.
      - intros L HL. destruct (decide (L = lvl)) as [->|Hne].
        + rewrite list_lookup_insert_eq by lia.
          by rewrite decide_True by lia.
        + rewrite list_lookup_insert_ne by lia. rewrite (Hlines L HL).
          destruct (decide (L < lvl)).
          * by rewrite decide_True by lia.
          * by rewrite decide_False by lia.
      - by rewrite list_lookup_insert_ne by lia. }
    cbn [string_levels].
    assert (index inPtr lvl = Ret (inc lvl)) as Hib by by apply index_Ret.
    assert (index lines (S lvl) = Ret (acc lvl)) as Hil by by apply index_Ret.
    destruct (length sl <=? lvl) eqn:Hlen.
    + apply Nat.leb_le in Hlen.
      assert ((lvl <? length sl) = false) as Hp by (apply Nat.ltb_ge; lia).
      rewrite Hib. cbn [bind]. rewrite Hil. cbn [bind].
      apply Hnext; try done.
      * by rewrite Hp.
      * by rewrite Hp.
    + apply Nat.leb_gt in Hlen.
      assert ((lvl <? length sl) = true) as Hp by (apply Nat.ltb_lt; lia).
      destruct (Hsl lvl Hlen) as (n & Hn & Ht).
      rewrite (proj2 (index_Ret sl lvl n) Hn). cbn [bind].
      destruct n as [q|]; rewrite Hib; cbn [bind]; rewrite Hil; cbn [bind];
        apply Hnext.
      all: try (by rewrite length_insert).
      all: try (intros L HL Hne; by rewrite list_lookup_insert_ne by done).
      all: try (rewrite list_lookup_insert_eq by lia; by rewrite Hp, Ht).
      all: by rewrite Hp, Ht.
Qed.

(** The march from the column of the slice after [a], for a list under
    the invariant: each row gets the cell of this column and those of the
    nodes [b] that follow. *)
Lemma string_march_picture s l strValues :
  Inv s l → (1 ≤ maxLevel s)%Z →
  ∀ b a fuel k inPtr lines (inc : nat → bool) (acc : nat → list string)
    (row0 : list string) cv,
  l = a ++ b → length b < fuel →
  (repeat_string " " minValueLen :: strValues) !! k = Some cv →
  k + length b < length (repeat_string " " minValueLen :: strValues) →
  length inPtr = levels s → length lines = S (levels s) →
  (∀ L, L < levels s → inPtr !! L = Some (inc L)) →
  (∀ L sl, L < levels s → slice s (last_ref a) = Ret sl → length sl ≤ L →
     inc L = has_level (height s) L b) →
  (∀ L, L < levels s → lines !! S L = Some (acc L)) →
  lines !! 0 = Some row0 →
  ∃ res sl,
    slice s (last_ref a) = Ret sl ∧
    string_march fuel s strValues (Some (last_ref a)) (Z.of_nat k - 1)
      inPtr lines = Ret res ∧
    length res = S (levels s) ∧ res !! 0 = Some row0 ∧
    ∀ L, L < levels s →
      res !! S L =
        Some (acc L ++
              level_cell (L <? length sl) (has_level (height s) L b)
                (inc L) cv ::
              level_row (height s) L b
                (drop (S k) (repeat_string " " minValueLen :: strValues))).
Proof.
  intros HInv Hm. set (cvs := repeat_string " " minValueLen :: strValues).
  induction b as [|p b IH];
    intros a fuel k inPtr lines inc acc row0 cv Hl Hfuel Hcv Hk Hin Hlines
      Hinc Hlow Hacc H0.
  all: destruct (inv_links s l HInv a _ Hl) as (sl & Hsl & Hle & Hhd & Hpos & Hj).
  all: assert (1 ≤ length sl) as Hsl1
         by (destruct a; [rewrite Hhd by done; unfold levels; lia
                         |apply Hpos; done]).
  all: destruct fuel as [|fuel]; [simpl in Hfuel; lia|].
  all: assert ((if (Z.of_nat k - 1 =? -1)%Z
                then Ret (repeat_string " " minValueLen)
                else if (Z.of_nat k - 1 <? 0)%Z then Panic IndexOutOfRange
                     else index strValues (Z.to_nat (Z.of_nat k - 1)))
               = Ret cv) as Hcur.
  1,3: destruct k as [|k];
       [simpl in Hcv; injection Hcv as <-; done|];
       destruct (Z.of_nat (S k) - 1 =? -1)%Z eqn:H1;
         [apply Z.eqb_eq in H1; lia|];
       destruct (Z.of_nat (S k) - 1 <? 0)%Z eqn:H2;
         [apply Z.ltb_lt in H2; lia|];
       replace (Z.to_nat (Z.of_nat (S k) - 1)) with k by lia;
       by apply index_Ret.
  all: match type of Hl with
       | _ = _ ++ ?B =>
           destruct (string_levels_cells (levels s) sl cv inc
                       (λ L, has_level (height s) L B) acc row0)
             with (cnt := levels s) (lvl := 0) (inPtr := inPtr)
                  (lines := lines)
             as (inPtr' & lines' & Hlev & Hin' & Hlines' & Hinc' & Hacc' & H0');
             [ intros L HL; eexists; split; [by apply Hj|];
               unfold has_level; by destruct (first_above _ _ _)
             | reflexivity | exact Hin | exact Hlines
             | intros L HL; rewrite (Hinc L HL); by rewrite decide_False by lia
             | intros L HL; rewrite (Hacc L HL); by rewrite decide_False by lia
             | exact H0 | ]
       end.
  all: match type of Hl with
       | _ = _ ++ ?B =>
           assert (∀ X, string_march (S fuel) s strValues (Some (last_ref a))
                          (Z.of_nat k - 1) inPtr lines = X ↔
                        (do cur' <-
                           match hd_error B with
                           | Some q =>
                               do r' <- next_of s (Some q) ; Ret (Some r')
                           | None => Ret None
                           end ;
                         string_march fuel s strValues cur'
                           (Z.of_nat k - 1 + 1) inPtr' lines') = X) as Hstep
       end.
  1,3: intros X; cbn [string_march]; rewrite Hsl; cbn [bind];
       rewrite Hcur; cbn [bind]; fold (levels s); rewrite Hlev; cbn [bind];
       rewrite (proj2 (index_Ret sl 0 _) (Hj 0 Hsl1)); cbn [bind];
       rewrite (inv_first0 s l a _ HInv Hl); by destruct (hd_error _).
  - exists lines', sl. split; [done|]. split.
    { apply Hstep. cbn [hd_error bind]. by destruct fuel. }
    by split_and!.
  - destruct (inv_height s l p HInv) as (nd & Hnd & Hh & _ & Hhl).
    { rewrite Hl, elem_of_app. right. left. }
    destruct (lookup_lt_is_Some_2 cvs (S k)) as [cv' Hcv'];
      [simpl in Hk; simpl; lia|].
    destruct (IH (a ++ [p]) fuel (S k) inPtr' lines'
                (λ L, has_level (height s) L (p :: b))
                (λ L, acc L ++
                      [level_cell (L <? length sl)
                         (has_level (height s) L (p :: b)) (inc L) cv])
                row0 cv')
      as (res & sl' & Hsl' & Hres & Hlen & Hres0 & Hrows).
    + by rewrite <- app_assoc.
    + simpl in Hfuel. lia.
    + done.
    + simpl in Hk. simpl. lia.
    + done.
    + done.
    + intros L HL. rewrite (Hinc' L HL).
      destruct (L <? length sl) eqn:HLs; [done|].
      apply Nat.ltb_ge in HLs. f_equal. by apply (Hlow L sl).
    + intros L sl1 HL. rewrite last_ref_snoc. intros Hsl1' Hle1.
      rewrite (slice_SNext s p nd Hnd) in Hsl1'. injection Hsl1' as <-.
      unfold has_level. cbn [first_above].
      rewrite decide_False; [done|]. rewrite Hhl. lia.
    + done.
    + done.
    + rewrite last_ref_snoc in Hsl', Hres.
      rewrite (slice_SNext s p nd Hnd) in Hsl'. injection Hsl' as <-.
      exists res, sl. split; [done|]. split.
      { apply Hstep. cbn [hd_error next_of]. unfold deref. rewrite Hnd.
        cbn [bind].
        by replace (Z.of_nat k - 1 + 1)%Z with (Z.of_nat (S k) - 1)%Z by lia. }
      split_and!; try done.
      intros L HL. rewrite (Hrows L HL). f_equal.
      rewrite <- app_assoc. cbn [app]. do 2 f_equal.
      rewrite (drop_S cvs cv' (S k) Hcv'). cbn [level_row].
      by rewrite Hhl.
Qed.

(** [String] on a list under the invariant. *)
Lemma String_picture_Inv s l fmt_v fuel :
  Inv s l → (1 ≤ maxLevel s)%Z → length l < fuel →
  String fuel s fmt_v =
    Ret (join
           (["{maxLevel: " +:+ pretty (maxLevel s) +:+ ", nodes:" +:+ newline]
            ++ flat_map (λ ln, [trim_right (join ln); newline])
                 ((repeat_string " " minValueLen ::
                     (value_cell fmt_v <$> (valof s <$> l))) ::
                  ((λ L, level_cell true (has_level (height s) L l) false
                           (repeat_string " " minValueLen) ::
                         level_row (height s) L l
                           (repeat_string " " minValueLen ::
                              (value_cell fmt_v <$> (valof s <$> l))))
                     <$> seq 0 (levels s)))
            ++ ["}"])).
Proof.
  intros HInv Hm Hfuel.
  destruct (inv_chain0 s l HInv Hm) as (n & Hn & Hch).
  destruct (inv_head s l HInv) as [Hhead _].
  pose proof (string_values_cells s fmt_v n l Hch fuel
                [repeat_string " " minValueLen]) as Hsv.
  rewrite <- app_comm_cons in Hsv. cbn [app] in Hsv.
  set (strValues := repeat_string " " minValueLen ::
                      (value_cell fmt_v <$> (valof s <$> l))) in *.
  destruct (string_march_picture s l strValues HInv Hm l [] fuel 0
              (replicate (Z.to_nat (maxLevel s)) false)
              (<[0 := strValues]>
                 (replicate (Z.to_nat (maxLevel s + 1)) ([] : list string)))
              (λ _, false) (λ _, []) strValues
              (repeat_string " " minValueLen))
    as (res & sl & Hsl & Hmarch & Hlen & H0 & Hrows); try done.
  - unfold strValues. cbn [length]. rewrite !length_fmap. lia.
  - by rewrite length_replicate.
  - rewrite length_insert, length_replicate. unfold levels. lia.
  - intros L HL. apply lookup_replicate_2. unfold levels in HL. lia.
  - intros L sl HL [= <-] Hle. lia.
  - intros L HL. rewrite list_lookup_insert_ne by lia.
    apply lookup_replicate_2. unfold levels in HL. lia.
  - apply list_lookup_insert_eq. rewrite length_replicate. lia.
  - cbn [last_ref last slice] in Hsl. injection Hsl as <-.
    unfold String, index. rewrite Hn. cbn [bind]. rewrite Hsv by lia.
    cbn [bind].
    destruct (maxLevel s + 1 <? 0)%Z eqn:H1; [apply Z.ltb_lt in H1; lia|].
    destruct (maxLevel s <? 0)%Z eqn:H2; [apply Z.ltb_lt in H2; lia|].
    rewrite lookup_replicate_2 by lia. cbn [bind].
    change (Z.of_nat 0 - 1)%Z with (-1)%Z in Hmarch.
    cbn [last_ref last] in Hmarch. rewrite Hmarch. cbn [bind].
    assert (res = strValues ::
                    ((λ L, level_cell true (has_level (height s) L l) false
                             (repeat_string " " minValueLen) ::
                           level_row (height s) L l strValues)
                       <$> seq 0 (levels s))) as ->; [|done].
    apply list_eq. intros [|L]; [done|].
    rewrite lookup_cons, list_lookup_fmap.
    destruct (decide (L < levels s)) as [HL|HL].
    + rewrite (Hrows L HL), lookup_seq_lt by done.
      cbn [fmap option_fmap option_map app plus].
      by rewrite (proj2 (Nat.ltb_lt L (length (head s)))) by lia.
    + rewrite lookup_seq_ge by lia. apply lookup_ge_None. lia.
Qed.

(** X14.  The picture [String] returns shows the structure.  On a list
    built under the comparator contract, with the chain [ch] of level 0:
    the first row has five spaces for the header and then the cells of
    the values inserted, in ascending order; the row of each level [L]
    has a cell " |-", or " |nil " when no node has the level, for the
    header, and a cell for each node: for a node of the level, ">|-" when
    a later node has the level and ">|nil " when none has; for a node
    below the level, dashes when a later node has the level and spaces
    when none has.  The cell of a node is made as wide, at least, as the
    cell that precedes its value in the first row. *)
Theorem String_picture c m s vs fuel fmt_v :
  built c m s vs → TotalOrder c → (1 ≤ m)%Z → length vs < fuel →
  ∃ n ch, head s !! 0 = Some n ∧ chain s 0 n ch ∧
    valof s <$> ch = values_of c vs ∧
    String fuel s fmt_v =
      Ret (join
             (["{maxLevel: " +:+ pretty m +:+ ", nodes:" +:+ newline]
              ++ flat_map (λ ln, [trim_right (join ln); newline])
                   ((repeat_string " " minValueLen ::
                       (value_cell fmt_v <$> values_of c vs)) ::
                    ((λ L, level_cell true (has_level (height s) L ch) false
                             (repeat_string " " minValueLen) ::
                           level_row (height s) L ch
                             (repeat_string " " minValueLen ::
                                (value_cell fmt_v <$> values_of c vs)))
                       <$> seq 0 (Z.to_nat m)))
              ++ ["}"])).
Proof.
  intros Hb Hc Hm Hfuel.
  destruct (built_values c m s vs Hb Hc) as (l & HInv & HC & HM & Hvals).
  rewrite <- HM in Hm.
  destruct (inv_chain0 s l HInv Hm) as (n & Hn & Hch).
  pose proof (inv_length s l HInv) as Hlen.
  pose proof (built_heap_le c m s vs Hb) as Hle.
  exists n, l. split_and!; try done.
  rewrite (String_picture_Inv s l fmt_v fuel HInv Hm) by lia.
  unfold levels. by rewrite HM, Hvals.
Qed.

End Picture.

Lemma String_picture_witness :
  ∃ n ch, head sample_list !! 0%nat = Some n ∧ chain sample_list 0 n ch ∧
    valof sample_list <$> ch =
      values_of int64_compare [Some 7; Some 3; Some 5] ∧
    String 4 sample_list (λ _, "v") =
      Ret (join
             (["{maxLevel: " +:+ pretty 3 +:+ ", nodes:" +:+ newline]
              ++ flat_map (λ ln, [trim_right (join ln); newline])
                   ((repeat_string " " minValueLen ::
                       (value_cell (λ _, "v") <$>
                          values_of int64_compare [Some 7; Some 3; Some 5])) ::
                    ((λ L, level_cell true
                             (has_level (height sample_list) L ch) false
                             (repeat_string " " minValueLen) ::
                           level_row (height sample_list) L ch
                             (repeat_string " " minValueLen ::
                                (value_cell (λ _, "v") <$>
                                   values_of int64_compare
                                     [Some 7; Some 3; Some 5])))
                       <$> seq 0 (Z.to_nat 3)))
              ++ ["}"])).
Proof.
  apply (String_picture int64_compare 3 sample_list [Some 7; Some 3; Some 5] 4
           (λ _, "v")).
  - exact sample_list_built.
  - exact int64_compare_TotalOrder.
  - lia.
  - simpl. lia.
Defined.

(** * The tests pass *)

Section TestLemmas.
Local Open Scope nat_scope.
Implicit Types (s : SkipList Z) (vs : list (@value Z)) (x y : Z)
  (added : gmap Z bool) (d : draws) (rs : rand_source).

Lemma int64_compare_eq x y : int64_compare (Some x) (Some y) = 0%Z ↔ x = y.
Proof.
  unfold int64_compare. destruct (Z.ltb_spec x y); [lia|].
  destruct (Z.eqb_spec x y); lia.
Qed.

Lemma int64_compare_lt x y :
  int64_compare (Some x) (Some y) = (-1)%Z ↔ (x < y)%Z.
Proof.
  unfold int64_compare. destruct (Z.ltb_spec x y); [lia|].
  destruct (Z.eqb_spec x y); lia.
Qed.

Lemma test_state_equal s added vs x :
  test_state s added vs →
  (∃ v, v ∈ vs ∧ int64_compare v (Some x) = 0%Z) ↔ Some x ∈ vs.
Proof.
  intros (_ & Hsome & _). split.
  - intros (v & Hv & Heq). destruct (Hsome v Hv) as [y ->].
    apply (proj1 (int64_compare_eq y x)) in Heq. by subst.
  - intros Hx. exists (Some x). split; [done|]. by apply int64_compare_eq.
Qed.

Lemma test_state_get s added vs x :
  test_state s added vs → map_get added x = bool_decide (Some x ∈ vs).
Proof.
  intros (_ & _ & Hadded). unfold map_get. rewrite Hadded.
  destruct (decide (Some x ∈ vs)).
  - by rewrite bool_decide_eq_true_2.
  - by rewrite bool_decide_eq_false_2.
Qed.

Lemma test_state_Contains s added vs x fuel :
  test_state s added vs → length vs < fuel →
  Contains fuel s (Some x) = Ret (bool_decide (Some x ∈ vs)).
Proof.
  intros Hst Hfuel. pose proof Hst as (Hb & _ & _).
  destruct (built_Inv _ _ s vs Hb int64_compare_TotalOrder)
    as (l & HInv & HC & HM & Hsub & Hsup & _).
  pose proof (built_heap_le _ _ s vs Hb) as Hle.
  destruct (Contains_spec s l (Some x) fuel HInv) as (b & -> & Hiff).
  { rewrite HC. exact int64_compare_TotalOrder. }
  { lia. }
  { lia. }
  f_equal. apply eq_true_iff_eq. rewrite Hiff, bool_decide_eq_true, HC.
  rewrite <- (test_state_equal s added vs x Hst). split.
  - intros (v & Hv & Heq). exists v. split; [by apply Hsub|done].
  - intros (v & Hv & Heq). destruct (Hsup v Hv) as (w & Hw & Hwv).
    exists w. split; [done|].
    by apply (cmp_eq_trans _ int64_compare_TotalOrder w v (Some x)).
Qed.

Lemma Insert_source_total {E : Type} (t : SkipList E) V fuel rs prev
    (t' : SkipList E) rs' :
  Insert fuel t V rs = Ret (prev, t', rs') → (∀ k, is_Some (rs k)) →
  ∀ k, is_Some (rs' k).
Proof.
  intros Hrun Hrs.
  destruct (Insert_Ret_any t V rs fuel prev t' rs' Hrun)
    as [(_ & _ & _ & _ & _ & -> & _)
       |(_ & _ & lvl & _ & Hrand & _)]; [done|].
  destruct (randLevel_loop_reads _ _ _ _ _ Hrand) as (dd & Hd & _).
  intros k. rewrite Hd. apply Hrs.
Qed.

Lemma test_state_Insert s added vs x fuel rs :
  test_state s added vs → length vs < fuel → (∀ k, is_Some (rs k)) →
  ∃ s' rs',
    Insert fuel s (Some x) rs =
      Ret (if bool_decide (Some x ∈ vs) then Some x else None, s', rs') ∧
    test_state s' (<[x := true]> added) (Some x :: vs) ∧
    ∀ k, is_Some (rs' k).
Proof.
  intros Hst Hfuel Hrs. pose proof Hst as (Hb & Hsome & Hadded).
  pose proof (built_heap_le _ _ s vs Hb) as Hle.
  destruct (Insert_total _ _ s vs (Some x) fuel rs Hb
              int64_compare_TotalOrder) as (prev & s' & rs' & Hrun & _);
    [lia|lia|done|].
  rewrite (built_Insert_prev _ _ s vs (Some x) fuel rs prev s' rs' Hb
             int64_compare_TotalOrder Hrun) in Hrun.
  exists s', rs'. split_and!.
  - rewrite Hrun. do 3 f_equal.
    destruct (lookup_equal int64_compare (Some x) vs) as [v|] eqn:Hl.
    + apply lookup_equal_Some in Hl as [Hv Heq].
      destruct (Hsome v Hv) as [y ->].
      apply (proj1 (int64_compare_eq y x)) in Heq as ->.
      by rewrite bool_decide_eq_true_2.
    + apply lookup_equal_None in Hl. rewrite bool_decide_eq_false_2; [done|].
      intros Hin. rewrite Forall_forall in Hl. apply (Hl _ Hin).
      by apply int64_compare_eq.
  - split_and!.
    + by econstructor.
    + intros v [->|Hv]%elem_of_cons; [by eexists|by apply Hsome].
    + intros y. destruct (decide (y = x)) as [->|Hne].
      * rewrite lookup_insert_eq. rewrite decide_True; [done|left].
      * rewrite lookup_insert_ne by done. rewrite Hadded.
        destruct (decide (Some y ∈ vs)) as [Hin|Hin].
        -- rewrite decide_True; [done|by right].
        -- rewrite decide_False; [done|].
           intros [?|?]%elem_of_cons; [congruence|done].
  - by eapply Insert_source_total.
Qed.

Lemma test_state_New s0 : newInt64SkipList = Ret s0 → test_state s0 ∅ [].
Proof.
  intros Hnew. split_and!.
  - by constructor.
  - intros v Hv. by apply elem_of_nil in Hv.
  - intros x. rewrite lookup_empty. rewrite decide_False; [done|].
    apply not_elem_of_nil.
Qed.

Lemma TestInsert_loop_pass : ∀ n fuel s added d rs vs,
  test_state s added vs → (∀ k, is_Some (rs k)) → length vs + n < fuel →
  TestInsert_loop n fuel s added d rs = Ret Pass.
Proof.
  induction n as [|n IH]; intros fuel s added d rs vs Hst Hrs Hfuel; [done|].
  cbn [TestInsert_loop].
  rewrite (test_state_Contains s added vs (d 0) fuel Hst) by lia.
  cbn [bind].
  destruct (test_state_Insert s added vs (d 0) fuel rs Hst)
    as (s' & rs' & -> & Hst' & Hrs'); [lia|done|].
  cbn [bind].
  rewrite (test_state_Contains s' _ _ (d 0) fuel Hst') by (simpl; lia).
  cbn [bind].
  rewrite (test_state_get s added vs (d 0) Hst).
  rewrite (bool_decide_eq_true_2 (Some (d 0) ∈ Some (d 0) :: vs)) by left.
  assert (∀ b : bool,
            negb (Bool.eqb b b)
            || negb (Bool.eqb b match (if b then Some (d 0) else None) with
                                | Some _ => true
                                | None => false
                                end)
            || negb true = false) as -> by by intros [].
  apply (IH fuel s' _ _ rs' (Some (d 0) :: vs)); [done|done|simpl; lia].
Qed.

(** X15.  [TestInsert] passes whatever values are drawn: on the list of
    [newInt64SkipList], in each of its twenty turns [Contains(x)] agrees
    with the map of the values added before, [Insert(x)] returns a
    previous value exactly when [x] was added before, and [Contains(x)]
    is true afterwards; no call panics, provided the random source for
    the heights does not fail. *)
Theorem TestInsert_passes fuel d rs :
  (∀ k, is_Some (rs k)) → 20 < fuel → TestInsert fuel d rs = Ret Pass.
Proof.
  intros Hrs Hfuel. unfold TestInsert.
  destruct newInt64SkipList as [s0| |] eqn:Hnew; try done. cbn [bind].
  apply (TestInsert_loop_pass 20 fuel s0 ∅ d rs []);
    [by apply test_state_New|done|simpl; lia].
Qed.

Lemma TestForEach_fill_state : ∀ n fuel s added d rs vs,
  test_state s added vs → (∀ k, is_Some (rs k)) → length vs + n < fuel →
  ∃ s' added' vs',
    TestForEach_fill n fuel s added d rs = Ret (s', added') ∧
    test_state s' added' vs' ∧ length vs' = length vs + n.
Proof.
  induction n as [|n IH]; intros fuel s added d rs vs Hst Hrs Hfuel.
  - exists s, added, vs. split_and!; try done; lia.
  - cbn [TestForEach_fill].
    destruct (test_state_Insert s added vs (d 0) fuel rs Hst)
      as (s' & rs' & -> & Hst' & Hrs'); [lia|done|].
    cbn [bind].
    destruct (IH fuel s' (<[d 0 := true]> added) (draws_tail d) rs'
                (Some (d 0) :: vs) Hst' Hrs')
      as (s2 & added2 & vs2 & -> & Hst2 & Hlen); [simpl; lia|].
    exists s2, added2, vs2. split_and!; try done. simpl in Hlen. lia.
Qed.

Lemma all_Some_fmap {A} (l : list (option A)) :
  (∀ v, v ∈ l → ∃ a, v = Some a) → ∃ al, l = Some <$> al.
Proof.
  induction l as [|v l IH]; intros H; [by exists []|].
  destruct (H v) as [a ->]; [left|].
  destruct IH as [al ->]; [intros w Hw; apply H; by right|].
  by exists (a :: al).
Qed.

(** Along level 0 the list of a test holds the numbers added, in
    ascending order. *)
Lemma test_state_values s added vs :
  test_state s added vs →
  ∃ l xs, Inv s l ∧ (1 ≤ maxLevel s)%Z ∧ valof s <$> l = Some <$> xs ∧
    StronglySorted Z.lt xs ∧ (∀ x, x ∈ xs ↔ Some x ∈ vs).
Proof.
  intros (Hb & Hsome & _).
  destruct (built_Inv _ _ s vs Hb int64_compare_TotalOrder)
    as (l & HInv & HC & HM & Hsub & Hsup & _).
  destruct (all_Some_fmap (valof s <$> l)) as [xs Hxs].
  { intros v Hv. by apply Hsome, Hsub. }
  exists l, xs. split_and!; try done.
  - lia.
  - pose proof (inv_values_sorted s l HInv) as Hs. rewrite Hxs, HC in Hs.
    clear Hxs. induction xs as [|x xs IH]; [constructor|].
    rewrite fmap_cons in Hs. apply StronglySorted_inv in Hs as [Hs Hx].
    constructor; [by apply IH|].
    rewrite Forall_fmap in Hx. eapply Forall_impl; [exact Hx|].
    intros y Hy. by apply int64_compare_lt.
  - intros x. split.
    + intros Hx. apply Hsub. rewrite Hxs. by apply list_elem_of_fmap_2.
    + intros Hx. destruct (Hsup _ Hx) as (w & Hw & Heq).
      rewrite Hxs in Hw. apply list_elem_of_fmap in Hw as (y & -> & Hy).
      apply (proj1 (int64_compare_eq y x)) in Heq. by subst.
Qed.

(** The callback of [TestForEach] over numbers in ascending order that
    are all in the map: it reports nothing, counts them, and takes them
    out of the map. *)
Lemma TestForEach_callback_run : ∀ (xs : list Z) added prev count,
  StronglySorted Z.lt xs →
  (count = 0 ∨ Forall (λ x, prev < x) xs)%Z → (0 ≤ count)%Z →
  (∀ x, x ∈ xs → added !! x = Some true) →
  ∃ st',
    foreach_values TestForEach_callback (ForeachTest added prev count false)
      (Some <$> xs) = (st', None) ∧
    ft_failed st' = false ∧
    ft_count st' = (count + Z.of_nat (length xs))%Z ∧
    ∀ k, ft_added st' !! k = if decide (k ∈ xs) then None else added !! k.
Proof.
  induction xs as [|x xs IH]; intros added prev count Hs Hprev Hcount Hin.
  - eexists. split; [done|]. simpl. split_and!; try done; lia.
  - apply StronglySorted_inv in Hs as [Hs Hx].
    rewrite fmap_cons. cbn [foreach_values TestForEach_callback].
    cbn [ft_count ft_prev ft_added ft_failed].
    assert ((0 <? count)%Z && (x <=? prev)%Z = false) as ->.
    { destruct Hprev as [->|Hp]; [done|].
      apply Forall_cons in Hp as [Hp _].
      destruct (Z.leb_spec x prev); [lia|]. by rewrite andb_false_r. }
    unfold map_get. rewrite (Hin x) by left. cbn [default negb orb].
    change (negb (id true)) with false.
    destruct (IH (delete x added) x (count + 1)%Z Hs)
      as (st' & -> & Hf & Hc & Ha).
    { by right. }
    { lia. }
    { intros y Hy. rewrite lookup_delete_ne.
      - apply Hin. by right.
      - rewrite Forall_forall in Hx. specialize (Hx y Hy). lia. }
    exists st'. split_and!; try done.
    + rewrite Hc. simpl length. lia.
    + intros k. rewrite Ha. destruct (decide (k = x)) as [->|Hne].
      * rewrite lookup_delete_eq.
        destruct (decide (x ∈ x :: xs)) as [_|Hn]; [|exfalso; apply Hn; left].
        by destruct (decide (x ∈ xs)).
      * rewrite lookup_delete_ne by done.
        destruct (decide (k ∈ xs)) as [Hk|Hk].
        -- destruct (decide (k ∈ x :: xs)) as [_|Hn]; [done|].
           exfalso. apply Hn. by right.
        -- destruct (decide (k ∈ x :: xs)) as [[?|?]%elem_of_cons|_]; done.
Qed.

Lemma StronglySorted_lt_NoDup (xs : list Z) : StronglySorted Z.lt xs → NoDup xs.
Proof.
  induction 1 as [|x xs _ IH Hx]; constructor; [|done].
  intros Hin. rewrite Forall_forall in Hx. specialize (Hx x Hin). lia.
Qed.

Lemma size_keys (m : gmap Z bool) (xs : list Z) :
  NoDup xs → (∀ k, is_Some (m !! k) ↔ k ∈ xs) → size m = length xs.
Proof.
  intros HND Hdom. rewrite <- size_dom.
  assert (dom m = list_to_set xs) as ->.
  { apply set_eq. intros k. by rewrite elem_of_dom, elem_of_list_to_set. }
  by apply size_list_to_set.
Qed.

(** X16.  [TestForEach] passes whatever values are drawn: after its 32
    insertions into the list of [newInt64SkipList], [ForEach] hands the
    callback int64 values only, in strictly ascending order, each of
    them added and none twice, as many as the map holds, and none of the
    map is missed; no call panics, provided the random source for the
    heights does not fail. *)
Theorem TestForEach_passes fuel d rs :
  (∀ k, is_Some (rs k)) → 32 < fuel → TestForEach fuel d rs = Ret Pass.
Proof.
  intros Hrs Hfuel. unfold TestForEach.
  destruct newInt64SkipList as [s0| |] eqn:Hnew; try done. cbn [bind].
  destruct (TestForEach_fill_state 32 fuel s0 ∅ d rs []
              (test_state_New s0 Hnew) Hrs)
    as (s & added & vs & -> & Hst & Hlen); [simpl; lia|].
  cbn [bind].
  destruct (test_state_values s added vs Hst)
    as (l & xs & HInv & Hm & Hvals & Hsorted & Hxs).
  destruct (inv_chain0 s l HInv Hm) as (n & Hn & Hch).
  pose proof Hst as (Hb & _ & Hadded).
  pose proof (built_heap_le _ _ s vs Hb) as Hle.
  rewrite (ForEach_chain s TestForEach_callback n l fuel _ Hn Hch)
    by (rewrite (inv_length s l HInv); simpl in Hlen; lia).
  cbn [bind]. rewrite Hvals.
  destruct (TestForEach_callback_run xs added 0 0 Hsorted)
    as (st' & -> & Hf & Hc & Ha); [by left|lia| |].
  { intros x Hx. rewrite Hadded. rewrite decide_True; [done|by apply Hxs]. }
  assert (size added = length xs) as Hsize.
  { apply size_keys; [by apply StronglySorted_lt_NoDup|].
    intros k. rewrite Hadded.
    destruct (decide (Some k ∈ vs)) as [Hin|Hin].
    - split; [intros _; by apply Hxs|by eexists].
    - split; [by intros [? ?]|intros Hk; by apply Hxs in Hk]. }
  assert (ft_added st' = ∅) as Hempty.
  { apply map_eq. intros k. rewrite Ha, lookup_empty.
    destruct (decide (k ∈ xs)) as [Hk|Hk]; [done|].
    rewrite Hadded. rewrite decide_False; [done|].
    intros Hin. by apply Hk, Hxs. }
  rewrite Hf, Hc, Hempty, Hsize, map_size_empty. cbn [orb].
  rewrite Z.add_0_l, Z.eqb_refl. done.
Qed.

End TestLemmas.

Lemma TestInsert_passes_witness :
  TestInsert 21 (λ k, Z.of_nat (k `mod` 7)) (const_source 1) = Ret Pass.
Proof.
  apply (TestInsert_passes 21 (λ k, Z.of_nat (k `mod` 7)) (const_source 1)).
  - intros k. by eexists.
  - lia.
Defined.

Lemma TestForEach_passes_witness :
  TestForEach 33 (λ k, Z.of_nat (k `mod` 7)) (const_source 1) = Ret Pass.
Proof.
  apply (TestForEach_passes 33 (λ k, Z.of_nat (k `mod` 7)) (const_source 1)).
  - intros k. by eexists.
  - lia.
Defined.

(** * Where Contains fails fast, and where Insert changes nothing *)

Section FailFast.
Context {E : Type}.
Implicit Types (s t : SkipList E) (V v : @value E) (l : list ptr)
  (vs : list (@value E)).
Local Open Scope nat_scope.

(** The panics of the reads of the heap: none is that of the comparison. *)
Lemma heap_reads_Panic s V (r : sref) (sl : list (option ptr)) i n p :
  (slice s r = Panic p → p ≠ InvalidCmp) ∧
  (index sl i = Panic p → p ≠ InvalidCmp) ∧
  (cmp s n V = Panic p → p ≠ InvalidCmp) ∧
  (next_of s n = Panic p → p ≠ InvalidCmp).
Proof.
  split_and!.
  - destruct r as [|q]; cbn [slice]; [done|]. unfold deref.
    destruct (heap s !! q); cbn [bind]; congruence.
  - unfold index. destruct (sl !! i); congruence.
  - destruct n as [q|]; cbn [cmp]; [|done]. unfold deref.
    destruct (heap s !! q); cbn [bind]; congruence.
  - destruct n as [q|]; cbn [next_of]; [|congruence]. unfold deref.
    destruct (heap s !! q); cbn [bind]; congruence.
Qed.

Ltac not_invalid s V H :=
  exfalso;
  first
    [ eapply (proj1 (heap_reads_Panic s V _ [] 0 None _)); [exact H|congruence]
    | eapply (proj1 (proj2 (heap_reads_Panic s V SHead _ _ None _)));
        [exact H|congruence]
    | eapply (proj1 (proj2 (proj2 (heap_reads_Panic s V SHead [] 0 _ _))));
        [exact H|congruence]
    | eapply (proj2 (proj2 (proj2 (heap_reads_Panic s V SHead [] 0 _ _))));
        [exact H|congruence] ].

(** Where the loop of [Contains] panics on the comparison, that of
    [Insert] does not end. *)
Lemma contains_inner_panic_spins s V i : ∀ fuel nodes,
  contains_inner fuel s V i nodes = Panic InvalidCmp →
  ∀ fuel' updates, insert_inner fuel' s V i nodes updates = Timeout.
Proof.
  induction fuel as [|fuel IH]; intros nodes Hrun; [done|].
  cbn [contains_inner] in Hrun.
  destruct (slice s nodes) as [sl|p|] eqn:Hsl; cbn [bind] in Hrun; try done;
    [|injection Hrun as ->; not_invalid s V Hsl].
  destruct (index sl i) as [n|p|] eqn:Hn; cbn [bind] in Hrun; try done;
    [|injection Hrun as ->; not_invalid s V Hn].
  destruct (cmp s n V) as [c|p|] eqn:Hc; cbn [bind] in Hrun; try done;
    [|injection Hrun as ->; not_invalid s V Hc].
  destruct (c =? -1)%Z eqn:H1.
  - destruct (next_of s n) as [nodes'|p|] eqn:Hnext; cbn [bind] in Hrun;
      try done; [|injection Hrun as ->; not_invalid s V Hnext].
    intros fuel' updates. destruct fuel' as [|fuel']; [done|].
    cbn [insert_inner]. rewrite Hsl. cbn [bind]. rewrite Hn. cbn [bind].
    rewrite Hc. cbn [bind]. rewrite H1, Hnext. cbn [bind].
    by apply IH.
  - destruct (c =? 0)%Z eqn:H2; [done|].
    destruct (c =? 1)%Z eqn:H3; [done|].
    intros fuel' updates.
    apply (insert_inner_invalid s V i nodes updates sl n c); try done; lia.
Qed.

(** Where the loop of [Contains] goes down a level, that of [Insert]
    records the slot and goes down from the same slice, if it has the
    fuel. *)
Lemma contains_inner_inl_insert s V i : ∀ fuel nodes nodes',
  contains_inner fuel s V i nodes = Ret (inl nodes') →
  ∀ fuel' updates, i < length updates →
    insert_inner fuel' s V i nodes updates = Timeout ∨
    insert_inner fuel' s V i nodes updates =
      Ret (inl (nodes', <[i := Some (nodes', i)]> updates)).
Proof.
  induction fuel as [|fuel IH]; intros nodes nodes' Hrun; [done|].
  cbn [contains_inner] in Hrun.
  destruct (slice s nodes) as [sl| |] eqn:Hsl; cbn [bind] in Hrun; try done.
  destruct (index sl i) as [n| |] eqn:Hn; cbn [bind] in Hrun; try done.
  destruct (cmp s n V) as [c| |] eqn:Hc; cbn [bind] in Hrun; try done.
  intros fuel' updates Hi. destruct fuel' as [|fuel']; [by left|].
  cbn [insert_inner]. rewrite Hsl. cbn [bind]. rewrite Hn. cbn [bind].
  rewrite Hc. cbn [bind].
  destruct (c =? -1)%Z eqn:H1.
  - destruct (next_of s n) as [nodes1| |] eqn:Hnext; cbn [bind] in Hrun;
      try done.
    cbn [bind]. by apply (IH nodes1 nodes').
  - destruct (c =? 0)%Z eqn:H2; [done|].
    destruct (c =? 1)%Z eqn:H3; [|done].
    injection Hrun as <-. right.
    destruct (index_lt updates i Hi) as (u & _ & ->). done.
Qed.

Lemma contains_outer_panic_spins s V : ∀ k fuel nodes,
  contains_outer fuel s V k nodes = Panic InvalidCmp →
  ∀ fuel' updates, k ≤ length updates →
    insert_outer fuel' s V k nodes updates = Timeout.
Proof.
  induction k as [|i IH]; intros fuel nodes Hrun; [done|].
  cbn [contains_outer] in Hrun. intros fuel' updates Hk.
  cbn [insert_outer].
  destruct (contains_inner fuel s V i nodes) as [[nodes'|b]|p|] eqn:Hin;
    cbn [bind] in Hrun; try done.
  - destruct (contains_inner_inl_insert s V i fuel nodes nodes' Hin
                fuel' updates) as [->| ->]; [lia|done|].
    cbn [bind]. apply (IH fuel nodes' Hrun). rewrite length_insert. lia.
  - injection Hrun as ->.
    by rewrite (contains_inner_panic_spins s V i fuel nodes Hin).
Qed.

(** X17.  Whatever the list and the comparator: when [Contains(V)]
    panics with "invalid result code from comparison", [Insert(V)] on
    the same list neither returns nor panics.  It makes the same
    comparisons, and its [switch] has no [default] case: it repeats the
    comparison that made [Contains] panic. *)
Theorem Contains_panics_Insert_spins s V fuel fuel' rs :
  Contains fuel s V = Panic InvalidCmp → Insert fuel' s V rs = Timeout.
Proof.
  intros Hrun. unfold Contains in Hrun.
  destruct (contains_outer fuel s V (Z.to_nat (maxLevel s)) SHead)
    as [[nodes|b]|p|] eqn:Hout; cbn [bind] in Hrun; try done.
  - destruct (slice s nodes) as [sl|p|] eqn:Hsl; cbn [bind] in Hrun; try done;
      [|injection Hrun as ->; not_invalid s V Hsl].
    destruct (index sl 0) as [n|p|] eqn:Hn; cbn [bind] in Hrun; try done;
      [|injection Hrun as ->; not_invalid s V Hn].
    destruct (cmp s n V) as [c|p|] eqn:Hc; cbn [bind] in Hrun; try done.
    injection Hrun as ->; not_invalid s V Hc.
  - injection Hrun as ->. unfold Insert.
    destruct (maxLevel s <? 0)%Z eqn:Hneg.
    + apply Z.ltb_lt in Hneg.
      replace (Z.to_nat (maxLevel s)) with 0 in Hout by lia. done.
    + rewrite (contains_outer_panic_spins s V _ fuel SHead Hout); [done|].
      by rewrite length_replicate.
Qed.

Lemma set_heap_same s : set_heap s (heap s) = s.
Proof. by destruct s. Qed.

(** X18.  [Insert] of a value the list holds leaves the list as it is:
    on a list built under the comparator contract, when a node holds
    [V] itself, [Insert(V)] returns [V], and the list and the random
    source are unchanged. *)
Theorem Insert_idempotent c m s vs V fuel rs :
  built c m s vs → TotalOrder c → (1 ≤ m)%Z → length (heap s) < fuel →
  (∃ nd, nd ∈ heap s ∧ val nd = V) →
  Insert fuel s V rs = Ret (V, s, rs).
Proof.
  intros Hb Hc Hm Hfuel (nd0 & Hnd0 & Hv0).
  destruct (built_Inv c m s vs Hb Hc) as (l & HInv & HC & HM & _).
  pose proof Hc as Hc'. rewrite <- HC in Hc'. rewrite <- HM in Hm.
  assert (V ∈ valof s <$> l) as HV.
  { apply (inv_value_elem s l V HInv). by exists nd0. }
  destruct (Insert_spec s l V rs fuel HInv Hc' Hm Hfuel)
    as [(y & nd & Hy & Hnd & Heq & ->)
       |(pre & suf & updates & Hl & Hpre & Hsuf & _)].
  - assert (val nd = V) as Hval.
    { apply (sorted_equal_unique (Compare s) (valof s <$> l) (val nd) V V);
        try done.
      - by apply inv_values_sorted.
      - rewrite <- (valof_lookup s y nd Hnd). by apply list_elem_of_fmap_2.
      - by apply cmp_refl. }
    rewrite Hval.
    assert (<[y := Node V (next nd)]> (heap s) = heap s) as ->.
    { apply list_insert_id. rewrite Hnd. f_equal. destruct nd. simpl in *.
      by subst. }
    by rewrite set_heap_same.
  - exfalso. pose proof (cmp_refl (Compare s) Hc' V) as Hrefl.
    rewrite Hl, fmap_app, elem_of_app in HV.
    destruct HV as [HV|HV]; apply list_elem_of_fmap in HV as (q & -> & Hq).
    + rewrite Forall_forall in Hpre. specialize (Hpre q Hq).
      unfold lt_elem in Hpre. lia.
    + rewrite Forall_forall in Hsuf. specialize (Hsuf q Hq).
      unfold gt_elem in Hsuf. lia.
Qed.

End FailFast.

Lemma Contains_panics_Insert_spins_witness :
  Insert 7 bad_list (Some 5) (const_source 1) = Timeout.
Proof.
  apply (Contains_panics_Insert_spins bad_list (Some 5) 1 7 (const_source 1)).
  reflexivity.
Defined.

Lemma Insert_idempotent_witness :
  Insert 4 sample_list (Some 3) failing_source =
    Ret (Some 3, sample_list, failing_source).
Proof.
  apply (Insert_idempotent int64_compare 3 sample_list
           [Some 7; Some 3; Some 5] (Some 3) 4 failing_source).
  - exact sample_list_built.
  - exact int64_compare_TotalOrder.
  - lia.
  - simpl. lia.
  - exists (Node (Some 3) [Some 0%nat]). split; [|done].
    right. left.
Defined.

(** * The order of the insertions *)

Section Order.
Context {E : Type}.
Implicit Types (s t : SkipList E) (V v : @value E) (l : list ptr)
  (vs ws : list (@value E)).
Local Open Scope nat_scope.

Lemma distinct_perm c vs ws :
  TotalOrder c → vs ≡ₚ ws → distinct c vs → distinct c ws.
Proof.
  intros Hc Hp. induction Hp as [|x l l' Hp IH|x y l|l l' l'' _ IH1 _ IH2].
  - done.
  - simpl. intros [Hx Hd]. split; [by rewrite <- Hp|by apply IH].
  - simpl. intros (Hy & Hx & Hd).
    apply Forall_cons in Hy as [Hyx Hy]. split_and!; try done.
    constructor; [|done]. intros H0. apply Hyx. by apply (cmp_eq_sym c Hc).
  - auto.
Qed.

(** The sorted sequence of values no two of which are equal holds all of
    them. *)
Lemma built_values_perm c m s vs :
  built c m s vs → TotalOrder c → distinct c vs →
  values_of c vs ≡ₚ vs ∧
  StronglySorted (λ x y, c x y = (-1)%Z) (values_of c vs).
Proof.
  intros Hb Hc Hd.
  destruct (built_values c m s vs Hb Hc) as (l & HInv & HC & _ & Hvals).
  destruct (built_Inv c m s vs Hb Hc) as (l' & HInv' & _ & _ & _ & _ & Hperm).
  split.
  - rewrite <- Hvals, (inv_values_heap s l HInv),
      <- (inv_values_heap s l' HInv'). by apply Hperm.
  - rewrite <- Hvals, <- HC. by apply inv_values_sorted.
Qed.

(** X19.  Neither the order of the insertions nor the heights drawn show
    in the traversal: two lists built, under the comparator contract,
    from the same values in different orders, no two of the values being
    equal, give [ForEach] the same sequence of calls. *)
Theorem ForEach_order_independent {CS Err : Type} c m s t vs ws fuel
    (cb : CS → @value E → CS * option Err) st :
  built c m s vs → built c m t ws → TotalOrder c → (1 ≤ m)%Z →
  vs ≡ₚ ws → distinct c vs → length vs ≤ fuel →
  ∃ r, ForEach fuel s cb st = Ret r ∧ ForEach fuel t cb st = Ret r.
Proof.
  intros Hs Ht Hc Hm Hp Hd Hfuel.
  pose proof (distinct_perm c vs ws Hc Hp Hd) as Hd'.
  destruct (built_values_perm c m s vs Hs Hc Hd) as [Hp1 Hs1].
  destruct (built_values_perm c m t ws Ht Hc Hd') as [Hp2 Hs2].
  assert (values_of c vs = values_of c ws) as Heq.
  { apply (StronglySorted_unique_strong (λ x y, c x y = (-1)%Z));
      try done.
    - intros x y _ _ Hxy Hyx. apply (cmp_flip c Hc) in Hxy. lia.
    - by rewrite Hp1, Hp2. }
  assert (∀ u us, built c m u us → length us ≤ fuel →
            ForEach fuel u cb st = Ret (foreach_values cb st (values_of c us)))
    as Hrun.
  { intros u us Hu Hlen.
    destruct (built_values c m u us Hu Hc) as (l & HInv & HC & HM & Hvals).
    rewrite <- HM in Hm.
    destruct (inv_chain0 u l HInv Hm) as (n & Hn & Hch).
    pose proof (inv_length u l HInv) as Hl.
    pose proof (built_heap_le c m u us Hu) as Hle.
    rewrite <- Hvals. apply (ForEach_chain u cb n l); [done|done|lia]. }
  exists (foreach_values cb st (values_of c vs)). split.
  - by apply Hrun.
  - rewrite Heq. apply Hrun; [done|]. by rewrite <- Hp.
Qed.

End Order.

Lemma sample_list_flat_built :
  built int64_compare 3 sample_list_flat [Some 5; Some 3; Some 7].
Proof.
  apply (list_of_built int64_compare 3 10 [Some 7; Some 3; Some 5]
           (const_source 0)).
  reflexivity.
Qed.

Lemma ForEach_order_independent_witness :
  ∃ r, ForEach 3 sample_list (traced (λ _, @None failure)) [] = Ret r ∧
       ForEach 3 sample_list_flat (traced (λ _, @None failure)) [] = Ret r.
Proof.
  apply (ForEach_order_independent int64_compare 3 sample_list
           sample_list_flat [Some 7; Some 3; Some 5] [Some 5; Some 3; Some 7]).
  - exact sample_list_built.
  - exact sample_list_flat_built.
  - exact int64_compare_TotalOrder.
  - lia.
  - apply (Permutation_rev [Some 7; Some 3; Some 5]).
  - simpl. repeat split; repeat constructor; done.
  - simpl. lia.
Defined.
